(** * Braille display detection (bdDetect.py): registry, matching, background scan

    A shallow embedding of [source/bdDetect.py] and the properties of its
    specification.  The module keeps a process wide registry
    [_driverDevices] (a dict of [defaultdict(set)]), offers generator
    functions that match enumerated hardware against it, and a [Detector]
    whose [_bgScan] runs one scan pass on the background thread.

    Python dicts are finite maps ([gmap]), Python sets are [gset]; generator
    functions are resumptions ([gen]) whose body runs only when iterated;
    exceptions are values of [exn]; the external collaborators (hardware
    enumeration, the braille handler, stop events set from other threads,
    the kernel timer) are oracles indexed by a logical clock. *)

From stdpp Require Import base option list strings gmap fin_maps fin_sets.
From Stdlib Require Import ZArith Lia.

Local Open Scope string_scope.
Local Open Scope list_scope.

(** ** Python values, exceptions *)

(** The values that occur in the port dictionaries of [hwPortUtils]:
    unicode strings ([usbID], [devicePath], [port], [bluetoothName]) and
    integers ([bluetoothAddress]). *)
Inductive pyval : Type :=
| VStr (s : string)
| VInt (z : Z).

#[global] Instance pyval_eq_dec : EqDecision pyval.
Proof. solve_decision. Defined.

#[global] Instance pyval_countable : Countable pyval.
Proof.
  refine (inj_countable'
            (fun v => match v with VStr s => inl s | VInt z => inr z end)
            (fun x => match x with inl s => VStr s | inr z => VInt z end) _).
  intros []; reflexivity.
Defined.

(** Exceptions raised by the modelled code.  [KeyError] carries the missing
    key; it is the only [LookupError] the module can raise. *)
Inductive exn : Type :=
| KeyError (key : string)
| AttributeError
| TypeError
| WinError.

Definition isLookupError (e : exn) : bool :=
  match e with KeyError _ => true | _ => false end.

Inductive result (A : Type) : Type :=
| Ok (a : A)
| Raise (e : exn).
Arguments Ok {A} a.
Arguments Raise {A} e.

(** A port dictionary as returned by [hwPortUtils.list*]. *)
Abbreviation Port := (gmap string pyval).

(** ** DeviceMatch *)

Module DeviceMatch.
Record t : Type := mk {
  type : string;
  id : pyval;
  port : pyval;
  deviceInfo : Port
}.
End DeviceMatch.

Abbreviation DeviceMatch := DeviceMatch.mk.

Definition KEY_HID : string := "hid".
Definition KEY_SERIAL : string := "serial".
Definition KEY_CUSTOM : string := "custom".
Definition KEY_BLUETOOTH : string := "bluetooth".

(** How often (in ms) to poll for Bluetooth devices. *)
Definition POLL_INTERVAL : Z := 5000.

(** ** The registry [_driverDevices]

    Each driver maps to a [defaultdict(set)]: a key holds either a set of
    ids (put there by [addUsbDevices], or created empty by a read of a
    missing key) or the match function stored by [addBluetoothDevices].
    The order of [iteritems()] is not specified by Python; [map_to_list]
    stands for it. *)
Inductive entry : Type :=
| Ids (ids : gset pyval)
| MatchFunc (f : DeviceMatch.t -> result bool).

Abbreviation Devs := (gmap string entry).
Abbreviation Registry := (gmap string (gmap string entry)).

(** [callable(x)] for a value stored in a driver's dict. *)
Definition callable (e : entry) : bool :=
  match e with MatchFunc _ => true | Ids _ => false end.

(** [devs[key]] on a [defaultdict(set)]: the stored value, or a fresh empty
    set that is also stored under [key]. *)
Definition defaultdict_get (devs : Devs) (key : string) : entry * Devs :=
  match devs !! key with
  | Some e => (e, devs)
  | None => (Ids ∅, <[key := Ids ∅]> devs)
  end.

(** ** The world outside the Detector *)

(** Which matching function made a call to [hwPortUtils.listComPorts]. *)
Inductive caller : Type := UsbMatching | BluetoothMatching.

(** Calls that leave the module, in the order they happen. *)
Inductive event : Type :=
| EvListUsbDevices
| EvListHidDevices
| EvListComPorts (c : caller)
| EvIsSet (ev : nat) (b : bool)
| EvEventSet (ev : nat)
| EvSetDisplayByName (driver : string) (m : DeviceMatch.t) (ok : bool)
| EvSetWaitableTimer (ms : Z)
| EvCancelWaitableTimer (ok : bool)
| EvQueueApc
| EvRegister
| EvUnregister
| EvCloseHandle.

(** The collaborators, as oracles.  The argument [nat] is the value of the
    logical clock at the call, so the hardware, the handler and the other
    threads may answer differently each time.  They answer as their
    interfaces say: the [list*] functions with a list of port dicts,
    [setDisplayByName] with a truth value; [foreignSet] tells whether
    another thread sets the stop event that is being checked. *)
Record Env : Type := {
  listUsbDevices : nat -> list Port;
  listHidDevices : nat -> list Port;
  listComPorts : nat -> list Port;
  setDisplayByName : nat -> string -> DeviceMatch.t -> bool;
  foreignSet : nat -> bool;
  cancelWaitableTimer : nat -> bool;
  createWaitableTimer : nat -> Z
}.

Record World : Type := mkWorld {
  registry : Registry;
  clock : nat;
  log : list event;
  stopSet : gset nat;
  nextEvent : nat;
  pollTimer : option Z
}.

Definition set_registry (r : Registry) (w : World) : World :=
  mkWorld r (clock w) (log w) (stopSet w) (nextEvent w) (pollTimer w).

(** One external call: the clock advances and the call is logged. *)
Definition emit (e : event) (w : World) : World :=
  mkWorld (registry w) (S (clock w)) (log w ++ [e]) (stopSet w) (nextEvent w)
          (pollTimer w).

Definition set_stopSet (s : gset nat) (w : World) : World :=
  mkWorld (registry w) (clock w) (log w) s (nextEvent w) (pollTimer w).

Definition set_nextEvent (n : nat) (w : World) : World :=
  mkWorld (registry w) (clock w) (log w) (stopSet w) n (pollTimer w).

Definition set_pollTimer (t : option Z) (w : World) : World :=
  mkWorld (registry w) (clock w) (log w) (stopSet w) (nextEvent w) t.

(** ** Generators

    A generator object is a resumption.  [GStep act k] is a piece of the
    body that runs without yielding: it changes the world by [act] and goes
    on as [k w], where [w] is the world it started from. *)
Inductive gen (A : Type) : Type :=
| GStop
| GRaise (e : exn)
| GYield (a : A) (k : gen A)
| GStep (act : World -> World) (k : World -> gen A).
Arguments GStop {A}.
Arguments GRaise {A} e.
Arguments GYield {A} a k.
Arguments GStep {A} act k.

Inductive nextResult (A : Type) : Type :=
| Yielded (a : A)
| StopIteration
| Raised (e : exn).
Arguments Yielded {A} a.
Arguments StopIteration {A}.
Arguments Raised {A} e.

(** [next(g)]: run the body to its next yield, its end, or an exception.
    A generator that has raised is finished. *)
Fixpoint next {A} (g : gen A) (w : World) : nextResult A * gen A * World :=
  match g with
  | GStop => (StopIteration, GStop, w)
  | GRaise e => (Raised e, GStop, w)
  | GYield a k => (Yielded a, k, w)
  | GStep act k => next (k w) (act w)
  end.

(** [list(g)], keeping what was yielded before an exception. *)
Fixpoint drain {A} (g : gen A) (w : World) : list A * option exn * World :=
  match g with
  | GStop => ([], None, w)
  | GRaise e => ([], Some e, w)
  | GYield a k => let '(ys, fin, w') := drain k w in (a :: ys, fin, w')
  | GStep act k => drain (k w) (act w)
  end.

(** [itertools.chain(g1, g2)]. *)
Fixpoint chain {A} (g1 g2 : gen A) : gen A :=
  match g1 with
  | GStop => g2
  | GRaise e => GRaise e
  | GYield a k => GYield a (chain k g2)
  | GStep act k => GStep act (fun w => chain (k w) g2)
  end.

(** [(elt(port) for port in ports if guard(port))], once [ports] has been
    evaluated. *)
Fixpoint genexp {A} (guard : Port -> bool) (elt : Port -> result A)
    (ports : list Port) : gen A :=
  match ports with
  | [] => GStop
  | p :: ps =>
      if guard p then
        match elt p with
        | Ok a => GYield a (genexp guard elt ps)
        | Raise e => GRaise e
        end
      else genexp guard elt ps
  end.

(** [for x in src: body], inside a generator function; [body] gets the rest
    of the loop as its continuation. *)
Fixpoint for_gen {A B} (src : gen A) (body : A -> gen B -> gen B) : gen B :=
  match src with
  | GStop => GStop
  | GRaise e => GRaise e
  | GYield a k => body a (for_gen k body)
  | GStep act k => GStep act (fun w => for_gen (k w) body)
  end.

Definition for_list {X B} (l : list X) (body : X -> gen B -> gen B)
    (rest : gen B) : gen B :=
  foldr body rest l.

(** ** Building DeviceMatch records from ports *)

(** [port[key]] on a plain dict. *)
Definition subscript (p : Port) (key : string) : result pyval :=
  match p !! key with
  | Some v => Ok v
  | None => Raise (KeyError key)
  end.

(** [key in port]. *)
Definition contains (key : string) (p : Port) : bool :=
  bool_decide (is_Some (p !! key)).

(** [DeviceMatch(kind, port[idKey], port[portKey], port)]. *)
Definition mkDeviceMatch (kind idKey portKey : string) (p : Port)
    : result DeviceMatch.t :=
  match subscript p idKey with
  | Raise e => Raise e
  | Ok i =>
      match subscript p portKey with
      | Raise e => Raise e
      | Ok q => Ok (DeviceMatch kind i q p)
      end
  end.

(** The [itertools.chain] of the three generator expressions of the USB
    matching functions, given the three lists already fetched. *)
Definition usbDevs (usb hid com : list Port) : gen DeviceMatch.t :=
  chain (genexp (fun _ => true) (mkDeviceMatch KEY_CUSTOM "usbID" "devicePath") usb)
    (chain (genexp (contains "usbID") (mkDeviceMatch KEY_HID "usbID" "devicePath") hid)
           (genexp (contains "usbID") (mkDeviceMatch KEY_SERIAL "usbID" "port") com)).

(** [for type, ids in devs.iteritems(): if match.type==type and match.id in
    ids: yield y]. *)
Definition typesLoop {B} (y : B) (m : DeviceMatch.t)
    (items : list (string * entry)) (rest : gen B) : gen B :=
  for_list items
    (fun '(type, ids) k =>
       if String.eqb (DeviceMatch.type m) type then
         match ids with
         | Ids s => if bool_decide (DeviceMatch.id m ∈ s) then GYield y k else k
         | MatchFunc _ => GRaise TypeError
         end
       else k)
    rest.

(** ** Registration *)

(** [_getDriver(driver)]: the driver's dict, created empty when missing. *)
Definition _getDriver (driver : string) (w : World) : Devs * World :=
  match registry w !! driver with
  | Some devs => (devs, w)
  | None => (∅, set_registry (<[driver := ∅]> (registry w)) w)
  end.

(** [addUsbDevices(driver, type, ids)]: [devs[type].update(ids)].  The
    value under [type] is created when missing; a match function stored
    there has no [update]. *)
Definition addUsbDevices (driver type : string) (ids : gset pyval) (w : World)
    : result unit * World :=
  let '(devs, w1) := _getDriver driver w in
  let '(driverUsb, devs1) := defaultdict_get devs type in
  let w2 := set_registry (<[driver := devs1]> (registry w1)) w1 in
  match driverUsb with
  | Ids s =>
      (Ok tt, set_registry (<[driver := <[type := Ids (s ∪ ids)]> devs1]> (registry w2)) w2)
  | MatchFunc _ => (Raise AttributeError, w2)
  end.

(** [addBluetoothDevices(driver, matchFunc)]. *)
Definition addBluetoothDevices (driver : string)
    (matchFunc : DeviceMatch.t -> result bool) (w : World) : result unit * World :=
  let '(devs, w1) := _getDriver driver w in
  (Ok tt,
   set_registry (<[driver := <[KEY_BLUETOOTH := MatchFunc matchFunc]> devs]> (registry w1)) w1).

(** ** Matching *)

(** The read [devs[KEY_BLUETOOTH]] made on the dict of [driver], as a
    change of the registry. *)
Definition touchBluetooth (driver : string) (w : World) : World :=
  match registry w !! driver with
  | Some devs =>
      set_registry (<[driver := snd (defaultdict_get devs KEY_BLUETOOTH)]> (registry w)) w
  | None => w
  end.

Section Matching.
Context (env : Env).

(** The three calls that are made when the [itertools.chain] of generator
    expressions is built: the outermost iterable of a generator expression
    is evaluated at once.  [body] receives the device stream. *)
Definition withUsbDevs {B} (body : gen DeviceMatch.t -> gen B) : gen B :=
  GStep (emit EvListUsbDevices) (fun w0 =>
    let usb := listUsbDevices env (clock w0) in
    GStep (emit EvListHidDevices) (fun w1 =>
      let hid := listHidDevices env (clock w1) in
      GStep (emit (EvListComPorts UsbMatching)) (fun w2 =>
        let com := listComPorts env (clock w2) in
        body (usbDevs usb hid com)))).

(** [for driver, devs in _driverDevices.iteritems(): for type, ids in
    devs.iteritems(): ...] *)
Definition usbDriversLoop (m : DeviceMatch.t)
    (drivers : list (string * Devs)) (rest : gen (string * DeviceMatch.t))
    : gen (string * DeviceMatch.t) :=
  for_list drivers
    (fun '(driver, devs) k => typesLoop (driver, m) m (map_to_list devs) k)
    rest.

Definition getDriversForConnectedUsbDevices : gen (string * DeviceMatch.t) :=
  withUsbDevs (fun devices =>
    for_gen devices (fun m rest =>
      GStep (fun w => w) (fun w =>
        usbDriversLoop m (map_to_list (registry w)) rest))).

(** [getConnectedUsbDevicesForDriver(driver)].  [devs] is a reference to
    the driver's dict, read again for every device. *)
Definition getConnectedUsbDevicesForDriver (driver : string) : gen DeviceMatch.t :=
  GStep (fun w => w) (fun w =>
    match registry w !! driver with
    | None => GRaise (KeyError driver)
    | Some _ =>
        withUsbDevs (fun devices =>
          for_gen devices (fun m rest =>
            GStep (fun w => w) (fun w =>
              typesLoop m m (map_to_list (default ∅ (registry w !! driver))) rest)))
    end).

(** The Bluetooth device records of [listComPorts()], list comprehension
    of [getDriversForPossibleBluetoothDevices]: built completely before
    the loop starts. *)
Fixpoint btDevsList (ports : list Port) : result (list DeviceMatch.t) :=
  match ports with
  | [] => Ok []
  | p :: ps =>
      if contains "bluetoothName" p then
        match mkDeviceMatch KEY_SERIAL "bluetoothName" "port" p with
        | Raise e => Raise e
        | Ok m =>
            match btDevsList ps with
            | Raise e => Raise e
            | Ok ms => Ok (m :: ms)
            end
        end
      else btDevsList ps
  end.

(** [for driver, devs in _driverDevices.iteritems(): matchFunc =
    devs[KEY_BLUETOOTH]; ...] *)
Definition btDriversLoop (m : DeviceMatch.t)
    (drivers : list (string * Devs)) (rest : gen (string * DeviceMatch.t))
    : gen (string * DeviceMatch.t) :=
  for_list drivers
    (fun '(driver, devs) k =>
       GStep (touchBluetooth driver) (fun _ =>
         match fst (defaultdict_get devs KEY_BLUETOOTH) with
         | MatchFunc matchFunc =>
             match matchFunc m with
             | Raise e => GRaise e
             | Ok true => GYield (driver, m) k
             | Ok false => k
             end
         | Ids _ => k
         end))
    rest.

Definition getDriversForPossibleBluetoothDevices : gen (string * DeviceMatch.t) :=
  GStep (emit (EvListComPorts BluetoothMatching)) (fun w0 =>
    match btDevsList (listComPorts env (clock w0)) with
    | Raise e => GRaise e
    | Ok btDevs =>
        for_list btDevs
          (fun m k =>
             GStep (fun w => w) (fun w =>
               btDriversLoop m (map_to_list (registry w)) k))
          GStop
    end).

(** [for match in btDevs: if matchFunc(match): yield match]. *)
Definition btFilter (matchFunc : DeviceMatch.t -> result bool)
    (btDevs : gen DeviceMatch.t) : gen DeviceMatch.t :=
  for_gen btDevs (fun m rest =>
    match matchFunc m with
    | Raise e => GRaise e
    | Ok true => GYield m rest
    | Ok false => rest
    end).

Definition getPossibleBluetoothDevicesForDriver (driver : string) : gen DeviceMatch.t :=
  GStep (touchBluetooth driver) (fun w =>
    match registry w !! driver with
    | None => GRaise (KeyError driver)
    | Some devs =>
        match fst (defaultdict_get devs KEY_BLUETOOTH) with
        | Ids _ => GStop
        | MatchFunc matchFunc =>
            GStep (emit (EvListComPorts BluetoothMatching)) (fun w0 =>
              btFilter matchFunc
                (genexp (contains "bluetoothName")
                        (mkDeviceMatch KEY_SERIAL "bluetoothName" "port")
                        (listComPorts env (clock w0))))
        end
    end).

(** Calling a generator function only creates the generator object. *)
Definition call {A} (body : gen A) (w : World) : result (gen A) * World :=
  (Ok body, w).

(** [bool(next(itertools.chain(...), None))]; a [DeviceMatch] is a
    non-empty tuple, hence true. *)
Definition arePossibleDevicesForDriver (driver : string) (w : World)
    : result bool * World :=
  let '(r1, w1) := call (getConnectedUsbDevicesForDriver driver) w in
  match r1 with
  | Raise e => (Raise e, w1)
  | Ok g1 =>
      let '(r2, w2) := call (getPossibleBluetoothDevicesForDriver driver) w1 in
      match r2 with
      | Raise e => (Raise e, w2)
      | Ok g2 =>
          let '(r, _, w3) := next (chain g1 g2) w2 in
          match r with
          | Yielded _ => (Ok true, w3)
          | StopIteration => (Ok false, w3)
          | Raised e => (Raise e, w3)
          end
      end
  end.

End Matching.

(** ** The Detector *)

Record Detector : Type := mkDetector {
  _btComs : option (list (string * DeviceMatch.t));
  _pollTimerHandle : Z;
  _detectUsb : bool;
  _detectBluetooth : bool;
  _stopEvent : nat
}.

Definition set_btComs (c : option (list (string * DeviceMatch.t))) (self : Detector)
    : Detector :=
  mkDetector c (_pollTimerHandle self) (_detectUsb self) (_detectBluetooth self)
             (_stopEvent self).

(** How a loop of [_bgScan] is left: by [return], by an exception, or by
    running into the code after it (at the end of the items or by
    [break]). *)
Inductive loopExit : Type :=
| LReturn
| LRaise (e : exn)
| LFallThrough.

Section Scan.
Context (env : Env).

(** [stopEvent.isSet()].  The event is set when [set()] was called on it
    before, or when another thread does so now. *)
Definition isSet (ev : nat) (w : World) : bool * World :=
  if bool_decide (ev ∈ stopSet w) then (true, emit (EvIsSet ev true) w)
  else if foreignSet env (clock w) then
    (true, emit (EvIsSet ev true) (set_stopSet ({[ev]} ∪ stopSet w) w))
  else (false, emit (EvIsSet ev false) w).

(** [braille.handler.setDisplayByName(driver, detected=match)]. *)
Definition activate (driver : string) (m : DeviceMatch.t) (w : World) : bool * World :=
  let ok := setDisplayByName env (clock w) driver m in
  (ok, emit (EvSetDisplayByName driver m ok) w).

(** [_startBgScan(usb, bluetooth, callAfter)]. *)
Definition _startBgScan (usb bluetooth : bool) (callAfter : Z)
    (self : Detector) (w : World) : Detector * World :=
  let ev := nextEvent w in
  let w1 := set_nextEvent (S ev) w in
  let self1 := mkDetector (_btComs self) (_pollTimerHandle self) usb bluetooth ev in
  if bool_decide (callAfter ≠ 0%Z) then
    (self1, emit (EvSetWaitableTimer callAfter) (set_pollTimer (Some callAfter) w1))
  else (self1, emit EvQueueApc w1).

(** [_stopBgScan()]. *)
Definition _stopBgScan (self : Detector) (w : World) : result unit * World :=
  let ev := _stopEvent self in
  let w1 := emit (EvEventSet ev) (set_stopSet ({[ev]} ∪ stopSet w) w) in
  if bool_decide (_pollTimerHandle self ≠ 0%Z) then
    let ok := cancelWaitableTimer env (clock w1) in
    let w2 := emit (EvCancelWaitableTimer ok) w1 in
    if ok then (Ok tt, set_pollTimer None w2) else (Raise WinError, w2)
  else (Ok tt, w1).

(** The loop over [getDriversForConnectedUsbDevices()]: the generator is
    advanced one candidate at a time. *)
Fixpoint usbLoop (stopEvent : nat) (g : gen (string * DeviceMatch.t)) (w : World)
    : loopExit * World :=
  match g with
  | GStop => (LFallThrough, w)
  | GRaise e => (LRaise e, w)
  | GStep act k => usbLoop stopEvent (k w) (act w)
  | GYield (driver, m) k =>
      let '(stop, w1) := isSet stopEvent w in
      if stop then (LReturn, w1)
      else
        let '(ok, w2) := activate driver m w1 in
        if ok then (LReturn, w2) else usbLoop stopEvent k w2
  end.

(** The loop over [btComs].  [fresh] says that [btComsCache is not
    btComs]; the cache being filled is threaded through. *)
Fixpoint btLoop (stopEvent : nat) (fresh : bool)
    (btComs btComsCache : list (string * DeviceMatch.t)) (w : World)
    : loopExit * list (string * DeviceMatch.t) * World :=
  match btComs with
  | [] => (LFallThrough, btComsCache, w)
  | (driver, m) :: rest =>
      let '(stop, w1) := isSet stopEvent w in
      if stop then (LReturn, btComsCache, w1)
      else
        let cache1 := if fresh then (btComsCache ++ [(driver, m)])%list else btComsCache in
        let '(ok, w2) := activate driver m w1 in
        if ok then (LFallThrough, cache1, w2)
        else btLoop stopEvent fresh rest cache1 w2
  end.

(** The part of [_bgScan] under [if usb:]. *)
Definition usbPass (stopEvent : nat) (w : World) : loopExit * World :=
  let '(stop, w1) := isSet stopEvent w in
  if stop then (LReturn, w1)
  else usbLoop stopEvent (getDriversForConnectedUsbDevices env) w1.

(** The part of [_bgScan] from the loop over [btComs] on. *)
Definition btTail (stopEvent : nat) (fresh : bool)
    (btComs btComsCache : list (string * DeviceMatch.t))
    (self : Detector) (w : World) : result unit * Detector * World :=
  let '(exit, cache, w1) := btLoop stopEvent fresh btComs btComsCache w in
  match exit with
  | LReturn => (Ok tt, self, w1)
  | LRaise e => (Raise e, self, w1)
  | LFallThrough =>
      let '(stop, w2) := isSet stopEvent w1 in
      if stop then (Ok tt, self, w2)
      else
        let self1 := if fresh then set_btComs (Some cache) self else self in
        match cache with
        | [] => (Ok tt, self1, w2)
        | _ :: _ =>
            let '(self2, w3) := _startBgScan false true POLL_INTERVAL self1 w2 in
            (Ok tt, self2, w3)
        end
  end.

(** The part of [_bgScan] under [if bluetooth:]. *)
Definition btPass (stopEvent : nat) (self : Detector) (w : World)
    : result unit * Detector * World :=
  let '(stop, w1) := isSet stopEvent w in
  if stop then (Ok tt, self, w1)
  else
    match _btComs self with
    | None =>
        let '(btComs, fin, w2) := drain (getDriversForPossibleBluetoothDevices env) w1 in
        match fin with
        | Some e => (Raise e, self, w2)
        | None => btTail stopEvent true btComs [] self w2
        end
    | Some btComs => btTail stopEvent false btComs btComs self w1
    end.

Definition _bgScan (self : Detector) (w : World) : result unit * Detector * World :=
  let stopEvent := _stopEvent self in
  let usb := _detectUsb self in
  let bluetooth := _detectBluetooth self in
  let '(exit, w1) := if usb then usbPass stopEvent w else (LFallThrough, w) in
  match exit with
  | LReturn => (Ok tt, self, w1)
  | LRaise e => (Raise e, self, w1)
  | LFallThrough =>
      if bluetooth then btPass stopEvent self w1 else (Ok tt, self, w1)
  end.

(** [Detector()]. *)
Definition __init__ (w : World) : Detector * World :=
  let handle := createWaitableTimer env (clock w) in
  let self := mkDetector None handle false false 0 in
  _startBgScan true true 0 self (emit EvRegister w).

Definition rescan (self : Detector) (w : World) : result unit * Detector * World :=
  match _stopBgScan self w with
  | (Raise e, w1) => (Raise e, self, w1)
  | (Ok _, w1) =>
      let '(self2, w2) := _startBgScan true true 0 (set_btComs None self) w1 in
      (Ok tt, self2, w2)
  end.

Definition terminate (self : Detector) (w : World) : result unit * Detector * World :=
  match _stopBgScan self (emit EvUnregister w) with
  | (Raise e, w1) => (Raise e, self, w1)
  | (Ok _, w1) => (Ok tt, self, emit EvCloseHandle w1)
  end.

End Scan.

(** ** Detection data

    The registrations made at the bottom of the module, with the match
    functions of the drivers. *)

(** [v.startswith(prefix)]; only strings have the method. *)
Definition startswith (v : pyval) (prefix : string) : result bool :=
  match v with
  | VStr s => Ok (String.prefix prefix s)
  | VInt _ => Raise AttributeError
  end.

(** [any(v.startswith(prefix) for prefix in prefixes)]. *)
Fixpoint anyStartswith (v : pyval) (prefixes : list string) : result bool :=
  match prefixes with
  | [] => Ok false
  | p :: ps =>
      match startswith v p with
      | Raise e => Raise e
      | Ok true => Ok true
      | Ok false => anyStartswith v ps
      end
  end.

(** [first <= v <= last] for integers [first], [last]; Python 2 orders every
    number before every string. *)
Definition between (first last : Z) (v : pyval) : bool :=
  match v with
  | VInt z => (first <=? z)%Z && (z <=? last)%Z
  | VStr _ => false
  end.

Definition baumMatch (m : DeviceMatch.t) : result bool :=
  anyStartswith (DeviceMatch.id m)
    ["Baum SuperVario"; "Baum PocketVario"; "Baum SVario"; "HWG Brailliant";
     "Refreshabraille"; "VarioConnect"; "BrailleConnect"; "Pronto!";
     "VarioUltra"; "Orbit Reader 20"].

Definition brailleNoteMatch (m : DeviceMatch.t) : result bool :=
  if existsb (fun '(first, last) =>
                between first last
                  (default (VInt 0) (DeviceMatch.deviceInfo m !! "bluetoothAddress")))
             [(0x0025EC000000, 0x0025EC01869F)%Z]
  then Ok true
  else startswith (DeviceMatch.id m) "Braillenote".

Definition brailliantBMatch (m : DeviceMatch.t) : result bool :=
  match startswith (DeviceMatch.id m) "Brailliant B" with
  | Raise e => Raise e
  | Ok true => Ok true
  | Ok false => Ok (bool_decide (DeviceMatch.id m = VStr "Brailliant 80"))
  end.

Definition handyTechMatch (m : DeviceMatch.t) : result bool :=
  anyStartswith (DeviceMatch.id m)
    ["Actilino AL"; "Active Braille AB"; "Active Star AS"; "Basic Braille BB";
     "Braille Star BS"; "Braille Wave BW"; "Easy Braille EBR"].

Definition usbIds (l : list string) : gset pyval := list_to_set (VStr <$> l).

(** The two kinds of registration statement. *)
Inductive registration : Type :=
| RegUsb (driver type : string) (ids : gset pyval)
| RegBluetooth (driver : string) (matchFunc : DeviceMatch.t -> result bool).

Definition register (r : registration) (w : World) : result unit * World :=
  match r with
  | RegUsb driver type ids => addUsbDevices driver type ids w
  | RegBluetooth driver matchFunc => addBluetoothDevices driver matchFunc w
  end.

(** Statements run one after the other; an exception ends the run. *)
Fixpoint runAll (stmts : list registration) (w : World) : result unit * World :=
  match stmts with
  | [] => (Ok tt, w)
  | s :: rest =>
      match register s w with
      | (Ok _, w1) => runAll rest w1
      | (Raise e, w1) => (Raise e, w1)
      end
  end.

Definition detectionData : list registration :=
  [ RegUsb "baum" KEY_HID (usbIds
      ["VID_0904&PID_3001"; "VID_0904&PID_6101"; "VID_0904&PID_6103";
       "VID_0904&PID_6102"; "VID_0904&PID_4004"; "VID_0904&PID_4005";
       "VID_0904&PID_4007"; "VID_0904&PID_4008"; "VID_0904&PID_6001";
       "VID_0904&PID_6002"; "VID_0904&PID_6003"; "VID_0904&PID_6004";
       "VID_0904&PID_6005"; "VID_0904&PID_6006"; "VID_0904&PID_6007";
       "VID_0904&PID_6008"; "VID_0904&PID_6009"; "VID_0904&PID_600A";
       "VID_0904&PID_6201"; "VID_0483&PID_A1D3"]);
    RegUsb "baum" KEY_SERIAL (usbIds
      ["VID_0403&PID_FE70"; "VID_0403&PID_FE71"; "VID_0403&PID_FE72";
       "VID_0403&PID_FE73"; "VID_0403&PID_FE74"; "VID_0403&PID_FE75";
       "VID_0904&PID_2001"; "VID_0904&PID_2002"; "VID_0904&PID_2007";
       "VID_0904&PID_2008"; "VID_0904&PID_2009"; "VID_0904&PID_2010";
       "VID_0904&PID_2011"; "VID_0904&PID_2014"; "VID_0904&PID_2015";
       "VID_0904&PID_2016"; "VID_0904&PID_3000"]);
    RegBluetooth "baum" baumMatch;
    RegUsb "brailleNote" KEY_SERIAL (usbIds ["VID_1C71&PID_C004"]);
    RegBluetooth "brailleNote" brailleNoteMatch;
    RegUsb "brailliantB" KEY_HID (usbIds ["VID_1C71&PID_C006"]);
    RegUsb "brailliantB" KEY_CUSTOM (usbIds ["VID_1C71&PID_C005"]);
    RegBluetooth "brailliantB" brailliantBMatch;
    RegUsb "handyTech" KEY_SERIAL (usbIds
      ["VID_0403&PID_6001"; "VID_0921&PID_1200"]);
    RegUsb "handyTech" KEY_HID (usbIds
      ["VID_1FE4&PID_0054"; "VID_1FE4&PID_0081"; "VID_1FE4&PID_0082";
       "VID_1FE4&PID_0083"; "VID_1FE4&PID_0084"; "VID_1FE4&PID_008A";
       "VID_1FE4&PID_0086"; "VID_1FE4&PID_0087"; "VID_1FE4&PID_008B";
       "VID_1FE4&PID_0061"; "VID_1FE4&PID_0064"]);
    RegUsb "handyTech" KEY_HID (usbIds
      ["VID_1FE4&PID_0003"; "VID_1FE4&PID_0074"; "VID_1FE4&PID_0044"]);
    RegBluetooth "handyTech" handyTechMatch;
    RegUsb "superBrl" KEY_SERIAL (usbIds ["VID_10C4&PID_EA60"]) ].

(** The world when the module body starts to run. *)
Definition emptyWorld : World := mkWorld ∅ 0 [] ∅ 0 None.

(** The world after the module has been imported. *)
Definition importedWorld : World := snd (runAll detectionData emptyWorld).

(** ** Vocabulary: generators *)

(** What a generator yields, and how it ends, up to its next step that needs
    the world.  For a [pure] generator this is all of it. *)
Fixpoint items {A} (g : gen A) : list A :=
  match g with
  | GYield a k => a :: items k
  | _ => []
  end.

Fixpoint ending {A} (g : gen A) : option exn :=
  match g with
  | GYield _ k => ending k
  | GRaise e => Some e
  | _ => None
  end.

Fixpoint pure {A} (g : gen A) : Prop :=
  match g with
  | GStop | GRaise _ => True
  | GYield _ k => pure k
  | GStep _ _ => False
  end.

(** Results of [drain] with more items in front. *)
Definition prepend {A} (xs : list A) (r : list A * option exn * World)
    : list A * option exn * World :=
  let '(ys, fin, w) := r in (xs ++ ys, fin, w).

(** Every step of the generator that needs the world changes it within
    [R], now and after any number of yields. *)
Fixpoint steps {A} (R : World -> World -> Prop) (g : gen A) : Prop :=
  match g with
  | GStop | GRaise _ => True
  | GYield _ k => steps R k
  | GStep act k => (∀ w, R w (act w)) ∧ (∀ w, steps R (k w))
  end.

(** [n] calls of [next] on a generator. *)
Fixpoint advance {A} (n : nat) (g : gen A) (w : World) : gen A * World :=
  match n with
  | 0 => (g, w)
  | S n' => let '(_, g', w') := next g w in advance n' g' w'
  end.

(** ** Vocabulary: the registry *)

(** A match function is only ever stored under [KEY_BLUETOOTH]. *)
Definition wfRegistry (reg : Registry) : Prop :=
  ∀ driver (devs : Devs) key f,
    reg !! driver = Some devs → devs !! key = Some (MatchFunc f) → key = KEY_BLUETOOTH.

(** [driver] has all of [ids] registered under [kind]. *)
Definition registered (reg : Registry) (driver kind : string) (ids : gset pyval) : Prop :=
  ∃ (devs : Devs) stored,
    reg !! driver = Some devs ∧ devs !! kind = Some (Ids stored) ∧ ids ⊆ stored.

(** When the devices of a driver match a record. *)
Definition usbMatches (reg : Registry) (driver : string) (m : DeviceMatch.t) : Prop :=
  ∃ (devs : Devs) s,
    reg !! driver = Some devs ∧ devs !! DeviceMatch.type m = Some (Ids s)
    ∧ DeviceMatch.id m ∈ s.

(** The match function a driver has registered, if any. *)
Definition btPredicate (reg : Registry) (driver : string)
    : option (DeviceMatch.t -> result bool) :=
  match reg !! driver with
  | Some devs =>
      match devs !! KEY_BLUETOOTH with
      | Some (MatchFunc f) => Some f
      | _ => None
      end
  | None => None
  end.

(** Whether the dict of [driver] has a value under [key]. *)
Definition hasKey (reg : Registry) (driver key : string) : bool :=
  match reg !! driver with
  | Some devs => bool_decide (is_Some (devs !! key))
  | None => false
  end.

(** What reads of [devs[KEY_BLUETOOTH]] can do to the registry: the dict of
    a driver is as before, or it had no value under [KEY_BLUETOOTH] and has
    the empty set there now. *)
Definition touched (reg reg' : Registry) : Prop :=
  ∀ d, reg' !! d = reg !! d
       ∨ ∃ devs : Devs, reg !! d = Some devs ∧ devs !! KEY_BLUETOOTH = None
                        ∧ reg' !! d = Some (<[KEY_BLUETOOTH := Ids ∅]> devs).

Definition sameRegistry (w w' : World) : Prop := registry w' = registry w.

Definition touchedRegistry (w w' : World) : Prop :=
  touched (registry w) (registry w').

(** Only the registry may differ. *)
Definition sameButRegistry (w w' : World) : Prop :=
  w' = set_registry (registry w') w.

Definition touchedWorld (w w' : World) : Prop :=
  sameButRegistry w w' ∧ touched (registry w) (registry w').

(** The reads [devs[KEY_BLUETOOTH]] made on the dicts of [drivers], one after
    the other. *)
Definition touchDrivers (drivers : list string) (w : World) : World :=
  foldl (fun w d => touchBluetooth d w) w drivers.

(** ** Vocabulary: matching *)

(** The test of the innermost loop, for one item of [devs.iteritems()]. *)
Definition hit (m : DeviceMatch.t) (x : string * entry) : bool :=
  String.eqb (DeviceMatch.type m) x.1 &&
  match x.2 with
  | Ids s => bool_decide (DeviceMatch.id m ∈ s)
  | MatchFunc _ => false
  end.

Fixpoint typeHits (m : DeviceMatch.t) (its : list (string * entry)) : nat :=
  match its with
  | [] => 0
  | x :: rest => (if hit m x then 1 else 0) + typeHits m rest
  end.

Definition usbPairs (m : DeviceMatch.t) (drivers : list (string * Devs))
    : list (string * DeviceMatch.t) :=
  flat_map (fun '(driver, devs) => replicate (typeHits m (map_to_list devs)) (driver, m))
           drivers.

(** The device stream that a USB matching function started in [w] works
    on, and the world once the three lists have been fetched. *)
Definition enumerated (env : Env) (w : World) : gen DeviceMatch.t :=
  usbDevs (listUsbDevices env (clock w)) (listHidDevices env (S (clock w)))
          (listComPorts env (S (S (clock w)))).

Definition afterUsbEnum (w : World) : World :=
  emit (EvListComPorts UsbMatching) (emit EvListHidDevices (emit EvListUsbDevices w)).

(** [m] is the record of a device that the hardware reports to a USB
    matching function started in [w]: a custom device, or a HID device or
    serial port with a [usbID]. *)
Definition reported (env : Env) (w : World) (m : DeviceMatch.t) : Prop :=
  let p := DeviceMatch.deviceInfo m in
  p !! "usbID" = Some (DeviceMatch.id m)
  ∧ (DeviceMatch.type m = KEY_CUSTOM ∧ p ∈ listUsbDevices env (clock w)
     ∧ p !! "devicePath" = Some (DeviceMatch.port m)
     ∨ DeviceMatch.type m = KEY_HID ∧ p ∈ listHidDevices env (S (clock w))
       ∧ p !! "devicePath" = Some (DeviceMatch.port m)
     ∨ DeviceMatch.type m = KEY_SERIAL ∧ p ∈ listComPorts env (S (S (clock w)))
       ∧ p !! "port" = Some (DeviceMatch.port m)).

(** A custom port from which a [DeviceMatch] can be built. *)
Definition customOk (p : Port) : Prop :=
  is_Some (p !! "usbID") ∧ is_Some (p !! "devicePath").

(** The records that Bluetooth matching started in [w] builds from the
    serial ports that carry a Bluetooth name. *)
Definition btRecords (env : Env) (w : World) : gen DeviceMatch.t :=
  genexp (contains "bluetoothName") (mkDeviceMatch KEY_SERIAL "bluetoothName" "port")
         (listComPorts env (clock w)).

(** One run of the driver loop of [getDriversForPossibleBluetoothDevices] for
    the record [m], without the world: the pairs it yields, how it ends, and
    the drivers whose dict it has read. *)
Fixpoint btInner (m : DeviceMatch.t) (drivers : list (string * Devs))
    : list (string * DeviceMatch.t) * option exn * list string :=
  match drivers with
  | [] => ([], None, [])
  | (d, devs) :: rest =>
      match fst (defaultdict_get devs KEY_BLUETOOTH) with
      | MatchFunc f =>
          match f m with
          | Raise e => ([], Some e, [d])
          | Ok b =>
              let '(ys, fin, vis) := btInner m rest in
              ((if b then [(d, m)] else []) ++ ys, fin, d :: vis)
          end
      | Ids _ => let '(ys, fin, vis) := btInner m rest in (ys, fin, d :: vis)
      end
  end.

(** ** Vocabulary: the log of a scan pass *)

(** The stop event was found set. *)
Definition cancelEvent (e : event) : bool :=
  match e with EvIsSet _ true => true | _ => false end.

(** An activation attempt returned true. *)
Definition successEvent (e : event) : bool :=
  match e with EvSetDisplayByName _ _ true => true | _ => false end.

(** The poll timer was armed. *)
Definition armEvent (e : event) : bool :=
  match e with EvSetWaitableTimer _ => true | _ => false end.

(** [getDriversForPossibleBluetoothDevices] fetched the serial ports. *)
Definition btEnumEvent (e : event) : bool :=
  match e with EvListComPorts BluetoothMatching => true | _ => false end.

(** None of the four: no cancellation seen, no success, no timer, no
    Bluetooth enumeration. *)
Definition calm (e : event) : bool :=
  negb (cancelEvent e || successEvent e || armEvent e || btEnumEvent e).

(** The events a scan pass adds to the log. *)
Definition newEvents (w w' : World) : list event := drop (length (log w)) (log w').

(** The candidates for which an activation was attempted, in order. *)
Fixpoint attempts (evs : list event) : list (string * DeviceMatch.t) :=
  match evs with
  | [] => []
  | EvSetDisplayByName d m _ :: rest => (d, m) :: attempts rest
  | _ :: rest => attempts rest
  end.

(** The events of candidates tried in vain: for each a check of the stop
    event, then the attempt. *)
Definition failed (ev : nat) (l : list (string * DeviceMatch.t)) : list event :=
  flat_map (fun '(d, m) => [EvIsSet ev false; EvSetDisplayByName d m false]) l.

(** Registry, timer and event counter are as before. *)
Definition frame (w w' : World) : Prop :=
  registry w' = registry w ∧ pollTimer w' = pollTimer w ∧ nextEvent w' = nextEvent w.

(** A step that changes neither registry nor timer nor the event counter, and
    logs calm events only. *)
Definition calmStep (w w' : World) : Prop :=
  registry w' = registry w ∧ pollTimer w' = pollTimer w
  ∧ nextEvent w' = nextEvent w
  ∧ ∃ evs, log w' = log w ++ evs ∧ forallb calm evs = true.

(** A step that logs no activation attempt. *)
Definition noAttemptStep (w w' : World) : Prop :=
  ∃ evs, log w' = log w ++ evs ∧ attempts evs = [].

(** The candidates that USB matching yields to a pass started in [w], when
    run to its end after the first check of the stop event; none for a pass
    without USB part. *)
Definition usbFound (env : Env) (self : Detector) (w : World)
    : list (string * DeviceMatch.t) :=
  if _detectUsb self
  then (drain (getDriversForConnectedUsbDevices env)
              (isSet env (_stopEvent self) w).2).1.1
  else [].

(** The world in which the Bluetooth part of a pass started in [w] begins,
    if the pass gets there. *)
Definition afterUsbPart (env : Env) (self : Detector) (w : World) : World :=
  if _detectUsb self then (usbPass env (_stopEvent self) w).2 else w.

(** How the part under [if usb:] is left; a pass without it runs on. *)
Definition usbExit (env : Env) (self : Detector) (w : World) : loopExit :=
  if _detectUsb self then (usbPass env (_stopEvent self) w).1 else LFallThrough.

(** The candidates of the Bluetooth part of a pass started in [w]: the
    cache, or without one what Bluetooth matching yields after the first
    check of the stop event. *)
Definition candidates (env : Env) (ev : nat) (self : Detector) (w : World)
    : list (string * DeviceMatch.t) :=
  match _btComs self with
  | Some c => c
  | None => (drain (getDriversForPossibleBluetoothDevices env) (isSet env ev w).2).1.1
  end.

(** How the part of a pass under [if usb:] can go, with the events it logs. *)
Inductive UsbShape (ev : nat) : loopExit -> list event -> Prop :=
| UsbCancelled pre :
    forallb calm pre = true → UsbShape ev LReturn (pre ++ [EvIsSet ev true])
| UsbActivated pre d m :
    forallb calm pre = true → UsbShape ev LReturn (pre ++ [EvSetDisplayByName d m true])
| UsbRaised e evs : forallb calm evs = true → UsbShape ev (LRaise e) evs
| UsbExhausted evs : forallb calm evs = true → UsbShape ev LFallThrough evs.

(** How the loop over [btComs] can end other than by [return]: every
    candidate was tried in vain, or the last one tried was activated.
    [tried] are the candidates the loop got to. *)
Inductive LoopDone (ev : nat) (btComs : list (string * DeviceMatch.t))
    : list (string * DeviceMatch.t) -> list event -> Prop :=
| LoopExhausted : LoopDone ev btComs btComs (failed ev btComs)
| LoopBroken pre d m rest :
    btComs = pre ++ (d, m) :: rest →
    LoopDone ev btComs (pre ++ [(d, m)])
      (failed ev pre ++ [EvIsSet ev false; EvSetDisplayByName d m true]).

(** The events of the Bluetooth enumeration, made when there is no cache. *)
Definition enumEvents (old : option (list (string * DeviceMatch.t))) : list event :=
  match old with
  | None => [EvListComPorts BluetoothMatching]
  | Some _ => []
  end.

(** How the part of a pass under [if bluetooth:] can go.  [old] is
    [self._btComs] at the start and [btComs] the candidates of the pass; the
    shape gives the result, [self._btComs] at the end, whether the timer was
    armed, and the events logged. *)
Inductive BtShape (ev : nat) (old : option (list (string * DeviceMatch.t)))
    (btComs : list (string * DeviceMatch.t))
    : result unit -> option (list (string * DeviceMatch.t)) -> bool -> list event -> Prop :=
| BtCancelledAtStart : BtShape ev old btComs (Ok tt) old false [EvIsSet ev true]
| BtEnumRaised e :
    old = None →
    BtShape ev old btComs (Raise e) old false
      [EvIsSet ev false; EvListComPorts BluetoothMatching]
| BtCancelledInLoop tried rest :
    btComs = tried ++ rest → rest ≠ [] →
    BtShape ev old btComs (Ok tt) old false
      ([EvIsSet ev false] ++ enumEvents old ++ failed ev tried ++ [EvIsSet ev true])
| BtCancelledAfterLoop tried loopEvs :
    LoopDone ev btComs tried loopEvs →
    BtShape ev old btComs (Ok tt) old false
      ([EvIsSet ev false] ++ enumEvents old ++ loopEvs ++ [EvIsSet ev true])
| BtFinishedEmpty tried loopEvs :
    LoopDone ev btComs tried loopEvs →
    match old with None => tried | Some c => c end = [] →
    BtShape ev old btComs (Ok tt) (Some []) false
      ([EvIsSet ev false] ++ enumEvents old ++ loopEvs ++ [EvIsSet ev false])
| BtFinishedArmed tried loopEvs cache :
    LoopDone ev btComs tried loopEvs →
    match old with None => tried | Some c => c end = cache → cache ≠ [] →
    BtShape ev old btComs (Ok tt) (Some cache) true
      ([EvIsSet ev false] ++ enumEvents old ++ loopEvs
       ++ [EvIsSet ev false; EvSetWaitableTimer POLL_INTERVAL]).

(** The Detector and the timer at the end of the Bluetooth part of a pass,
    given the cache it leaves and whether it armed the timer. *)
Definition afterPass (self : Detector) (w : World)
    (cache : option (list (string * DeviceMatch.t))) (armed : bool)
    (self' : Detector) (w' : World) : Prop :=
  if armed then
    self' = mkDetector cache (_pollTimerHandle self) false true (nextEvent w)
    ∧ pollTimer w' = Some POLL_INTERVAL
  else self' = set_btComs cache self ∧ pollTimer w' = pollTimer w.

(** The waitable timer elapses: it is one-shot, so it is no longer pending
    when its APC, [_bgScan], runs. *)
Definition pollTimerElapsed (env : Env) (self : Detector) (w : World)
    : option (result unit * Detector * World) :=
  match pollTimer w with
  | Some _ => Some (_bgScan env self (set_pollTimer None w))
  | None => None
  end.

(** Whether the cache of the Detector holds at least one candidate. *)
Definition cacheNonEmpty (self : Detector) : bool :=
  match _btComs self with
  | Some (_ :: _) => true
  | _ => false
  end.

(** ** Scenarios *)

(** A driver name that nobody registers. *)
Definition unknownDriver : string := "noSuchDriver".

(** A RefreshaBraille 18 on USB, as [listHidDevices] reports it. *)
Definition hidBaum : Port :=
  {[ "usbID" := VStr "VID_0904&PID_3001";
     "devicePath" := VStr "hid#vid_0904&pid_3001" ]}.

Definition hidBaumMatch : DeviceMatch.t :=
  DeviceMatch KEY_HID (VStr "VID_0904&PID_3001") (VStr "hid#vid_0904&pid_3001") hidBaum.

(** An environment in which [listUsbDevices] reports a device without
    [usbID], after which a HID device follows. *)
Definition customNoId : Port := {[ "devicePath" := VStr "usb#unknown" ]}.

(** A paired Brailliant, as [listComPorts] reports its serial port. *)
Definition comBrailliant : Port :=
  {[ "bluetoothName" := VStr "Brailliant B80";
     "bluetoothAddress" := VInt 1234;
     "port" := VStr "COM5" ]}.

Definition btBrailliantMatch : DeviceMatch.t :=
  DeviceMatch KEY_SERIAL (VStr "Brailliant B80") (VStr "COM5") comBrailliant.

(** A paired VarioUltra next to the Brailliant. *)
Definition comBaum : Port :=
  {[ "bluetoothName" := VStr "VarioUltra 40"; "port" := VStr "COM6" ]}.

(** An environment with that single device, in which nobody cancels a scan
    and the handler accepts what it is offered. *)
Definition envOneHid : Env :=
  {| listUsbDevices := fun _ => [];
     listHidDevices := fun _ => [hidBaum];
     listComPorts := fun _ => [];
     setDisplayByName := fun _ _ _ => true;
     foreignSet := fun _ => false;
     cancelWaitableTimer := fun _ => true;
     createWaitableTimer := fun _ => 1%Z |}.

Definition envCustomNoId : Env :=
  {| listUsbDevices := fun _ => [customNoId];
     listHidDevices := fun _ => [hidBaum];
     listComPorts := fun _ => [];
     setDisplayByName := fun _ _ _ => true;
     foreignSet := fun _ => false;
     cancelWaitableTimer := fun _ => true;
     createWaitableTimer := fun _ => 1%Z |}.

(** An environment with that single port; the handler refuses every
    display and nobody cancels. *)
Definition envBluetooth : Env :=
  {| listUsbDevices := fun _ => [];
     listHidDevices := fun _ => [];
     listComPorts := fun _ => [comBrailliant];
     setDisplayByName := fun _ _ _ => false;
     foreignSet := fun _ => false;
     cancelWaitableTimer := fun _ => true;
     createWaitableTimer := fun _ => 1%Z |}.

(** Like [envBluetooth], but the handler accepts the display. *)
Definition envBluetoothAccepts : Env :=
  {| listUsbDevices := fun _ => [];
     listHidDevices := fun _ => [];
     listComPorts := fun _ => [comBrailliant];
     setDisplayByName := fun _ _ _ => true;
     foreignSet := fun _ => false;
     cancelWaitableTimer := fun _ => true;
     createWaitableTimer := fun _ => 1%Z |}.

(** Like [envBluetooth], but another thread sets the stop event while the
    timer-triggered second pass tries its only candidate. *)
Definition envCancelLate : Env :=
  {| listUsbDevices := fun _ => [];
     listHidDevices := fun _ => [];
     listComPorts := fun _ => [comBrailliant];
     setDisplayByName := fun _ _ _ => false;
     foreignSet := fun t => Nat.leb 14 t;
     cancelWaitableTimer := fun _ => true;
     createWaitableTimer := fun _ => 1%Z |}.

(** Two paired displays, none accepted; the stop event is set by another
    thread while the first is tried. *)
Definition envTwoBluetoothCancel : Env :=
  {| listUsbDevices := fun _ => [];
     listHidDevices := fun _ => [];
     listComPorts := fun _ => [comBrailliant; comBaum];
     setDisplayByName := fun _ _ _ => false;
     foreignSet := fun t => Nat.leb 9 t;
     cancelWaitableTimer := fun _ => true;
     createWaitableTimer := fun _ => 1%Z |}.

(** The Detector right after [__init__], in the world after the import. *)
Definition newDetector (env : Env) : Detector := (__init__ env importedWorld).1.

Definition startWorld (env : Env) : World := (__init__ env importedWorld).2.

(** The Detector and the world after the first pass in [env]. *)
Definition firstPass (env : Env) : result unit * Detector * World :=
  _bgScan env (newDetector env) (startWorld env).

(** * Further definitions

    Vocabulary and scenarios for the properties of the code around the
    matching functions and the scan pass: registration, the methods of the
    Detector, the order of activation attempts. *)

(** ** Vocabulary: entries of the registry *)

(** [_driverDevices[driver][key]] without the side effect of a
    [defaultdict]: what is stored, if anything. *)
Definition entryOf (reg : Registry) (driver key : string) : option entry :=
  match reg !! driver with
  | Some devs => devs !! key
  | None => None
  end.

(** The ids stored for a driver under a kind; none when nothing, or a match
    function, is stored there. *)
Definition idsOf (reg : Registry) (driver key : string) : gset pyval :=
  match entryOf reg driver key with
  | Some (Ids s) => s
  | _ => ∅
  end.

(** Whether the ids a driver has under the kind of [m] contain the id of
    [m]. *)
Definition usbMatchb (reg : Registry) (driver : string) (m : DeviceMatch.t) : bool :=
  match entryOf reg driver (DeviceMatch.type m) with
  | Some (Ids s) => bool_decide (DeviceMatch.id m ∈ s)
  | _ => false
  end.

(** ** Vocabulary: faulty port records *)

(** The hardware reports, to a USB matching function started in [w], a port
    from which no record can be built: a custom device without [usbID] or
    [devicePath], or a HID device or serial port that has a [usbID] but
    lacks [devicePath], respectively [port]. *)
Definition faultyUsbPort (env : Env) (w : World) : Prop :=
  (∃ p : Port, p ∈ listUsbDevices env (clock w) ∧ ¬ customOk p)
  ∨ (∃ p : Port, p ∈ listHidDevices env (S (clock w))
                 ∧ is_Some (p !! "usbID") ∧ p !! "devicePath" = None)
  ∨ (∃ p : Port, p ∈ listComPorts env (S (S (clock w)))
                 ∧ is_Some (p !! "usbID") ∧ p !! "port" = None).

(** The names of the registered drivers, in the order of
    [_driverDevices.iteritems()]. *)
Definition driverNames (reg : Registry) : list string := (map_to_list reg).*1.

(** ** Vocabulary: the first item of a generator *)

(** [bool(next(g, None))] for the result of [next(g)]: an item is true, the
    default false, an exception goes on. *)
Definition firstOutcome {A} (r : nextResult A) : result bool :=
  match r with
  | Yielded _ => Ok true
  | StopIteration => Ok false
  | Raised e => Raise e
  end.

(** The same for a generator that needs the world no more, from what it
    yields and how it ends. *)
Definition pureOutcome {A} (g : gen A) : result bool :=
  match items g, ending g with
  | _ :: _, _ => Ok true
  | [], None => Ok false
  | [], Some e => Raise e
  end.

(** ** Vocabulary: Bluetooth matching *)

(** [if matchFunc(match)] is taken. *)
Definition accepts (f : DeviceMatch.t -> result bool) (m : DeviceMatch.t) : bool :=
  match f m with
  | Ok true => true
  | _ => false
  end.

(** The serial ports listed at time [t] have one with a Bluetooth name
    but without [port]. *)
Definition faultyBluetoothPort (env : Env) (t : nat) : Prop :=
  ∃ p : Port, p ∈ listComPorts env t
              ∧ is_Some (p !! "bluetoothName") ∧ p !! "port" = None.

(** ** Further scenarios *)

(** A serial port with a Bluetooth name for which no port name is known. *)
Definition comNoPort : Port := {[ "bluetoothName" := VStr "Brailliant B40" ]}.

(** The paired Brailliant, followed by that port. *)
Definition envFaultyBluetooth : Env :=
  {| listUsbDevices := fun _ => [];
     listHidDevices := fun _ => [];
     listComPorts := fun _ => [comBrailliant; comNoPort];
     setDisplayByName := fun _ _ _ => false;
     foreignSet := fun _ => false;
     cancelWaitableTimer := fun _ => true;
     createWaitableTimer := fun _ => 1%Z |}.

(** ** Vocabulary: a run of registration statements *)

(** The ids that the [addUsbDevices] statements among [stmts] give for
    [driver] and [kind]. *)
Fixpoint usbUnion (driver kind : string) (stmts : list registration) : gset pyval :=
  match stmts with
  | [] => ∅
  | RegUsb d k ids :: rest =>
      (if decide (d = driver ∧ k = kind) then ids else ∅) ∪ usbUnion driver kind rest
  | RegBluetooth _ _ :: rest => usbUnion driver kind rest
  end.

(** The match function of the last [addBluetoothDevices] statement for
    [driver] among [stmts]. *)
Fixpoint lastBluetooth (driver : string) (stmts : list registration)
    : option (DeviceMatch.t -> result bool) :=
  match stmts with
  | [] => None
  | RegBluetooth d f :: rest =>
      match lastBluetooth driver rest with
      | Some g => Some g
      | None => if decide (d = driver) then Some f else None
      end
  | RegUsb _ _ _ :: rest => lastBluetooth driver rest
  end.

(** ** Vocabulary: stopping a scan *)

(** [_stopBgScan] started in [w] raises: there is a timer handle and
    [CancelWaitableTimer], called after the stop event has been set,
    fails. *)
Definition cancelFails (env : Env) (self : Detector) (w : World) : bool :=
  bool_decide (_pollTimerHandle self ≠ 0%Z) && negb (cancelWaitableTimer env (S (clock w))).

(** A scan was queued to run at once. *)
Definition queueEvent (e : event) : bool :=
  match e with EvQueueApc => true | _ => false end.

(** The timer handle was closed. *)
Definition closeEvent (e : event) : bool :=
  match e with EvCloseHandle => true | _ => false end.

(** Like [envBluetooth], but [CancelWaitableTimer] fails. *)
Definition envCancelFails : Env :=
  {| listUsbDevices := fun _ => [];
     listHidDevices := fun _ => [];
     listComPorts := fun _ => [comBrailliant];
     setDisplayByName := fun _ _ _ => false;
     foreignSet := fun _ => false;
     cancelWaitableTimer := fun _ => false;
     createWaitableTimer := fun _ => 1%Z |}.

(** ** Vocabulary: generators that only read the registry *)

(** Every step of the generator leaves the world as it is and goes on in
    the same way in all worlds with the same registry, now and after any
    number of yields. *)
Fixpoint readsRegistry {A} (g : gen A) : Prop :=
  match g with
  | GStop | GRaise _ => True
  | GYield _ k => readsRegistry k
  | GStep act k =>
      (∀ w, act w = w)
      ∧ (∀ w w', registry w = registry w' → k w = k w')
      ∧ ∀ w, readsRegistry (k w)
  end.

(** An environment in which USB matching raises: a custom device without
    [usbID], and a handler that refuses every display. *)
Definition envRaising : Env :=
  {| listUsbDevices := fun _ => [customNoId];
     listHidDevices := fun _ => [];
     listComPorts := fun _ => [comBrailliant];
     setDisplayByName := fun _ _ _ => false;
     foreignSet := fun _ => false;
     cancelWaitableTimer := fun _ => true;
     createWaitableTimer := fun _ => 1%Z |}.

(** ** Vocabulary: polling *)

(** [n] expirations of the poll timer, each with the pass it triggers;
    nothing when the timer is not pending at one of them, or a pass
    raises. *)
Fixpoint polls (env : Env) (n : nat) (self : Detector) (w : World)
    : option (Detector * World) :=
  match n with
  | 0 => Some (self, w)
  | S n' =>
      match pollTimerElapsed env self w with
      | Some (Ok _, self1, w1) => polls env n' self1 w1
      | _ => None
      end
  end.

(** Every stop event that has been set was created before: event objects
    are numbered in the order of their creation. *)
Definition eventsFresh (w : World) : Prop := ∀ e, e ∈ stopSet w → e < nextEvent w.

(** The handler refuses every display. *)
Definition nothingConnects (env : Env) : Prop := ∀ t d m, setDisplayByName env t d m = false.

(** No other thread sets a stop event. *)
Definition nobodyCancels (env : Env) : Prop := ∀ t, foreignSet env t = false.

(** ** Vocabulary: stop events *)

(** No stop event was set and none created. *)
Definition sameStops (w w' : World) : Prop :=
  stopSet w' = stopSet w ∧ nextEvent w' = nextEvent w.

(** No stop event other than [ev] was set; events may have been created. *)
Definition ownStop (ev : nat) (w w' : World) : Prop :=
  stopSet w' ⊆ {[ev]} ∪ stopSet w ∧ (nextEvent w ≤ nextEvent w')%nat.

(** The stop event of the Detector has been created, and so has every stop
    event that is set. *)
Definition eventsOk (self : Detector) (w : World) : Prop :=
  _stopEvent self < nextEvent w ∧ eventsFresh w.

(** ** Vocabulary: reads of [devs[KEY_BLUETOOTH]] *)

(** The dict of a driver after [devs[KEY_BLUETOOTH]] has been read. *)
Definition afterRead (devs : Devs) : Devs := snd (defaultdict_get devs KEY_BLUETOOTH).

(** ** Vocabulary: what a query may do *)

(** A call of one of the [list*] functions of [hwPortUtils]. *)
Definition listEvent (e : event) : bool :=
  match e with
  | EvListUsbDevices | EvListHidDevices | EvListComPorts _ => true
  | _ => false
  end.

(** Timer and stop events are as before, and the only external calls made
    are calls of the [list*] functions. *)
Definition queryStep (w w' : World) : Prop :=
  pollTimer w' = pollTimer w ∧ stopSet w' = stopSet w ∧ nextEvent w' = nextEvent w
  ∧ ∃ evs, log w' = log w ++ evs ∧ forallb listEvent evs = true.

(** The port without port name, followed by the paired Brailliant. *)
Definition envFaultyFirst : Env :=
  {| listUsbDevices := fun _ => [];
     listHidDevices := fun _ => [];
     listComPorts := fun _ => [comNoPort; comBrailliant];
     setDisplayByName := fun _ _ _ => false;
     foreignSet := fun _ => false;
     cancelWaitableTimer := fun _ => true;
     createWaitableTimer := fun _ => 1%Z |}.

(** * Properties *)

(** ** Generators that do not touch the world *)

Lemma prepend_nil {A} (r : list A * option exn * World) : prepend [] r = r.
Proof. by destruct r as [[ys fin] w]. Qed.

Lemma prepend_prepend {A} (xs ys : list A) r :
  prepend xs (prepend ys r) = prepend (xs ++ ys) r.
Proof. destruct r as [[zs fin] w]. simpl. by rewrite app_assoc. Qed.

Lemma drain_yield {A} (a : A) k w : drain (GYield a k) w = prepend [a] (drain k w).
Proof. simpl. by destruct (drain k w) as [[ys fin] w']. Qed.

Lemma drain_pure {A} (g : gen A) w : pure g → drain g w = (items g, ending g, w).
Proof.
  induction g as [| e | a k IH | act k IH]; simpl; intros Hp; try done.
  by rewrite IH.
Qed.

Lemma pure_chain {A} (g1 g2 : gen A) : pure g1 → pure g2 → pure (chain g1 g2).
Proof. induction g1; simpl; auto; done. Qed.

Lemma items_chain {A} (g1 g2 : gen A) :
  pure g1 →
  items (chain g1 g2)
  = items g1 ++ match ending g1 with Some _ => [] | None => items g2 end.
Proof.
  induction g1 as [| e | a k IH | act k IH]; simpl; intros Hp; try done.
  by rewrite IH.
Qed.

Lemma ending_chain {A} (g1 g2 : gen A) :
  pure g1 →
  ending (chain g1 g2) = match ending g1 with Some e => Some e | None => ending g2 end.
Proof. induction g1; simpl; intros Hp; auto; done. Qed.

Lemma pure_genexp {A} guard (elt : Port → result A) ports : pure (genexp guard elt ports).
Proof.
  induction ports as [| p ps IH]; simpl; [done |].
  destruct (guard p); [| done]. by destruct (elt p).
Qed.

Lemma pure_usbDevs usb hid com : pure (usbDevs usb hid com).
Proof. unfold usbDevs. auto using pure_chain, pure_genexp. Qed.

(** Every item of a generator expression comes from a port that passed the
    guard. *)
Lemma elem_of_items_genexp {A} guard (elt : Port → result A) ports a :
  a ∈ items (genexp guard elt ports) →
  ∃ p, p ∈ ports ∧ guard p = true ∧ elt p = Ok a.
Proof.
  induction ports as [| p ps IH]; simpl; [by intros ?%elem_of_nil |].
  destruct (guard p) eqn:Hg.
  - destruct (elt p) as [b | e] eqn:He; simpl.
    + intros [-> | Hin]%elem_of_cons.
      * exists p. split; [left |]; done.
      * destruct (IH Hin) as (q & ? & ? & ?). exists q. split; [by right | done].
    + by intros ?%elem_of_nil.
  - intros Hin. destruct (IH Hin) as (q & ? & ? & ?). exists q.
    split; [by right | done].
Qed.

(** Without an exception, every port that passes the guard gives an item. *)
Lemma items_genexp_complete {A} guard (elt : Port → result A) ports p a :
  ending (genexp guard elt ports) = None →
  p ∈ ports → guard p = true → elt p = Ok a →
  a ∈ items (genexp guard elt ports).
Proof.
  induction ports as [| q qs IH]; simpl; [by intros _ ?%elem_of_nil |].
  intros Hend Hin Hg He.
  destruct (guard q) eqn:Hgq.
  - destruct (elt q) as [b | e] eqn:Heq; simpl in *; [| done].
    apply elem_of_cons in Hin as [<- | Hin].
    + rewrite He in Heq. injection Heq as ->. left.
    + right. by apply IH.
  - apply elem_of_cons in Hin as [<- | Hin]; [congruence |]. by apply IH.
Qed.

Lemma mkDeviceMatch_type kind idKey portKey p m :
  mkDeviceMatch kind idKey portKey p = Ok m → DeviceMatch.type m = kind.
Proof.
  unfold mkDeviceMatch.
  destruct (subscript p idKey); [| done]. destruct (subscript p portKey); [| done].
  by intros [= <-].
Qed.

(** The records of the USB device stream are of kind custom, hid or
    serial. *)
Lemma usbDevs_type usb hid com m :
  m ∈ items (usbDevs usb hid com) →
  DeviceMatch.type m = KEY_CUSTOM ∨ DeviceMatch.type m = KEY_HID
  ∨ DeviceMatch.type m = KEY_SERIAL.
Proof.
  unfold usbDevs. rewrite !items_chain by auto using pure_genexp.
  intros [H | H]%elem_of_app.
  - apply elem_of_items_genexp in H as (p & _ & _ & H).
    left. by eapply mkDeviceMatch_type.
  - destruct (ending (genexp _ _ usb)); [by apply elem_of_nil in H |].
    apply elem_of_app in H as [H | H].
    + apply elem_of_items_genexp in H as (p & _ & _ & H).
      right; left. by eapply mkDeviceMatch_type.
    + destruct (ending (genexp _ _ hid)); [by apply elem_of_nil in H |].
      apply elem_of_items_genexp in H as (p & _ & _ & H).
      right; right. by eapply mkDeviceMatch_type.
Qed.

(** ** USB matching *)

Lemma drain_typesLoop {B} (y : B) m its rest w :
  (∀ f, (DeviceMatch.type m, MatchFunc f) ∉ its) →
  drain (typesLoop y m its rest) w = prepend (replicate (typeHits m its) y) (drain rest w).
Proof.
  unfold typesLoop, for_list.
  induction its as [| [t e] its IH]; intros Hno.
  - cbn. by rewrite prepend_nil.
  - assert (Hno' : ∀ f, (DeviceMatch.type m, MatchFunc f) ∉ its).
    { intros f Hin. apply (Hno f). by right. }
    cbn [foldr typeHits]. unfold hit; cbn [fst snd].
    destruct (String.eqb (DeviceMatch.type m) t) eqn:Heq; cbn [andb]; [| by apply IH].
    apply String.eqb_eq in Heq as <-.
    destruct e as [s | f].
    + case_bool_decide; [| by apply IH].
      rewrite drain_yield, IH by done. by rewrite prepend_prepend.
    + exfalso. apply (Hno f). left.
Qed.

Lemma typeHits_pos m its :
  0 < typeHits m its ↔
  ∃ s, (DeviceMatch.type m, Ids s) ∈ its ∧ DeviceMatch.id m ∈ s.
Proof.
  induction its as [| [t e] its IH]; simpl.
  - split; [lia | by intros (? & ?%elem_of_nil & _)].
  - split.
    + destruct (hit m (t, e)) eqn:Hh.
      * intros _. unfold hit in Hh; simpl in Hh.
        apply andb_true_iff in Hh as [Ht He]. apply String.eqb_eq in Ht as <-.
        destruct e as [s | f]; [| done]. apply bool_decide_eq_true in He.
        exists s. split; [left | done].
      * intros H. simpl in H. apply IH in H as (s & ? & ?).
        exists s. split; [by right | done].
    + intros (s & [Heq | Hin]%elem_of_cons & Hs).
      * injection Heq as <- <-. unfold hit; simpl.
        rewrite String.eqb_refl, bool_decide_eq_true_2 by done. simpl. lia.
      * assert (0 < typeHits m its) by (apply IH; eauto). lia.
Qed.

Lemma typeHits_devs m (devs : Devs) :
  0 < typeHits m (map_to_list devs) ↔
  ∃ s, devs !! DeviceMatch.type m = Some (Ids s) ∧ DeviceMatch.id m ∈ s.
Proof.
  rewrite typeHits_pos. split; intros (s & H & ?); exists s; split; try done.
  - by apply elem_of_map_to_list in H.
  - by apply elem_of_map_to_list.
Qed.

Lemma elem_of_replicate_self {A} n (x y : A) : y ∈ replicate n x ↔ y = x ∧ 0 < n.
Proof.
  rewrite elem_of_replicate. split; intros [? ?]; split; try done; lia.
Qed.

Lemma elem_of_usbPairs m (reg : Registry) driver m' :
  (driver, m') ∈ usbPairs m (map_to_list reg) ↔ m' = m ∧ usbMatches reg driver m.
Proof.
  unfold usbPairs. rewrite list_elem_of_In, in_flat_map. split.
  - intros ([d devs] & Hin & Hr). apply list_elem_of_In in Hin, Hr.
    apply elem_of_map_to_list in Hin.
    apply elem_of_replicate_self in Hr as [[= -> ->] Hpos].
    apply typeHits_devs in Hpos as (s & ? & ?). split; [done |]. by exists devs, s.
  - intros [-> (devs & s & Hd & Hk & Hs)]. exists (driver, devs). split.
    + apply list_elem_of_In. by apply elem_of_map_to_list.
    + apply list_elem_of_In, elem_of_replicate_self. split; [done |].
      apply typeHits_devs. eauto.
Qed.

Lemma drain_usbDriversLoop m drivers rest w :
  (∀ d (devs : Devs) f, (d, devs) ∈ drivers →
     devs !! DeviceMatch.type m ≠ Some (MatchFunc f)) →
  drain (usbDriversLoop m drivers rest) w = prepend (usbPairs m drivers) (drain rest w).
Proof.
  unfold usbDriversLoop, usbPairs, for_list.
  induction drivers as [| [d devs] drivers IH]; intros Hno.
  - cbn. by rewrite prepend_nil.
  - cbn [foldr flat_map]. rewrite drain_typesLoop.
    + rewrite IH; [by rewrite prepend_prepend |].
      intros d' devs' f Hin. apply (Hno d'). by right.
    + intros f Hin%elem_of_map_to_list. apply (Hno d devs f); [left | done].
Qed.

Lemma wf_no_matchfunc reg d (devs : Devs) m f :
  wfRegistry reg → reg !! d = Some devs →
  DeviceMatch.type m ≠ KEY_BLUETOOTH →
  devs !! DeviceMatch.type m ≠ Some (MatchFunc f).
Proof. intros Hwf Hd Hne Hk. apply Hne. by eapply Hwf. Qed.

Lemma drain_usb_pairs devices w :
  pure devices → wfRegistry (registry w) →
  (∀ m, m ∈ items devices → DeviceMatch.type m ≠ KEY_BLUETOOTH) →
  drain (for_gen devices (fun m rest =>
           GStep (fun w => w) (fun w =>
             usbDriversLoop m (map_to_list (registry w)) rest))) w
  = (flat_map (fun m => usbPairs m (map_to_list (registry w))) (items devices),
     ending devices, w).
Proof.
  intros Hp Hwf. induction devices as [| e | m k IH | act k IH]; intros Hty;
    cbn [for_gen items ending flat_map]; try done.
  cbn [drain]. rewrite drain_usbDriversLoop.
  - rewrite IH; [done | done |]. intros m' Hin. apply Hty. by right.
  - intros d devs f Hin%elem_of_map_to_list. eapply wf_no_matchfunc; eauto.
    apply Hty. left.
Qed.

Lemma drain_usb_single driver (devs : Devs) devices w :
  pure devices → wfRegistry (registry w) → registry w !! driver = Some devs →
  (∀ m, m ∈ items devices → DeviceMatch.type m ≠ KEY_BLUETOOTH) →
  drain (for_gen devices (fun m rest =>
           GStep (fun w => w) (fun w =>
             typesLoop m m (map_to_list (default ∅ (registry w !! driver))) rest))) w
  = (flat_map (fun m => replicate (typeHits m (map_to_list devs)) m) (items devices),
     ending devices, w).
Proof.
  intros Hp Hwf Hd. induction devices as [| e | m k IH | act k IH]; intros Hty;
    cbn [for_gen items ending flat_map]; try done.
  cbn [drain]. rewrite Hd. cbn [default]. rewrite drain_typesLoop.
  - rewrite IH; [done | done |]. intros m' Hin. apply Hty. by right.
  - intros f Hin%elem_of_map_to_list. eapply wf_no_matchfunc; eauto.
    apply Hty. left.
Qed.

Lemma enumerated_not_bluetooth env w m :
  m ∈ items (enumerated env w) → DeviceMatch.type m ≠ KEY_BLUETOOTH.
Proof. intros [-> | [-> | ->]]%usbDevs_type; done. Qed.

(** What the pair producing USB matching yields when run to its end. *)
Lemma drain_getDriversForConnectedUsbDevices env w :
  wfRegistry (registry w) →
  drain (getDriversForConnectedUsbDevices env) w
  = (flat_map (fun m => usbPairs m (map_to_list (registry w))) (items (enumerated env w)),
     ending (enumerated env w), afterUsbEnum w).
Proof.
  intros Hwf. unfold getDriversForConnectedUsbDevices, withUsbDevs. cbn [drain].
  rewrite drain_usb_pairs; [done | apply pure_usbDevs | done |].
  apply (enumerated_not_bluetooth env w).
Qed.

Lemma drain_getConnectedUsbDevicesForDriver env driver (devs : Devs) w :
  wfRegistry (registry w) → registry w !! driver = Some devs →
  drain (getConnectedUsbDevicesForDriver env driver) w
  = (flat_map (fun m => replicate (typeHits m (map_to_list devs)) m)
              (items (enumerated env w)),
     ending (enumerated env w), afterUsbEnum w).
Proof.
  intros Hwf Hd. unfold getConnectedUsbDevicesForDriver, withUsbDevs. cbn [drain].
  rewrite Hd. cbn [drain].
  rewrite (drain_usb_single driver devs); [done | apply pure_usbDevs | done | done |].
  apply (enumerated_not_bluetooth env w).
Qed.

Lemma mkDeviceMatch_Ok kind idKey portKey p m :
  mkDeviceMatch kind idKey portKey p = Ok m ↔
  DeviceMatch.type m = kind ∧ DeviceMatch.deviceInfo m = p
  ∧ p !! idKey = Some (DeviceMatch.id m) ∧ p !! portKey = Some (DeviceMatch.port m).
Proof.
  unfold mkDeviceMatch, subscript. split.
  - destruct (p !! idKey) as [i |]; [| done]. destruct (p !! portKey) as [q |]; [| done].
    by intros [= <-].
  - destruct m as [t i q info]. cbn. intros (-> & -> & -> & ->). done.
Qed.

Lemma contains_true key (p : Port) v : p !! key = Some v → contains key p = true.
Proof. intros H. unfold contains. apply bool_decide_eq_true_2. by exists v. Qed.

(** The records of the device stream are records of reported devices, and
    all of them when the stream ends without an exception. *)
Lemma enumerated_reported env w m :
  m ∈ items (enumerated env w) → reported env w m.
Proof.
  unfold enumerated, usbDevs, reported. rewrite !items_chain by auto using pure_genexp.
  intros [H | H]%elem_of_app.
  - apply elem_of_items_genexp in H as (p & Hin & _ & H).
    apply mkDeviceMatch_Ok in H as (? & -> & ? & ?). split; [done |]. by left.
  - destruct (ending (genexp _ _ (listUsbDevices env (clock w))));
      [by apply elem_of_nil in H |].
    apply elem_of_app in H as [H | H].
    + apply elem_of_items_genexp in H as (p & Hin & _ & H).
      apply mkDeviceMatch_Ok in H as (? & -> & ? & ?). split; [done |].
      right; left. done.
    + destruct (ending (genexp _ _ (listHidDevices env (S (clock w)))));
        [by apply elem_of_nil in H |].
      apply elem_of_items_genexp in H as (p & Hin & _ & H).
      apply mkDeviceMatch_Ok in H as (? & -> & ? & ?). split; [done |].
      right; right. done.
Qed.

Lemma enumerated_complete env w m :
  ending (enumerated env w) = None → reported env w m → m ∈ items (enumerated env w).
Proof.
  unfold enumerated, usbDevs, reported.
  rewrite !ending_chain, !items_chain by auto using pure_genexp, pure_chain.
  destruct (ending (genexp _ _ (listUsbDevices env (clock w)))) eqn:E1; [done |].
  destruct (ending (genexp _ _ (listHidDevices env (S (clock w))))) eqn:E2; [done |].
  intros E3 (Hid & [(Ht & Hin & Hp) | [(Ht & Hin & Hp) | (Ht & Hin & Hp)]]).
  - apply elem_of_app. left.
    eapply items_genexp_complete; [done | exact Hin | done |].
    by apply mkDeviceMatch_Ok.
  - apply elem_of_app. right. apply elem_of_app. left.
    eapply items_genexp_complete; [done | exact Hin | by eapply contains_true |].
    by apply mkDeviceMatch_Ok.
  - apply elem_of_app. right. apply elem_of_app. right.
    eapply items_genexp_complete; [done | exact Hin | by eapply contains_true |].
    by apply mkDeviceMatch_Ok.
Qed.

(** ** Registration keeps the registry well formed *)

Lemma wfRegistry_empty : wfRegistry ∅.
Proof. intros d devs k f Hd. by rewrite lookup_empty in Hd. Qed.

Lemma wfRegistry_insert (reg : Registry) d (devs : Devs) :
  wfRegistry reg →
  (∀ key f, devs !! key = Some (MatchFunc f) → key = KEY_BLUETOOTH) →
  wfRegistry (<[d := devs]> reg).
Proof.
  intros Hwf Hdevs d' devs' k f Hd Hk.
  destruct (decide (d = d')) as [<- | Hne].
  - rewrite lookup_insert_eq in Hd. injection Hd as <-. by eapply Hdevs.
  - rewrite lookup_insert_ne in Hd by done. by eapply Hwf.
Qed.

Lemma register_wf r w :
  wfRegistry (registry w) → wfRegistry (registry (register r w).2).
Proof.
  intros Hwf. destruct r as [driver type ids | driver f]; cbn [register].
  - unfold addUsbDevices, _getDriver, defaultdict_get.
    destruct (registry w !! driver) as [devs |] eqn:Hd.
    + destruct (devs !! type) as [[s | g] |] eqn:Hk; cbn.
      * apply wfRegistry_insert.
        { apply wfRegistry_insert; [done |]. intros; by eapply Hwf. }
        intros key g Hg. destruct (decide (type = key)) as [<- | Hne].
        -- by rewrite lookup_insert_eq in Hg.
        -- rewrite lookup_insert_ne in Hg by done. by eapply Hwf.
      * apply wfRegistry_insert; [done |]. intros; by eapply Hwf.
      * apply wfRegistry_insert.
        { apply wfRegistry_insert; [done |]. intros key g Hg.
          destruct (decide (type = key)) as [<- | Hne].
          - by rewrite lookup_insert_eq in Hg.
          - rewrite lookup_insert_ne in Hg by done. by eapply Hwf. }
        intros key g Hg. destruct (decide (type = key)) as [<- | Hne].
        -- by rewrite lookup_insert_eq in Hg.
        -- rewrite !lookup_insert_ne in Hg by done. by eapply Hwf.
    + rewrite lookup_empty. cbn.
      apply wfRegistry_insert.
      { apply wfRegistry_insert; [by apply wfRegistry_insert |].
        intros key g Hg. destruct (decide (type = key)) as [<- | Hne].
        - by rewrite lookup_insert_eq in Hg.
        - by rewrite lookup_insert_ne, lookup_empty in Hg. }
      intros key g Hg. destruct (decide (type = key)) as [<- | Hne].
      * by rewrite lookup_insert_eq in Hg.
      * by rewrite !lookup_insert_ne, lookup_empty in Hg.
  - unfold addBluetoothDevices, _getDriver.
    destruct (registry w !! driver) as [devs |] eqn:Hd; cbn.
    + apply wfRegistry_insert; [done |]. intros key g Hg.
      destruct (decide (KEY_BLUETOOTH = key)) as [<- | Hne]; [done |].
      rewrite lookup_insert_ne in Hg by done. by eapply Hwf.
    + apply wfRegistry_insert; [by apply wfRegistry_insert |]. intros key g Hg.
      destruct (decide (KEY_BLUETOOTH = key)) as [<- | Hne]; [done |].
      by rewrite lookup_insert_ne, lookup_empty in Hg.
Qed.

Lemma runAll_wf stmts w :
  wfRegistry (registry w) → wfRegistry (registry (runAll stmts w).2).
Proof.
  revert w. induction stmts as [| s rest IH]; intros w Hwf; cbn [runAll]; [done |].
  pose proof (register_wf s w Hwf) as Hs.
  destruct (register s w) as [[[] | e] w1]; cbn in Hs |- *; auto.
Qed.

Lemma importedWorld_wf : wfRegistry (registry importedWorld).
Proof. apply runAll_wf, wfRegistry_empty. Qed.

(** What [addUsbDevices] leaves under the driver and kind it was given. *)
Lemma addUsbDevices_registered driver kind ids w w' :
  addUsbDevices driver kind ids w = (Ok tt, w') →
  registered (registry w') driver kind ids.
Proof.
  unfold addUsbDevices, _getDriver, defaultdict_get.
  destruct (registry w !! driver) as [devs |] eqn:Hd.
  - destruct (devs !! kind) as [[s | g] |] eqn:Hk; cbn; intros [= <-]; cbn.
    + exists (<[kind := Ids (s ∪ ids)]> devs), (s ∪ ids).
      rewrite !lookup_insert_eq. split_and!; [done | done | set_solver].
    + exists (<[kind := Ids (∅ ∪ ids)]> (<[kind := Ids ∅]> devs)), (∅ ∪ ids).
      rewrite !lookup_insert_eq. split_and!; [done | done | set_solver].
  - rewrite lookup_empty. cbn. intros [= <-]; cbn.
    exists (<[kind := Ids (∅ ∪ ids)]> (<[kind := Ids ∅]> ∅)), (∅ ∪ ids).
    rewrite !lookup_insert_eq. split_and!; [done | done | set_solver].
Qed.

(** Later registrations keep it, as long as they succeed or fail without
    replacing the set: only [addBluetoothDevices] replaces a value, and only
    under [KEY_BLUETOOTH]. *)
Lemma register_keeps_registered r w driver kind ids :
  kind ≠ KEY_BLUETOOTH →
  registered (registry w) driver kind ids →
  registered (registry (register r w).2) driver kind ids.
Proof.
  intros Hkind (devs & stored & Hd & Hk & Hsub).
  destruct r as [driver' type' ids' | driver' f]; cbn [register].
  - unfold addUsbDevices, _getDriver, defaultdict_get.
    destruct (decide (driver' = driver)) as [-> | Hne].
    + rewrite Hd. destruct (decide (type' = kind)) as [-> | Hnk].
      * rewrite Hk. cbn. exists (<[kind := Ids (stored ∪ ids')]> devs), (stored ∪ ids').
        rewrite !lookup_insert_eq. split_and!; [done | done | set_solver].
      * destruct (devs !! type') as [[s | g] |] eqn:Ht; cbn.
        -- exists (<[type' := Ids (s ∪ ids')]> devs), stored.
           rewrite lookup_insert_eq, lookup_insert_ne by done. done.
        -- exists devs, stored. by rewrite lookup_insert_eq.
        -- exists (<[type' := Ids (∅ ∪ ids')]> (<[type' := Ids ∅]> devs)), stored.
           rewrite lookup_insert_eq, !lookup_insert_ne by done. done.
    + exists devs, stored.
      destruct (registry w !! driver') as [devs' |] eqn:Hd'.
      * destruct (devs' !! type') as [[s | g] |]; cbn;
          rewrite ?lookup_insert_ne by done; done.
      * rewrite lookup_empty; cbn. rewrite ?lookup_insert_ne by done. done.
  - unfold addBluetoothDevices, _getDriver.
    destruct (decide (driver' = driver)) as [-> | Hne].
    + rewrite Hd. cbn. exists (<[KEY_BLUETOOTH := MatchFunc f]> devs), stored.
      rewrite lookup_insert_eq, lookup_insert_ne by done. done.
    + exists devs, stored.
      destruct (registry w !! driver') as [devs' |] eqn:Hd'; cbn;
        rewrite ?lookup_insert_ne by done; done.
Qed.

(** Every successful run of registration statements leaves each of its USB
    registrations in the registry. *)
Lemma runAll_registered stmts w w' driver kind ids :
  runAll stmts w = (Ok tt, w') →
  kind ≠ KEY_BLUETOOTH →
  RegUsb driver kind ids ∈ stmts ∨ registered (registry w) driver kind ids →
  registered (registry w') driver kind ids.
Proof.
  intros Hrun Hkind. revert w Hrun.
  induction stmts as [| s rest IH]; intros w Hrun Hor; cbn [runAll] in Hrun.
  - injection Hrun as <-. destruct Hor as [Hin%elem_of_nil | H]; done.
  - destruct (register s w) as [[[] | e] w1] eqn:Hs; [| done].
    apply (IH w1 Hrun). destruct Hor as [[<- | Hin]%elem_of_cons | H].
    + right. cbn [register] in Hs. exact (addUsbDevices_registered _ _ _ _ _ Hs).
    + by left.
    + right. pose proof (register_keeps_registered s w driver kind ids Hkind H) as H1.
      by rewrite Hs in H1.
Qed.

Lemma import_succeeds : runAll detectionData emptyWorld = (Ok tt, importedWorld).
Proof.
  unfold importedWorld. destruct (runAll detectionData emptyWorld) as [r w] eqn:E.
  assert (Hr : r = Ok tt).
  { change r with (fst (r, w)). rewrite <- E. by vm_compute. }
  by rewrite Hr.
Qed.

Lemma registered_subseteq reg driver kind (ids ids' : gset pyval) :
  ids' ⊆ ids → registered reg driver kind ids → registered reg driver kind ids'.
Proof.
  intros Hsub (devs & stored & ? & ? & ?). exists devs, stored.
  split_and!; [done | done | set_solver].
Qed.

(** ** Invariants of the steps of a generator *)

Section Steps.
Context (R : World → World → Prop) `{!Reflexive R} `{!Transitive R}.

Lemma steps_pure {A} (g : gen A) : pure g → steps R g.
Proof. induction g; simpl; auto; done. Qed.

Lemma steps_chain {A} (g1 g2 : gen A) : steps R g1 → steps R g2 → steps R (chain g1 g2).
Proof.
  induction g1 as [| e | a k IH | act k IH]; simpl; auto.
  intros [Hact Hk] Hg2. split; [done | intros w; by apply IH].
Qed.

Lemma steps_for_gen {A B} (src : gen A) (body : A → gen B → gen B) :
  steps R src → (∀ a k, steps R k → steps R (body a k)) → steps R (for_gen src body).
Proof.
  intros Hsrc Hbody. induction src as [| e | a k IH | act k IH]; simpl in *;
    [done | done | by apply Hbody, IH |].
  destruct Hsrc as [Hact Hk]. split; [done | intros w; by apply IH].
Qed.

Lemma steps_for_list {X B} (l : list X) (body : X → gen B → gen B) rest :
  steps R rest → (∀ x k, steps R k → steps R (body x k)) → steps R (for_list l body rest).
Proof. intros Hrest Hbody. unfold for_list. induction l; simpl; auto. Qed.

Lemma steps_typesLoop {B} (y : B) m its rest : steps R rest → steps R (typesLoop y m its rest).
Proof.
  intros Hrest. apply steps_for_list; [done |]. intros [t e] k Hk.
  destruct (String.eqb _ _); [| done]. destruct e; [| done].
  by case_bool_decide.
Qed.

Lemma next_steps {A} (g : gen A) w :
  steps R g → R w (next g w).2 ∧ steps R (next g w).1.2.
Proof.
  revert w. induction g as [| e | a k IH | act k IH]; simpl; intros w Hs; try done.
  destruct Hs as [Hact Hk]. destruct (IH w (act w) (Hk w)) as [H1 H2].
  split; [| done]. etrans; [apply Hact | done].
Qed.

Lemma drain_steps {A} (g : gen A) w : steps R g → R w (drain g w).2.
Proof.
  revert w. induction g as [| e | a k IH | act k IH]; simpl; intros w Hs; try done.
  - specialize (IH w Hs). by destruct (drain k w) as [[ys fin] w'].
  - destruct Hs as [Hact Hk]. etrans; [apply Hact |]. by apply IH.
Qed.

Lemma advance_steps {A} n (g : gen A) w :
  steps R g → R w (advance n g w).2 ∧ steps R (advance n g w).1.
Proof.
  revert g w. induction n as [| n IH]; simpl; intros g w Hs; [done |].
  destruct (next_steps g w Hs) as [H1 H2].
  destruct (next g w) as [[r g'] w']. simpl in *.
  destruct (IH g' w' H2) as [H3 H4]. split; [etrans; [exact H1 | exact H3] | done].
Qed.

End Steps.

#[local] Instance sameButRegistry_refl : Reflexive sameButRegistry.
Proof. by intros []. Qed.

#[local] Instance sameButRegistry_trans : Transitive sameButRegistry.
Proof.
  intros [] [] []. unfold sameButRegistry, set_registry; simpl.
  intros [= -> -> -> -> ->] [= -> -> -> -> ->]. done.
Qed.

#[local] Instance eq_World_refl : Reflexive (@eq World) := _.
#[local] Instance eq_World_trans : Transitive (@eq World) := _.

(** ** The steps of the four matching generators *)

Lemma steps_usb_single_body driver devices :
  pure devices →
  steps eq (for_gen devices (fun (m : DeviceMatch.t) rest =>
              GStep (fun w => w) (fun w =>
                typesLoop m m (map_to_list (default ∅ (registry w !! driver))) rest))).
Proof.
  intros Hp. apply steps_for_gen; [by apply steps_pure |].
  intros m k Hk. split; [done |]. intros w. by apply steps_typesLoop.
Qed.

Lemma steps_usb_pairs_body devices :
  pure devices →
  steps eq (for_gen devices (fun (m : DeviceMatch.t) rest =>
              GStep (fun w => w) (fun w =>
                usbDriversLoop m (map_to_list (registry w)) rest))).
Proof.
  intros Hp. apply steps_for_gen; [by apply steps_pure |].
  intros m k Hk. split; [done |]. intros w. unfold usbDriversLoop.
  apply steps_for_list; [done |]. intros [d devs] k' Hk'. by apply steps_typesLoop.
Qed.

(** The first [next] on the USB matching of a registered driver fetches the
    three lists and does nothing else to the world. *)
Lemma next_getConnectedUsbDevicesForDriver_world env driver w :
  is_Some (registry w !! driver) →
  (next (getConnectedUsbDevicesForDriver env driver) w).2 = afterUsbEnum w.
Proof.
  intros [devs Hd]. unfold getConnectedUsbDevicesForDriver, withUsbDevs.
  cbn [next]. rewrite Hd. cbn [next].
  symmetry. apply (next_steps eq), steps_usb_single_body, pure_usbDevs.
Qed.

Lemma next_unregistered_usb env driver w :
  registry w !! driver = None →
  next (getConnectedUsbDevicesForDriver env driver) w = (Raised (KeyError driver), GStop, w).
Proof. intros Hd. unfold getConnectedUsbDevicesForDriver. cbn [next]. by rewrite Hd. Qed.

Lemma touchBluetooth_unregistered driver w :
  registry w !! driver = None → touchBluetooth driver w = w.
Proof. intros Hd. unfold touchBluetooth. by rewrite Hd. Qed.

Lemma next_unregistered_bluetooth env driver w :
  registry w !! driver = None →
  next (getPossibleBluetoothDevicesForDriver env driver) w
  = (Raised (KeyError driver), GStop, w).
Proof.
  intros Hd. unfold getPossibleBluetoothDevicesForDriver. cbn [next].
  by rewrite Hd, touchBluetooth_unregistered.
Qed.

(** ** Ports without [usbID] *)

Lemma ending_genexp_custom kind good p rest :
  Forall customOk good → p !! "usbID" = None →
  ending (genexp (fun _ => true) (mkDeviceMatch kind "usbID" "devicePath")
                 (good ++ p :: rest))
  = Some (KeyError "usbID").
Proof.
  intros Hgood Hp. induction Hgood as [| q good [[i Hi] [dp Hdp]] _ IH]; cbn.
  - unfold mkDeviceMatch, subscript. by rewrite Hp.
  - unfold mkDeviceMatch, subscript. rewrite Hi, Hdp. cbn. exact IH.
Qed.

Lemma genexp_skips {A} key (elt : Port → result A) ports :
  Forall (fun q : Port => q !! key = None) ports →
  genexp (contains key) elt ports = GStop.
Proof.
  induction 1 as [| q ports Hq _ IH]; cbn; [done |].
  unfold contains. rewrite Hq, bool_decide_eq_false_2; [done |]. by intros [? ?].
Qed.

(** C9. The custom records are built from every device of [listUsbDevices]
    without a test for [usbID]: when the first device that cannot be built
    lacks [usbID], USB matching run to its end stops with [KeyError] for
    that key, from both matching functions. The HID and serial streams
    instead drop the ports without [usbID]. *)
Theorem custom_usb_without_id_raises env w good p rest :
  wfRegistry (registry w) →
  listUsbDevices env (clock w) = good ++ p :: rest →
  Forall customOk good →
  p !! "usbID" = None →
  (drain (getDriversForConnectedUsbDevices env) w).1.2 = Some (KeyError "usbID")
  ∧ (∀ driver, is_Some (registry w !! driver) →
       (drain (getConnectedUsbDevicesForDriver env driver) w).1.2
       = Some (KeyError "usbID"))
  ∧ (∀ ports, Forall (fun q : Port => q !! "usbID" = None) ports →
       genexp (contains "usbID") (mkDeviceMatch KEY_HID "usbID" "devicePath") ports
       = GStop
       ∧ genexp (contains "usbID") (mkDeviceMatch KEY_SERIAL "usbID" "port") ports
         = GStop).
Proof.
  intros Hwf Husb Hgood Hp.
  assert (Hend : ending (enumerated env w) = Some (KeyError "usbID")).
  { unfold enumerated, usbDevs. rewrite ending_chain by apply pure_genexp.
    rewrite Husb. by rewrite ending_genexp_custom. }
  split_and!.
  - by rewrite drain_getDriversForConnectedUsbDevices.
  - intros driver [devs Hd].
    by rewrite (drain_getConnectedUsbDevicesForDriver env driver devs).
  - intros ports Hports. split; by apply genexp_skips.
Qed.

Lemma custom_usb_without_id_witness :
  (drain (getDriversForConnectedUsbDevices envCustomNoId) importedWorld).1.2
  = Some (KeyError "usbID")
  ∧ (drain (getConnectedUsbDevicesForDriver envCustomNoId "baum") importedWorld).1.2
    = Some (KeyError "usbID").
Proof.
  assert (Hok : Forall customOk []) by constructor.
  assert (Hno : customNoId !! "usbID" = None) by reflexivity.
  destruct (custom_usb_without_id_raises envCustomNoId importedWorld [] customNoId []
              importedWorld_wf eq_refl Hok Hno) as (H1 & H2 & _).
  split; [exact H1 |]. apply H2.
  destruct (registry importedWorld !! "baum") as [devs |] eqn:E; [by exists devs |].
  by vm_compute in E.
Defined.

(** ** Generator functions and unregistered drivers *)

Lemma pure_btFilter f devices : pure devices → pure (btFilter f devices).
Proof.
  unfold btFilter. induction devices as [| e | m k IH | act k IH]; simpl; try done.
  intros Hp. destruct (f m) as [[] |]; simpl; auto.
Qed.

Lemma next_bluetooth_world env driver f w :
  btPredicate (registry w) driver = Some f →
  log (next (getPossibleBluetoothDevicesForDriver env driver) w).2
  = log w ++ [EvListComPorts BluetoothMatching].
Proof.
  unfold btPredicate, getPossibleBluetoothDevicesForDriver. cbn [next].
  destruct (registry w !! driver) as [devs |] eqn:Hd; [| done].
  unfold defaultdict_get, touchBluetooth. rewrite Hd. unfold defaultdict_get.
  destruct (devs !! KEY_BLUETOOTH) as [[s | g] |] eqn:Hk; try done.
  intros [= ->]. cbn [fst snd next].
  match goal with |- log (next ?g ?w0).2 = _ =>
    assert (Heq : w0 = (next g w0).2)
      by (apply (next_steps eq), steps_pure, pure_btFilter, pure_genexp);
    rewrite <- Heq end.
  done.
Qed.

(** C10. [getConnectedUsbDevicesForDriver] and
    [getPossibleBluetoothDevicesForDriver] are generator functions: the call
    returns the generator and leaves the world as it is, for every driver
    name. The first [next] does the work: for an unregistered driver it
    raises [KeyError] before any enumeration; for a registered driver the
    USB function then fetches the three lists, and the Bluetooth function of
    a driver with a match function then calls [listComPorts]. *)
Theorem generator_functions_are_lazy env driver w :
  call (getConnectedUsbDevicesForDriver env driver) w
  = (Ok (getConnectedUsbDevicesForDriver env driver), w)
  ∧ call (getPossibleBluetoothDevicesForDriver env driver) w
    = (Ok (getPossibleBluetoothDevicesForDriver env driver), w)
  ∧ (registry w !! driver = None →
       next (getConnectedUsbDevicesForDriver env driver) w
       = (Raised (KeyError driver), GStop, w)
       ∧ next (getPossibleBluetoothDevicesForDriver env driver) w
         = (Raised (KeyError driver), GStop, w))
  ∧ (is_Some (registry w !! driver) →
       log (next (getConnectedUsbDevicesForDriver env driver) w).2
       = log w ++ [EvListUsbDevices; EvListHidDevices; EvListComPorts UsbMatching])
  ∧ (∀ f, btPredicate (registry w) driver = Some f →
       log (next (getPossibleBluetoothDevicesForDriver env driver) w).2
       = log w ++ [EvListComPorts BluetoothMatching]).
Proof.
  split_and!; [done | done | | |].
  - intros Hd. split;
      [by apply next_unregistered_usb | by apply next_unregistered_bluetooth].
  - intros Hd. rewrite next_getConnectedUsbDevicesForDriver_world by done.
    unfold afterUsbEnum, emit; cbn. by rewrite <- !app_assoc.
  - intros f Hf. by eapply next_bluetooth_world.
Qed.

Lemma unknownDriver_unregistered : registry importedWorld !! unknownDriver = None.
Proof. by vm_compute. Qed.

Lemma baum_registered : is_Some (registry importedWorld !! "baum").
Proof.
  destruct (registry importedWorld !! "baum") as [devs |] eqn:E; [by exists devs |].
  by vm_compute in E.
Qed.

Lemma baum_predicate : btPredicate (registry importedWorld) "baum" = Some baumMatch.
Proof. by vm_compute. Qed.

Lemma generator_functions_are_lazy_witness :
  (next (getConnectedUsbDevicesForDriver envOneHid unknownDriver) importedWorld
   = (Raised (KeyError unknownDriver), GStop, importedWorld)
   ∧ next (getPossibleBluetoothDevicesForDriver envOneHid unknownDriver) importedWorld
     = (Raised (KeyError unknownDriver), GStop, importedWorld))
  ∧ log (next (getConnectedUsbDevicesForDriver envOneHid "baum") importedWorld).2
    = log importedWorld ++ [EvListUsbDevices; EvListHidDevices; EvListComPorts UsbMatching]
  ∧ log (next (getPossibleBluetoothDevicesForDriver envOneHid "baum") importedWorld).2
    = log importedWorld ++ [EvListComPorts BluetoothMatching].
Proof.
  pose proof (generator_functions_are_lazy envOneHid unknownDriver importedWorld)
    as (_ & _ & Hnone & _).
  pose proof (generator_functions_are_lazy envOneHid "baum" importedWorld)
    as (_ & _ & _ & Husb & Hbt).
  exact (conj (Hnone unknownDriver_unregistered)
              (conj (Husb baum_registered) (Hbt baumMatch baum_predicate))).
Defined.

(** C6 (as stated, refuted). The driver name is not registered, and still
    the call of either generator function does not raise: it returns the
    generator. *)
Lemma unregistered_query_call_returns :
  registry importedWorld !! unknownDriver = None
  ∧ (∀ e w', call (getConnectedUsbDevicesForDriver envOneHid unknownDriver) importedWorld
             ≠ (Raise e, w'))
  ∧ (∀ e w', call (getPossibleBluetoothDevicesForDriver envOneHid unknownDriver)
                  importedWorld
             ≠ (Raise e, w')).
Proof.
  split_and!; [apply unknownDriver_unregistered | |]; intros e w'; unfold call;
    intros [=].
Qed.

(** C6 (amended). For a driver name that was never registered, every query
    entry point fails with [KeyError], a [LookupError]: the two generator
    functions when the generator they return is first iterated, with nothing
    yielded and no enumeration, and [arePossibleDevicesForDriver] during the
    call. *)
Theorem unregistered_driver_lookup_error env driver w :
  registry w !! driver = None →
  next (getConnectedUsbDevicesForDriver env driver) w
  = (Raised (KeyError driver), GStop, w)
  ∧ drain (getConnectedUsbDevicesForDriver env driver) w = ([], Some (KeyError driver), w)
  ∧ next (getPossibleBluetoothDevicesForDriver env driver) w
    = (Raised (KeyError driver), GStop, w)
  ∧ drain (getPossibleBluetoothDevicesForDriver env driver) w
    = ([], Some (KeyError driver), w)
  ∧ arePossibleDevicesForDriver env driver w = (Raise (KeyError driver), w)
  ∧ isLookupError (KeyError driver) = true.
Proof.
  intros Hd. split_and!.
  - by apply next_unregistered_usb.
  - unfold getConnectedUsbDevicesForDriver. cbn [drain]. by rewrite Hd.
  - by apply next_unregistered_bluetooth.
  - unfold getPossibleBluetoothDevicesForDriver. cbn [drain].
    by rewrite Hd, touchBluetooth_unregistered.
  - unfold arePossibleDevicesForDriver, call, getConnectedUsbDevicesForDriver.
    cbn [chain next]. by rewrite Hd.
  - done.
Qed.

Lemma unregistered_driver_lookup_error_witness :
  arePossibleDevicesForDriver envOneHid unknownDriver importedWorld
  = (Raise (KeyError unknownDriver), importedWorld).
Proof.
  pose proof (unregistered_driver_lookup_error envOneHid unknownDriver importedWorld
                unknownDriver_unregistered) as (_ & _ & _ & _ & H & _).
  exact H.
Defined.

(** ** Reads of [devs[KEY_BLUETOOTH]] *)

Lemma touched_refl reg : touched reg reg.
Proof. intros d. by left. Qed.

Lemma touched_trans reg1 reg2 reg3 : touched reg1 reg2 → touched reg2 reg3 → touched reg1 reg3.
Proof.
  intros H12 H23 d. destruct (H12 d) as [E12 | (devs & H1 & Hk & H2)].
  - destruct (H23 d) as [E23 | (devs & H2 & Hk & H3)].
    + left. congruence.
    + right. exists devs. rewrite <- E12. done.
  - destruct (H23 d) as [E23 | (devs' & H2' & Hk' & H3)].
    + right. exists devs. rewrite E23. done.
    + rewrite H2 in H2'. injection H2' as <-. by rewrite lookup_insert_eq in Hk'.
Qed.

#[local] Instance touchedWorld_refl : Reflexive touchedWorld.
Proof. intros w. split; [reflexivity | apply touched_refl]. Qed.

#[local] Instance touchedWorld_trans : Transitive touchedWorld.
Proof.
  intros w1 w2 w3 [H12 T12] [H23 T23]. split; [by etrans | by eapply touched_trans].
Qed.

Lemma touchBluetooth_touchedWorld d w : touchedWorld w (touchBluetooth d w).
Proof.
  unfold touchBluetooth. destruct (registry w !! d) as [devs |] eqn:Hd; [| reflexivity].
  split; [done |]. cbn. intros d'. destruct (decide (d = d')) as [<- | Hne].
  - rewrite lookup_insert_eq, Hd. unfold defaultdict_get.
    destruct (devs !! KEY_BLUETOOTH) eqn:Hk; cbn; [by left |].
    right. by exists devs.
  - left. by rewrite lookup_insert_ne.
Qed.

Lemma touchDrivers_touchedWorld ds w : touchedWorld w (touchDrivers ds w).
Proof.
  unfold touchDrivers. revert w. induction ds as [| d ds IH]; intros w; cbn.
  - reflexivity.
  - etrans; [apply (touchBluetooth_touchedWorld d) | apply IH].
Qed.

Lemma btPredicate_touched reg reg' d :
  touched reg reg' → btPredicate reg' d = btPredicate reg d.
Proof.
  intros Ht. unfold btPredicate. destruct (Ht d) as [-> | (devs & -> & Hk & ->)]; [done |].
  by rewrite lookup_insert_eq, Hk.
Qed.

(** ** Bluetooth matching *)

Lemma drain_btDriversLoop m drivers rest w :
  drain (btDriversLoop m drivers rest) w
  = match btInner m drivers with
    | (ys, Some e, vis) => (ys, Some e, touchDrivers vis w)
    | (ys, None, vis) => prepend ys (drain rest (touchDrivers vis w))
    end.
Proof.
  unfold btDriversLoop, for_list. revert w.
  induction drivers as [| [d devs] drivers IH]; intros w.
  - cbn. by destruct (drain rest w) as [[ys fin] w'].
  - cbn [foldr btInner drain].
    destruct (fst (defaultdict_get devs KEY_BLUETOOTH)) as [s | f].
    + rewrite IH. by destruct (btInner m drivers) as [[ys [e |]] vis].
    + destruct (f m) as [[] | e]; [| | done].
      * rewrite drain_yield, IH.
        destruct (btInner m drivers) as [[ys [e |]] vis]; cbn; [done |].
        by rewrite prepend_prepend.
      * rewrite IH. by destruct (btInner m drivers) as [[ys [e |]] vis].
Qed.

Lemma defaultdict_get_matchfunc (devs : Devs) key f :
  fst (defaultdict_get devs key) = MatchFunc f ↔ devs !! key = Some (MatchFunc f).
Proof.
  unfold defaultdict_get. destruct (devs !! key) as [e |]; cbn; [| done].
  split; congruence.
Qed.

Lemma btInner_sound m drivers d m' :
  (d, m') ∈ (btInner m drivers).1.1 →
  m' = m ∧ ∃ (devs : Devs) f,
      (d, devs) ∈ drivers ∧ devs !! KEY_BLUETOOTH = Some (MatchFunc f) ∧ f m = Ok true.
Proof.
  induction drivers as [| [d0 devs0] drivers IH]; cbn [btInner].
  - cbn. by intros ?%elem_of_nil.
  - destruct (fst (defaultdict_get devs0 KEY_BLUETOOTH)) as [s | f] eqn:Hg.
    + destruct (btInner m drivers) as [[ys fin] vis]. cbn in *.
      intros Hin. destruct (IH Hin) as (-> & devs & f & ? & ? & ?).
      split; [done |]. exists devs, f. split_and!; [by right | done | done].
    + apply defaultdict_get_matchfunc in Hg.
      destruct (f m) as [b | e] eqn:Hf; [| cbn; by intros ?%elem_of_nil].
      destruct (btInner m drivers) as [[ys fin] vis]. cbn in *.
      intros [Hin | Hin]%elem_of_app.
      * destruct b; [| by apply elem_of_nil in Hin].
        apply list_elem_of_singleton in Hin as [= -> ->].
        split; [done |]. exists devs0, f. split_and!; [left | done | done].
      * destruct (IH Hin) as (-> & devs & g & ? & ? & ?).
        split; [done |]. exists devs, g. split_and!; [by right | done | done].
Qed.

Lemma btInner_complete m drivers d (devs : Devs) f :
  (btInner m drivers).1.2 = None →
  (d, devs) ∈ drivers → devs !! KEY_BLUETOOTH = Some (MatchFunc f) → f m = Ok true →
  (d, m) ∈ (btInner m drivers).1.1.
Proof.
  induction drivers as [| [d0 devs0] drivers IH]; cbn [btInner].
  - by intros _ ?%elem_of_nil.
  - intros Hfin Hin Hk Hf.
    destruct (fst (defaultdict_get devs0 KEY_BLUETOOTH)) as [s | g] eqn:Hg.
    + destruct (btInner m drivers) as [[ys fin] vis]. cbn in *.
      apply elem_of_cons in Hin as [[= -> ->] | Hin]; [| by apply IH].
      apply defaultdict_get_matchfunc in Hk. congruence.
    + apply defaultdict_get_matchfunc in Hg.
      destruct (g m) as [b | e] eqn:Hgm; [| done].
      destruct (btInner m drivers) as [[ys fin] vis]. cbn in *.
      apply elem_of_app.
      apply elem_of_cons in Hin as [[= -> ->] | Hin]; [| right; by apply IH].
      left. rewrite Hk in Hg. injection Hg as ->. rewrite Hf in Hgm.
      injection Hgm as <-. left.
Qed.

Lemma btPredicate_spec (reg : Registry) d f :
  btPredicate reg d = Some f ↔
  ∃ devs : Devs, reg !! d = Some devs ∧ devs !! KEY_BLUETOOTH = Some (MatchFunc f).
Proof.
  unfold btPredicate. split.
  - destruct (reg !! d) as [devs |]; [| done].
    destruct (devs !! KEY_BLUETOOTH) as [[s | g] |] eqn:Hk; try done.
    intros [= ->]. by exists devs.
  - intros (devs & -> & ->). done.
Qed.

Lemma drain_bt_outer ms w :
  let r := drain (for_list ms
                    (fun (m : DeviceMatch.t) k =>
                       GStep (fun w => w) (fun w =>
                         btDriversLoop m (map_to_list (registry w)) k))
                    GStop) w in
  touchedWorld w r.2
  ∧ (∀ d m, (d, m) ∈ r.1.1 →
       m ∈ ms ∧ ∃ f, btPredicate (registry w) d = Some f ∧ f m = Ok true)
  ∧ (r.1.2 = None → ∀ d m f,
       m ∈ ms → btPredicate (registry w) d = Some f → f m = Ok true → (d, m) ∈ r.1.1).
Proof.
  unfold for_list. revert w. induction ms as [| m0 ms IH]; intros w.
  - cbn. split_and!; [reflexivity | by intros ?? ?%elem_of_nil |].
    by intros _ ??? ?%elem_of_nil.
  - cbn [foldr drain]. rewrite drain_btDriversLoop.
    pose proof (btInner_sound m0 (map_to_list (registry w))) as Hsound.
    pose proof (btInner_complete m0 (map_to_list (registry w))) as Hcompl.
    destruct (btInner m0 (map_to_list (registry w))) as [[ys fin] vis].
    cbn [fst snd] in Hsound, Hcompl.
    pose proof (touchDrivers_touchedWorld vis w) as Hw1.
    assert (Hys : ∀ d m, (d, m) ∈ ys →
              m ∈ m0 :: ms ∧ ∃ f, btPredicate (registry w) d = Some f ∧ f m = Ok true).
    { intros d m Hin. destruct (Hsound d m Hin) as (-> & devs & f & Hd & Hk & Hf).
      split; [left |]. exists f. split; [| done].
      apply btPredicate_spec. exists devs. by apply elem_of_map_to_list in Hd. }
    destruct fin as [e |].
    + cbn. split_and!; [done | done | done].
    + specialize (IH (touchDrivers vis w)). cbn zeta in IH.
      destruct (drain _ (touchDrivers vis w)) as [[zs fin'] w'].
      cbn [prepend fst snd] in *. destruct IH as (Hw' & Hs & Hc).
      assert (Hpred : ∀ d, btPredicate (registry (touchDrivers vis w)) d
                           = btPredicate (registry w) d).
      { intros d. apply btPredicate_touched, Hw1. }
      split_and!.
      * by etrans.
      * intros d m [Hin | Hin]%elem_of_app; [by apply Hys |].
        destruct (Hs d m Hin) as (Hm & f & Hf & Hfm). split; [by right |].
        exists f. by rewrite <- Hpred.
      * intros -> d m f Hin Hf Hfm. apply elem_of_app.
        apply elem_of_cons in Hin as [-> | Hin].
        -- left. apply btPredicate_spec in Hf as (devs & Hd & Hk).
           apply (Hcompl d devs f); [done | by apply elem_of_map_to_list | done | done].
        -- right. apply (Hc eq_refl d m f); [done | by rewrite Hpred | done].
Qed.

Lemma btDevsList_genexp ports :
  btDevsList ports
  = match ending (genexp (contains "bluetoothName")
                         (mkDeviceMatch KEY_SERIAL "bluetoothName" "port") ports) with
    | Some e => Raise e
    | None => Ok (items (genexp (contains "bluetoothName")
                                (mkDeviceMatch KEY_SERIAL "bluetoothName" "port") ports))
    end.
Proof.
  induction ports as [| p ps IH]; cbn [btDevsList genexp]; [done |].
  destruct (contains "bluetoothName" p); [| done].
  destruct (mkDeviceMatch KEY_SERIAL "bluetoothName" "port" p) as [m | e]; [| done].
  cbn [items ending]. rewrite IH. by destruct (ending _).
Qed.

Lemma items_btFilter f devices m :
  pure devices →
  m ∈ items (btFilter f devices) → m ∈ items devices ∧ f m = Ok true.
Proof.
  unfold btFilter. intros Hp.
  induction devices as [| e | m0 k IH | act k IH]; cbn [for_gen items] in *;
    try by intros ?%elem_of_nil.
  destruct (f m0) as [[] | e] eqn:Hf; cbn [items].
  - intros [-> | Hin]%elem_of_cons; [split; [left | done] |].
    destruct (IH Hp Hin). split; [by right | done].
  - intros Hin. destruct (IH Hp Hin). split; [by right | done].
  - by intros ?%elem_of_nil.
Qed.

Lemma items_btFilter_complete f devices m :
  pure devices → ending (btFilter f devices) = None →
  m ∈ items devices → f m = Ok true → m ∈ items (btFilter f devices).
Proof.
  unfold btFilter. intros Hp.
  induction devices as [| e | m0 k IH | act k IH]; cbn [for_gen items ending] in *;
    try by intros _ ?%elem_of_nil.
  intros Hend Hin Hfm.
  destruct (f m0) as [[] | e] eqn:Hf; cbn [items ending] in *; [| | done].
  - apply elem_of_cons in Hin as [-> | Hin]; [left | right; by apply IH].
  - apply elem_of_cons in Hin as [-> | Hin]; [congruence | by apply IH].
Qed.

Lemma clock_touchBluetooth d w : clock (touchBluetooth d w) = clock w.
Proof. unfold touchBluetooth. by destruct (registry w !! d). Qed.

(** C5 (amended). Bluetooth matching run to its end, for the records built
    from the serial ports that carry a Bluetooth name: whatever is yielded for a
    driver is such a record on which the match function registered for the
    driver returns true, so a driver without a match function yields
    nothing; and when matching ends without an exception, every such record
    on which the registered match function returns true is yielded. This
    holds of [getDriversForPossibleBluetoothDevices], which yields pairs,
    and of [getPossibleBluetoothDevicesForDriver]. *)
Theorem bluetooth_matching_iff_predicate env w d :
  let pairs := drain (getDriversForPossibleBluetoothDevices env) w in
  let single := drain (getPossibleBluetoothDevicesForDriver env d) w in
  (∀ m, (d, m) ∈ pairs.1.1 ∨ m ∈ single.1.1 →
        m ∈ items (btRecords env w)
        ∧ ∃ f, btPredicate (registry w) d = Some f ∧ f m = Ok true)
  ∧ (∀ m f, m ∈ items (btRecords env w) →
            btPredicate (registry w) d = Some f → f m = Ok true →
            (pairs.1.2 = None → (d, m) ∈ pairs.1.1)
            ∧ (single.1.2 = None → m ∈ single.1.1))
  ∧ (btPredicate (registry w) d = None →
       (∀ m, (d, m) ∉ pairs.1.1) ∧ single.1.1 = []).
Proof.
  intros pairs single.
  assert (Hpairs :
    (∀ m, (d, m) ∈ pairs.1.1 →
          m ∈ items (btRecords env w)
          ∧ ∃ f, btPredicate (registry w) d = Some f ∧ f m = Ok true)
    ∧ (pairs.1.2 = None → ∀ m f, m ∈ items (btRecords env w) →
          btPredicate (registry w) d = Some f → f m = Ok true → (d, m) ∈ pairs.1.1)).
  { subst pairs. unfold getDriversForPossibleBluetoothDevices. cbn [drain].
    rewrite btDevsList_genexp. fold (btRecords env w).
    destruct (ending (btRecords env w)) as [e |].
    - cbn. split; [by intros m ?%elem_of_nil | done].
    - pose proof (drain_bt_outer (items (btRecords env w))
                    (emit (EvListComPorts BluetoothMatching) w)) as H.
      cbn zeta in H. destruct H as (_ & Hs & Hc). split.
      + intros m Hin. exact (Hs d m Hin).
      + intros Hfin m f Hm Hf Hfm. exact (Hc Hfin d m f Hm Hf Hfm). }
  assert (Hsingle :
    (∀ m, m ∈ single.1.1 →
          m ∈ items (btRecords env w)
          ∧ ∃ f, btPredicate (registry w) d = Some f ∧ f m = Ok true)
    ∧ (single.1.2 = None → ∀ m f, m ∈ items (btRecords env w) →
          btPredicate (registry w) d = Some f → f m = Ok true → m ∈ single.1.1)).
  { subst single. unfold getPossibleBluetoothDevicesForDriver, btPredicate.
    cbn [drain]. destruct (registry w !! d) as [devs |] eqn:Hd.
    - unfold defaultdict_get.
      destruct (devs !! KEY_BLUETOOTH) as [[s | g] |] eqn:Hk; cbn [fst drain];
        try (split; [by intros m ?%elem_of_nil | by intros _ m f _ [=]]).
      rewrite drain_pure by apply pure_btFilter, pure_genexp.
      cbn [fst snd]. rewrite clock_touchBluetooth. fold (btRecords env w). split.
      + intros m Hin. apply items_btFilter in Hin as [? ?]; [| apply pure_genexp].
        split; [done |]. by exists g.
      + intros Hfin m f Hm [= <-] Hfm.
        apply items_btFilter_complete; [apply pure_genexp | done | done | done].
    - cbn. split; [by intros m ?%elem_of_nil | by intros [=]]. }
  destruct Hpairs as [Hps Hpc], Hsingle as [Hss Hsc].
  split_and!.
  - intros m [Hin | Hin]; [by apply Hps | by apply Hss].
  - intros m f Hm Hf Hfm. split; intros Hfin; [by eapply Hpc | by eapply Hsc].
  - intros Hnone. split.
    + intros m Hin. destruct (Hps m Hin) as (_ & f & Hf & _). congruence.
    + destruct (single.1.1) as [| m l] eqn:E; [done |].
      destruct (Hss m) as (_ & f & Hf & _); [left | congruence].
Qed.

Lemma bluetooth_matching_witness :
  ("brailliantB", btBrailliantMatch)
    ∈ (drain (getDriversForPossibleBluetoothDevices envBluetooth) importedWorld).1.1
  ∧ btBrailliantMatch
      ∈ (drain (getPossibleBluetoothDevicesForDriver envBluetooth "brailliantB")
               importedWorld).1.1.
Proof.
  pose proof (bluetooth_matching_iff_predicate envBluetooth importedWorld "brailliantB")
    as H.
  cbn zeta in H. destruct H as (_ & H & _).
  assert (Hm : btBrailliantMatch ∈ items (btRecords envBluetooth importedWorld))
    by (vm_compute; left).
  assert (Hf : btPredicate (registry importedWorld) "brailliantB" = Some brailliantBMatch)
    by (by vm_compute).
  assert (Hfm : brailliantBMatch btBrailliantMatch = Ok true) by (by vm_compute).
  destruct (H btBrailliantMatch brailliantBMatch Hm Hf Hfm) as [H1 H2].
  split; [apply H1 | apply H2]; by vm_compute.
Defined.

(** ** The registry during scans and queries *)

#[local] Instance sameRegistry_refl : Reflexive sameRegistry.
Proof. by intros w. Qed.

#[local] Instance sameRegistry_trans : Transitive sameRegistry.
Proof. unfold sameRegistry. intros w1 w2 w3 H12 H23. congruence. Qed.

#[local] Instance touchedRegistry_refl : Reflexive touchedRegistry.
Proof. intros w. apply touched_refl. Qed.

#[local] Instance touchedRegistry_trans : Transitive touchedRegistry.
Proof. intros w1 w2 w3. apply touched_trans. Qed.

Lemma sameRegistry_touched w w' : sameRegistry w w' → touchedRegistry w w'.
Proof. unfold sameRegistry, touchedRegistry. intros ->. apply touched_refl. Qed.

Lemma steps_mono {A} (R R' : World → World → Prop) (g : gen A) :
  (∀ w w', R w w' → R' w w') → steps R g → steps R' g.
Proof.
  intros HR. induction g as [| e | a k IH | act k IH]; simpl; auto.
  intros [Hact Hk]. split; [intros w; apply HR, Hact | intros w; apply IH, Hk].
Qed.

Lemma steps_withUsbDevs {B} env (body : gen DeviceMatch.t → gen B) :
  (∀ devices, pure devices → steps sameRegistry (body devices)) →
  steps sameRegistry (withUsbDevs env body).
Proof.
  intros Hbody. unfold withUsbDevs. cbn.
  split; [done |]. intros w0. split; [done |]. intros w1. split; [done |].
  intros w2. apply Hbody, pure_usbDevs.
Qed.

Lemma steps_getDriversForConnectedUsbDevices env :
  steps sameRegistry (getDriversForConnectedUsbDevices env).
Proof.
  apply steps_withUsbDevs. intros devices Hp.
  eapply steps_mono; [| by apply steps_usb_pairs_body]. by intros w w' <-.
Qed.

Lemma steps_getConnectedUsbDevicesForDriver env driver :
  steps sameRegistry (getConnectedUsbDevicesForDriver env driver).
Proof.
  unfold getConnectedUsbDevicesForDriver. cbn. split; [done |]. intros w.
  destruct (registry w !! driver); [| done].
  apply steps_withUsbDevs. intros devices Hp.
  eapply steps_mono; [| by apply steps_usb_single_body]. by intros w1 w' <-.
Qed.

Lemma touchBluetooth_touchedRegistry d w : touchedRegistry w (touchBluetooth d w).
Proof. apply touchBluetooth_touchedWorld. Qed.

Lemma steps_getDriversForPossibleBluetoothDevices env :
  steps touchedRegistry (getDriversForPossibleBluetoothDevices env).
Proof.
  unfold getDriversForPossibleBluetoothDevices. cbn.
  split; [intros w; apply touched_refl |]. intros w0.
  destruct (btDevsList _) as [btDevs | e]; [| done].
  apply steps_for_list; [done |]. intros m k Hk.
  split; [intros w; apply touched_refl |]. intros w. unfold btDriversLoop.
  apply steps_for_list; [done |]. intros [d devs] k' Hk'.
  split; [apply touchBluetooth_touchedRegistry |]. intros _.
  destruct (fst _) as [s | f]; [done |]. by destruct (f m) as [[] | e].
Qed.

Lemma steps_getPossibleBluetoothDevicesForDriver env driver :
  steps touchedRegistry (getPossibleBluetoothDevicesForDriver env driver).
Proof.
  unfold getPossibleBluetoothDevicesForDriver. cbn.
  split; [apply touchBluetooth_touchedRegistry |]. intros w.
  destruct (registry w !! driver) as [devs |]; [| done].
  destruct (fst _) as [s | f]; [done |]. cbn.
  split; [intros w0; apply touched_refl |]. intros w0.
  apply steps_pure, pure_btFilter, pure_genexp.
Qed.

(** ** The shape of a scan pass *)

Lemma isSet_spec env ev w :
  frame w (isSet env ev w).2
  ∧ log (isSet env ev w).2 = log w ++ [EvIsSet ev (isSet env ev w).1].
Proof.
  unfold isSet, frame. case_bool_decide; [done |].
  by destruct (foreignSet env (clock w)).
Qed.

Lemma activate_spec env d m w :
  frame w (activate env d m w).2
  ∧ log (activate env d m w).2 = log w ++ [EvSetDisplayByName d m (activate env d m w).1].
Proof. done. Qed.

Lemma frame_refl w : frame w w.
Proof. done. Qed.

Lemma frame_trans w1 w2 w3 : frame w1 w2 → frame w2 w3 → frame w1 w3.
Proof. unfold frame. intros (? & ? & ?) (? & ? & ?). split_and!; congruence. Qed.

#[local] Instance calmStep_refl : Reflexive calmStep.
Proof. intros w. split_and!; try done. exists []. by rewrite app_nil_r. Qed.

#[local] Instance calmStep_trans : Transitive calmStep.
Proof.
  intros w1 w2 w3 (? & ? & ? & evs1 & L1 & C1) (? & ? & ? & evs2 & L2 & C2).
  split_and!; try congruence. exists (evs1 ++ evs2).
  rewrite L2, L1, <- app_assoc, forallb_app, C1, C2. done.
Qed.

Lemma calmStep_emit e w : calm e = true → calmStep w (emit e w).
Proof. intros He. split_and!; try done. exists [e]. cbn. by rewrite He. Qed.

Lemma steps_calm_getDriversForConnectedUsbDevices env :
  steps calmStep (getDriversForConnectedUsbDevices env).
Proof.
  unfold getDriversForConnectedUsbDevices, withUsbDevs. cbn.
  split; [intros w; by apply calmStep_emit |]. intros w0.
  split; [intros w; by apply calmStep_emit |]. intros w1.
  split; [intros w; by apply calmStep_emit |]. intros w2.
  eapply steps_mono; [| apply steps_usb_pairs_body, pure_usbDevs].
  intros w w' <-. reflexivity.
Qed.

Lemma UsbShape_prepend ev exit pre evs :
  forallb calm pre = true → UsbShape ev exit evs → UsbShape ev exit (pre ++ evs).
Proof.
  intros Hpre [pre' H | pre' d m H | e evs' H | evs' H]; rewrite ?app_assoc;
    constructor; rewrite forallb_app, Hpre; done.
Qed.

Lemma usbLoop_shape env ev g w :
  steps calmStep g →
  frame w (usbLoop env ev g w).2
  ∧ ∃ evs, log (usbLoop env ev g w).2 = log w ++ evs
           ∧ UsbShape ev (usbLoop env ev g w).1 evs.
Proof.
  revert w. induction g as [| e | [d m] k IH | act k IH]; intros w Hs; cbn [usbLoop].
  - split; [done |]. exists []. rewrite app_nil_r. split; [done | by constructor].
  - split; [done |]. exists []. rewrite app_nil_r. split; [done | by constructor].
  - destruct (isSet_spec env ev w) as [Hf1 Hl1].
    destruct (isSet env ev w) as [stop w1]. cbn [fst snd] in *.
    destruct stop.
    + cbn. split; [done |]. exists [EvIsSet ev true]. split; [done |].
      by apply (UsbCancelled ev []).
    + destruct (activate_spec env d m w1) as [Hf2 Hl2].
      destruct (activate env d m w1) as [ok w2]. cbn [fst snd] in *.
      destruct ok.
      * cbn. split; [by eapply frame_trans |].
        exists ([EvIsSet ev false] ++ [EvSetDisplayByName d m true]).
        rewrite Hl2, Hl1, <- app_assoc. split; [done |].
        by apply (UsbActivated ev [EvIsSet ev false]).
      * destruct (IH w2 Hs) as (Hf3 & evs & Hl3 & Hshape).
        split; [eapply frame_trans; [| exact Hf3]; by eapply frame_trans |].
        exists ([EvIsSet ev false; EvSetDisplayByName d m false] ++ evs).
        rewrite Hl3, Hl2, Hl1, <- !app_assoc. split; [done |].
        by apply UsbShape_prepend.
  - destruct Hs as [Hact Hk]. destruct (Hact w) as (? & ? & ? & evs0 & Hl0 & Hc0).
    destruct (IH w (act w) (Hk w)) as (Hf & evs & Hl & Hshape).
    split; [eapply frame_trans; [| exact Hf]; done |].
    exists (evs0 ++ evs). rewrite Hl, Hl0, <- app_assoc. split; [done |].
    by apply UsbShape_prepend.
Qed.

Lemma usbPass_shape env ev w :
  frame w (usbPass env ev w).2
  ∧ ∃ evs, log (usbPass env ev w).2 = log w ++ evs
           ∧ UsbShape ev (usbPass env ev w).1 evs.
Proof.
  unfold usbPass. destruct (isSet_spec env ev w) as [Hf1 Hl1].
  destruct (isSet env ev w) as [stop w1]. cbn [fst snd] in *. destruct stop.
  - cbn. split; [done |]. exists [EvIsSet ev true]. split; [done |].
    by apply (UsbCancelled ev []).
  - destruct (usbLoop_shape env ev (getDriversForConnectedUsbDevices env) w1)
      as (Hf & evs & Hl & Hshape);
      [apply steps_calm_getDriversForConnectedUsbDevices |].
    split; [by eapply frame_trans |].
    exists ([EvIsSet ev false] ++ evs). rewrite Hl, Hl1, <- app_assoc.
    split; [done |]. by apply UsbShape_prepend.
Qed.

Lemma sameButRegistry_fields w w' :
  sameButRegistry w w' →
  log w' = log w ∧ pollTimer w' = pollTimer w ∧ nextEvent w' = nextEvent w
  ∧ clock w' = clock w ∧ stopSet w' = stopSet w.
Proof. destruct w, w'. unfold sameButRegistry, set_registry; cbn. by intros [= -> -> -> -> ->]. Qed.

(** The world after Bluetooth matching has been run to its end. *)
Lemma drain_bt_world env w :
  let r := drain (getDriversForPossibleBluetoothDevices env) w in
  log r.2 = log w ++ [EvListComPorts BluetoothMatching]
  ∧ pollTimer r.2 = pollTimer w ∧ nextEvent r.2 = nextEvent w
  ∧ touched (registry w) (registry r.2).
Proof.
  unfold getDriversForPossibleBluetoothDevices. cbn [drain].
  destruct (btDevsList _) as [btDevs | e].
  - pose proof (drain_bt_outer btDevs (emit (EvListComPorts BluetoothMatching) w)) as H.
    cbn zeta in H. destruct H as ([Hsame Ht] & _).
    apply sameButRegistry_fields in Hsame as (Hl & Hp & Hn & _).
    cbn zeta. rewrite Hl, Hp, Hn. done.
  - cbn. split_and!; try done. apply touched_refl.
Qed.

Lemma LoopDone_cons ev d m btComs tried evs :
  LoopDone ev btComs tried evs →
  LoopDone ev ((d, m) :: btComs) ((d, m) :: tried)
           ([EvIsSet ev false; EvSetDisplayByName d m false] ++ evs).
Proof.
  intros [| pre d' m' rest ->].
  - apply (LoopExhausted ev ((d, m) :: btComs)).
  - apply (LoopBroken ev _ ((d, m) :: pre) d' m' rest). done.
Qed.

Lemma btLoop_shape env ev fresh btComs cache0 w :
  let r := btLoop env ev fresh btComs cache0 w in
  frame w r.2
  ∧ match r.1.1 with
    | LReturn =>
        ∃ tried rest, btComs = tried ++ rest ∧ rest ≠ []
                      ∧ log r.2 = log w ++ failed ev tried ++ [EvIsSet ev true]
    | LFallThrough =>
        ∃ tried loopEvs, LoopDone ev btComs tried loopEvs
                         ∧ log r.2 = log w ++ loopEvs
                         ∧ r.1.2 = (if fresh then cache0 ++ tried else cache0)
    | LRaise _ => False
    end.
Proof.
  revert cache0 w. induction btComs as [| [d m] btComs IH]; intros cache0 w;
    cbn [btLoop].
  - cbn. split; [done |]. exists [], []. split_and!.
    + apply (LoopExhausted ev []).
    + by rewrite app_nil_r.
    + destruct fresh; [by rewrite app_nil_r | done].
  - destruct (isSet_spec env ev w) as [Hf1 Hl1].
    destruct (isSet env ev w) as [stop w1]. cbn [fst snd] in *. destruct stop.
    + cbn. split; [done |]. exists [], ((d, m) :: btComs). by split_and!.
    + destruct (activate_spec env d m w1) as [Hf2 Hl2].
      destruct (activate env d m w1) as [ok w2]. cbn [fst snd] in *. destruct ok.
      * cbn. split; [by eapply frame_trans |].
        exists [(d, m)], [EvIsSet ev false; EvSetDisplayByName d m true]. split_and!.
        -- apply (LoopBroken ev _ [] d m btComs). done.
        -- rewrite Hl2, Hl1, <- app_assoc. done.
        -- done.
      * specialize (IH (if fresh then cache0 ++ [(d, m)] else cache0) w2).
        cbn zeta in IH. destruct IH as [Hf3 IH].
        destruct (btLoop env ev fresh btComs _ w2) as [[exit cache] w3].
        cbn [fst snd] in *.
        split; [eapply frame_trans; [| exact Hf3]; by eapply frame_trans |].
        destruct exit as [| e |]; [| done |].
        -- destruct IH as (tried & rest & -> & Hrest & Hl3).
           exists ((d, m) :: tried), rest. split_and!; [done | done |].
           rewrite Hl3, Hl2, Hl1, <- !app_assoc. done.
        -- destruct IH as (tried & loopEvs & Hdone & Hl3 & Hcache).
           exists ((d, m) :: tried),
                  ([EvIsSet ev false; EvSetDisplayByName d m false] ++ loopEvs).
           split_and!.
           ++ by apply LoopDone_cons.
           ++ rewrite Hl3, Hl2, Hl1, <- !app_assoc. done.
           ++ rewrite Hcache. destruct fresh; [by rewrite <- app_assoc | done].
Qed.

Lemma set_btComs_same self : set_btComs (_btComs self) self = self.
Proof. by destruct self. Qed.

Lemma btTail_shape env ev fresh btComs cache0 self w :
  match _btComs self with
  | None => fresh = true ∧ cache0 = []
  | Some c => fresh = false ∧ cache0 = c ∧ btComs = c
  end →
  let res := btTail env ev fresh btComs cache0 self w in
  ∃ armed tailEvs,
    log res.2 = log w ++ tailEvs
    ∧ BtShape ev (_btComs self) btComs res.1.1 (_btComs res.1.2) armed
        ([EvIsSet ev false] ++ enumEvents (_btComs self) ++ tailEvs)
    ∧ registry res.2 = registry w
    ∧ afterPass self w (_btComs res.1.2) armed res.1.2 res.2.
Proof.
  intros Hold. unfold btTail.
  pose proof (btLoop_shape env ev fresh btComs cache0 w) as H. cbn zeta in H.
  destruct H as [Hf1 H].
  destruct (btLoop env ev fresh btComs cache0 w) as [[exit cache] w1].
  cbn [fst snd] in *. destruct exit as [| e |]; [| done |].
  - destruct H as (tried & rest & Hsplit & Hrest & Hl).
    exists false, (failed ev tried ++ [EvIsSet ev true]). cbn [fst snd].
    split_and!; [done | | apply Hf1 |].
    + by apply (BtCancelledInLoop ev _ _ tried rest).
    + unfold afterPass. rewrite set_btComs_same. split; [done | apply Hf1].
  - destruct H as (tried & loopEvs & Hdone & Hl & Hcache).
    destruct (isSet_spec env ev w1) as [Hf2 Hl2].
    destruct (isSet env ev w1) as [stop w2]. cbn [fst snd] in *.
    pose proof (frame_trans _ _ _ Hf1 Hf2) as Hf.
    destruct stop.
    + exists false, (loopEvs ++ [EvIsSet ev true]). cbn [fst snd].
      split_and!; [by rewrite Hl2, Hl, <- app_assoc | | apply Hf |].
      * by apply (BtCancelledAfterLoop ev _ _ tried loopEvs).
      * unfold afterPass. rewrite set_btComs_same. split; [done | apply Hf].
    + assert (Hc : cache = match _btComs self with None => tried | Some c => c end).
      { destruct (_btComs self) as [c |].
        - destruct Hold as (-> & -> & ->). done.
        - destruct Hold as (-> & ->). done. }
      assert (Hself1 : _btComs (if fresh then set_btComs (Some cache) self else self)
                       = Some cache).
      { destruct (_btComs self) as [c |] eqn:Hb.
        - destruct Hold as (-> & -> & ->). by rewrite Hb, Hc.
        - destruct Hold as (-> & ->). done. }
      assert (Hself1' : (if fresh then set_btComs (Some cache) self else self)
                        = set_btComs (Some cache) self).
      { destruct fresh; [done |]. rewrite <- Hself1. by rewrite set_btComs_same. }
      rewrite Hself1' in *. clear Hself1'.
      destruct cache as [| x cache'].
      * exists false, (loopEvs ++ [EvIsSet ev false]). cbn [fst snd].
        split_and!; [by rewrite Hl2, Hl, <- app_assoc | | apply Hf |].
        -- cbn [_btComs set_btComs]. by apply (BtFinishedEmpty ev _ _ tried loopEvs).
        -- unfold afterPass. split; [done | apply Hf].
      * exists true, (loopEvs ++ [EvIsSet ev false; EvSetWaitableTimer POLL_INTERVAL]).
        unfold _startBgScan. rewrite bool_decide_eq_true_2 by done. cbn [fst snd].
        split_and!.
        -- cbn. rewrite Hl2, Hl, <- !app_assoc. done.
        -- cbn [_btComs set_btComs].
           by apply (BtFinishedArmed ev _ _ tried loopEvs (x :: cache')).
        -- cbn. apply Hf.
        -- unfold afterPass. cbn. destruct Hf as (_ & _ & ->). done.
Qed.

Lemma btPass_shape env ev self w :
  let res := btPass env ev self w in
  ∃ armed evs,
    log res.2 = log w ++ evs
    ∧ BtShape ev (_btComs self) (candidates env ev self w) res.1.1 (_btComs res.1.2)
              armed evs
    ∧ touched (registry w) (registry res.2)
    ∧ afterPass self w (_btComs res.1.2) armed res.1.2 res.2.
Proof.
  unfold btPass, candidates. destruct (isSet_spec env ev w) as [Hf1 Hl1].
  destruct (isSet env ev w) as [stop w1]. cbn [fst snd] in *. destruct stop.
  - exists false, [EvIsSet ev true]. cbn [fst snd]. split_and!; [done | | |].
    + apply BtCancelledAtStart.
    + destruct Hf1 as [-> _]. apply touched_refl.
    + unfold afterPass. rewrite set_btComs_same. split; [done | apply Hf1].
  - destruct (_btComs self) as [c |] eqn:Hb.
    + pose proof (btTail_shape env ev false c c self w1) as H.
      rewrite Hb in H. specialize (H (conj eq_refl (conj eq_refl eq_refl))).
      cbn zeta in H. destruct H as (armed & tailEvs & Hl & Hshape & Hreg & Hafter).
      exists armed, ([EvIsSet ev false] ++ enumEvents (Some c) ++ tailEvs).
      split_and!.
      * rewrite Hl, Hl1. cbn. by rewrite <- app_assoc.
      * exact Hshape.
      * rewrite Hreg. destruct Hf1 as [-> _]. apply touched_refl.
      * unfold afterPass in *. destruct Hf1 as (_ & Hp & Hn).
        rewrite Hp, Hn in Hafter. exact Hafter.
    + pose proof (drain_bt_world env w1) as Hd. cbn zeta in Hd.
      destruct Hd as (Hl2 & Hp2 & Hn2 & Ht2).
      destruct (drain (getDriversForPossibleBluetoothDevices env) w1)
        as [[btComs fin] w2].
      cbn [fst snd] in *. destruct fin as [e |].
      * exists false, [EvIsSet ev false; EvListComPorts BluetoothMatching].
        cbn [fst snd]. split_and!.
        -- rewrite Hl2, Hl1, <- app_assoc. done.
        -- rewrite Hb. by apply BtEnumRaised.
        -- destruct Hf1 as [<- _]. exact Ht2.
        -- unfold afterPass. rewrite set_btComs_same. split; [done |].
           rewrite Hp2. apply Hf1.
      * pose proof (btTail_shape env ev true btComs [] self w2) as H.
        rewrite Hb in H. specialize (H (conj eq_refl eq_refl)).
        cbn zeta in H. destruct H as (armed & tailEvs & Hl & Hshape & Hreg & Hafter).
        exists armed, ([EvIsSet ev false] ++ enumEvents None ++ tailEvs).
        split_and!.
        -- rewrite Hl, Hl2, Hl1. cbn. by rewrite <- !app_assoc.
        -- exact Hshape.
        -- rewrite Hreg. destruct Hf1 as [<- _]. exact Ht2.
        -- unfold afterPass in *. destruct Hf1 as (_ & Hp & Hn).
           rewrite Hp2, Hn2, Hp, Hn in Hafter. exact Hafter.
Qed.

Lemma usbPart_shape env self w :
  frame w (afterUsbPart env self w)
  ∧ ∃ evs, log (afterUsbPart env self w) = log w ++ evs
           ∧ UsbShape (_stopEvent self) (usbExit env self w) evs.
Proof.
  unfold afterUsbPart, usbExit. destruct (_detectUsb self).
  - apply usbPass_shape.
  - split; [done |]. exists []. rewrite app_nil_r. split; [done | by constructor].
Qed.

Lemma bgScan_unfold env self w :
  _bgScan env self w
  = match usbExit env self w with
    | LReturn => (Ok tt, self, afterUsbPart env self w)
    | LRaise e => (Raise e, self, afterUsbPart env self w)
    | LFallThrough =>
        if _detectBluetooth self
        then btPass env (_stopEvent self) self (afterUsbPart env self w)
        else (Ok tt, self, afterUsbPart env self w)
    end.
Proof.
  unfold _bgScan, usbExit, afterUsbPart. destruct (_detectUsb self); [| done].
  by destruct (usbPass env (_stopEvent self) w) as [[] w1].
Qed.

(** ** Reading the shapes *)

Lemma existsb_failed P ev l :
  (∀ d m, P (EvSetDisplayByName d m false) = false) → P (EvIsSet ev false) = false →
  existsb P (failed ev l) = false.
Proof.
  intros H1 H2. unfold failed. induction l as [| [d m] l IH]; cbn; [done |].
  by rewrite H2, H1.
Qed.

Lemma calm_none evs :
  forallb calm evs = true →
  existsb cancelEvent evs = false ∧ existsb successEvent evs = false
  ∧ existsb armEvent evs = false ∧ existsb btEnumEvent evs = false.
Proof.
  induction evs as [| e evs IH]; cbn; [done |].
  intros [He Hevs]%andb_true_iff. destruct (IH Hevs) as (-> & -> & -> & ->).
  unfold calm in He. apply negb_true_iff in He.
  rewrite !orb_false_iff in He. destruct He as [[[-> ->] ->] ->]. done.
Qed.

Lemma attempts_app evs1 evs2 : attempts (evs1 ++ evs2) = attempts evs1 ++ attempts evs2.
Proof.
  induction evs1 as [| e evs1 IH]; cbn; [done |].
  destruct e; cbn; by rewrite ?IH.
Qed.

Lemma attempts_failed ev l : attempts (failed ev l) = l.
Proof.
  unfold failed. induction l as [| [d m] l IH]; cbn; [done |]. by rewrite IH.
Qed.

Lemma newEvents_app w w' evs : log w' = log w ++ evs → newEvents w w' = evs.
Proof. intros H. unfold newEvents. by rewrite H, drop_app_length. Qed.

Lemma LoopDone_read ev btComs tried loopEvs :
  LoopDone ev btComs tried loopEvs →
  tried `prefix_of` btComs
  ∧ attempts loopEvs = tried
  ∧ existsb cancelEvent loopEvs = false
  ∧ existsb armEvent loopEvs = false
  ∧ existsb btEnumEvent loopEvs = false
  ∧ (existsb successEvent loopEvs = false → tried = btComs).
Proof.
  intros [| pre d m rest ->].
  - split_and!; try done; try by apply existsb_failed. apply attempts_failed.
  - split_and!.
    + exists rest. by rewrite <- app_assoc.
    + by rewrite attempts_app, attempts_failed.
    + rewrite existsb_app, existsb_failed; done.
    + rewrite existsb_app, existsb_failed; done.
    + rewrite existsb_app, existsb_failed; done.
    + rewrite existsb_app. cbn. by rewrite orb_true_r.
Qed.

Lemma enumEvents_read old :
  existsb cancelEvent (enumEvents old) = false
  ∧ existsb armEvent (enumEvents old) = false
  ∧ existsb successEvent (enumEvents old) = false
  ∧ attempts (enumEvents old) = []
  ∧ existsb btEnumEvent (enumEvents old) = negb (bool_decide (is_Some old)).
Proof. destruct old; cbn; split_and!; try done. Qed.

Ltac shape_side :=
  try done; try (by apply prefix_nil); try (intros; subst; cbn; done).

Lemma BtShape_read ev old btComs r new armed evs :
  BtShape ev old btComs r new armed evs →
  existsb armEvent evs = armed
  ∧ (∀ c, old = Some c → existsb btEnumEvent evs = false ∧ new = Some c)
  ∧ (existsb cancelEvent evs = true → new = old ∧ armed = false)
  ∧ (armed = true → ∃ x c, new = Some (x :: c))
  ∧ attempts evs `prefix_of` btComs
  ∧ (r = Ok tt → existsb cancelEvent evs = false →
       new = Some (match old with None => attempts evs | Some c => c end)
       ∧ (existsb successEvent evs = false → attempts evs = btComs)
       ∧ armed = negb (bool_decide
                         (match old with None => attempts evs | Some c => c end = [])))
  ∧ (old = None → existsb cancelEvent evs = false → existsb btEnumEvent evs = true)
  ∧ (old = None → ∀ cache, new = Some cache →
       r = Ok tt ∧ existsb cancelEvent evs = false).
Proof.
  destruct (enumEvents_read old) as (Ec & Ea & Es & Et & Eb).
  intros [ | e Hold | tried rest -> Hrest | tried loopEvs Hdone
         | tried loopEvs Hdone Hempty | tried loopEvs cache Hdone Hcache Hne ].
  - cbn. split_and!; shape_side.
  - subst old. cbn. split_and!; shape_side.
  - rewrite !existsb_app, !attempts_app, attempts_failed, Et, Ec, Ea, Eb, Es.
    rewrite !existsb_failed by done. cbn.
    rewrite ?app_nil_r, ?orb_true_r, ?orb_false_r.
    split_and!; shape_side.
    by exists rest.
  - destruct (LoopDone_read _ _ _ _ Hdone) as (Hp & Hat & Hc & Ha & Hb & Hs).
    rewrite !existsb_app, !attempts_app, Hat, Et, Ec, Ea, Eb, Es, Hc, Ha, Hb.
    cbn. rewrite ?app_nil_r, ?orb_true_r, ?orb_false_r.
    split_and!; shape_side.
  - destruct (LoopDone_read _ _ _ _ Hdone) as (Hp & Hat & Hc & Ha & Hb & Hs).
    rewrite !existsb_app, !attempts_app, Hat, Et, Ec, Ea, Eb, Es, Hc, Ha, Hb.
    cbn. rewrite ?app_nil_r, ?orb_true_r, ?orb_false_r.
    split_and!; shape_side.
    + intros c ->. split; [done |]. by rewrite Hempty.
    + intros _ _. rewrite Hempty. split_and!; [done | | done].
      intros Hno. by apply Hs.
  - destruct (LoopDone_read _ _ _ _ Hdone) as (Hp & Hat & Hc & Ha & Hb & Hs).
    rewrite !existsb_app, !attempts_app, Hat, Et, Ec, Ea, Eb, Es, Hc, Ha, Hb.
    cbn. rewrite ?app_nil_r, ?orb_true_r, ?orb_false_r.
    split_and!; shape_side.
    + intros _. destruct cache as [| x c]; [done |]. by exists x, c.
    + intros _ _. rewrite Hcache, bool_decide_eq_false_2 by done.
      split_and!; [done | | done]. intros Hno. by apply Hs.
Qed.

Lemma existsb_snoc {A} (P : A → bool) l x : existsb P (l ++ [x]) = existsb P l || P x.
Proof. rewrite existsb_app. cbn. by rewrite orb_false_r. Qed.

Lemma UsbShape_read ev exit evs :
  UsbShape ev exit evs →
  existsb armEvent evs = false
  ∧ existsb btEnumEvent evs = false
  ∧ (exit ≠ LReturn → forallb calm evs = true)
  ∧ (existsb successEvent evs = true →
       exit = LReturn ∧ existsb cancelEvent evs = false
       ∧ ∃ pre d m, evs = pre ++ [EvSetDisplayByName d m true] ∧ forallb calm pre = true)
  ∧ (existsb cancelEvent evs = true → exit = LReturn).
Proof.
  intros [pre H | pre d m H | e evs' H | evs' H];
    destruct (calm_none _ H) as (Hc & Hs & Ha & Hb);
    rewrite ?existsb_snoc, ?Hc, ?Hs, ?Ha, ?Hb; cbn; split_and!; try done.
  intros _. split_and!; [done | done |]. by exists pre, d, m.
Qed.

(** The two ways a pass can go: it ends with its USB part, or it runs the
    Bluetooth part after a USB part that fell through. *)
Lemma pass_cases env self w :
  let ev := _stopEvent self in
  let wU := afterUsbPart env self w in
  let res := _bgScan env self w in
  ∃ evsU,
    log wU = log w ++ evsU ∧ UsbShape ev (usbExit env self w) evsU ∧ frame w wU
    ∧ ((usbExit env self w ≠ LFallThrough ∨ _detectBluetooth self = false)
       ∧ res = (match usbExit env self w with LRaise e => Raise e | _ => Ok tt end,
                self, wU)
       ∧ newEvents w res.2 = evsU
       ∨ usbExit env self w = LFallThrough ∧ _detectBluetooth self = true
         ∧ ∃ armed evsB,
             newEvents w res.2 = evsU ++ evsB
             ∧ BtShape ev (_btComs self) (candidates env ev self wU) res.1.1
                       (_btComs res.1.2) armed evsB
             ∧ touched (registry w) (registry res.2)
             ∧ afterPass self w (_btComs res.1.2) armed res.1.2 res.2).
Proof.
  intros ev wU res. subst res. rewrite bgScan_unfold.
  destruct (usbPart_shape env self w) as (Hf & evsU & Hl & Hshape).
  fold wU in Hf, Hl |- *. fold ev in Hshape |- *.
  exists evsU. split_and!; [done | done | done |].
  destruct (usbExit env self w) as [| e |] eqn:Hexit.
  - left. split_and!; [by left | done | by apply newEvents_app].
  - left. split_and!; [by left | done | by apply newEvents_app].
  - destruct (_detectBluetooth self) eqn:Hbt.
    + right. split_and!; [done | done |].
      pose proof (btPass_shape env ev self wU) as H. cbn zeta in H.
      destruct H as (armed & evsB & HlB & HshapeB & Ht & Hafter).
      exists armed, evsB. split_and!.
      * apply newEvents_app. rewrite HlB, Hl. by rewrite <- app_assoc.
      * exact HshapeB.
      * destruct Hf as (Hr & _). by rewrite <- Hr.
      * unfold afterPass in *. destruct Hf as (_ & Hp & Hn).
        by rewrite Hp, Hn in Hafter.
    + left. split_and!; [by right | done | by apply newEvents_app].
Qed.

(** C7. When an activation attempt of the USB part of a pass returns true,
    the pass is over with it: the successful attempt is the last event of
    the whole pass, before it there was no other success, no cancellation,
    no Bluetooth enumeration and no timer, and the Detector, the registry
    and the timer are as they were at the start. *)
Theorem usb_success_ends_pass env self w :
  _detectUsb self = true →
  existsb successEvent (newEvents w (usbPass env (_stopEvent self) w).2) = true →
  _bgScan env self w = (Ok tt, self, (usbPass env (_stopEvent self) w).2)
  ∧ (∃ pre d m,
       newEvents w (_bgScan env self w).2 = pre ++ [EvSetDisplayByName d m true]
       ∧ existsb successEvent pre = false
       ∧ existsb cancelEvent pre = false
       ∧ existsb btEnumEvent pre = false
       ∧ existsb armEvent pre = false)
  ∧ registry (_bgScan env self w).2 = registry w
  ∧ pollTimer (_bgScan env self w).2 = pollTimer w.
Proof.
  intros Husb Hsucc.
  destruct (usbPass_shape env (_stopEvent self) w) as (Hf & evs & Hl & Hshape).
  rewrite (newEvents_app _ _ _ Hl) in Hsucc.
  destruct (UsbShape_read _ _ _ Hshape) as (_ & _ & _ & Hs & _).
  destruct (Hs Hsucc) as (Hexit & _ & pre & d & m & -> & Hcalm).
  assert (Hscan : _bgScan env self w
                  = (Ok tt, self, (usbPass env (_stopEvent self) w).2)).
  { rewrite bgScan_unfold. unfold usbExit, afterUsbPart. by rewrite Husb, Hexit. }
  rewrite Hscan. cbn [snd]. split_and!; [done | | apply Hf | apply Hf].
  exists pre, d, m. rewrite (newEvents_app _ _ _ Hl).
  destruct (calm_none _ Hcalm) as (? & ? & ? & ?). done.
Qed.

Lemma usb_success_ends_pass_witness :
  (_bgScan envOneHid (newDetector envOneHid) (startWorld envOneHid)).1
  = (Ok tt, newDetector envOneHid).
Proof.
  assert (Husb : _detectUsb (newDetector envOneHid) = true) by reflexivity.
  assert (Hsucc : existsb successEvent
            (newEvents (startWorld envOneHid)
               (usbPass envOneHid (_stopEvent (newDetector envOneHid))
                        (startWorld envOneHid)).2) = true) by (by vm_compute).
  destruct (usb_success_ends_pass envOneHid (newDetector envOneHid)
              (startWorld envOneHid) Husb Hsucc) as [H _].
  by rewrite H.
Defined.

Lemma bgScan_touched env self w : touched (registry w) (registry (_bgScan env self w).2).
Proof.
  pose proof (pass_cases env self w) as H. cbn zeta in H.
  destruct H as (evsU & _ & _ & Hf & [(_ & -> & _) | (_ & _ & armed & evsB & _ & _ & Ht & _)]).
  - cbn. destruct Hf as [-> _]. apply touched_refl.
  - exact Ht.
Qed.

Lemma touched_dom (reg reg' : Registry) : touched reg reg' → dom reg' = dom reg.
Proof.
  intros Ht. apply set_eq. intros d. rewrite !elem_of_dom.
  destruct (Ht d) as [-> | (devs & -> & _ & ->)]; [done |]. split; eauto.
Qed.

Lemma touched_ids (reg reg' : Registry) driver kind ids :
  touched reg reg' →
  ((∃ devs : Devs, reg !! driver = Some devs ∧ devs !! kind = Some (Ids ids)) →
   ∃ devs' : Devs, reg' !! driver = Some devs' ∧ devs' !! kind = Some (Ids ids))
  ∧ ((∃ devs' : Devs, reg' !! driver = Some devs' ∧ devs' !! kind = Some (Ids ids)) →
     (∃ devs : Devs, reg !! driver = Some devs ∧ devs !! kind = Some (Ids ids))
     ∨ kind = KEY_BLUETOOTH ∧ ids = ∅).
Proof.
  intros Ht. destruct (Ht driver) as [E | (devs & Hd & Hk & Hd')].
  - rewrite E. split; [done | by left].
  - split.
    + intros (devs0 & Hd0 & Hk0). rewrite Hd in Hd0. injection Hd0 as <-.
      exists (<[KEY_BLUETOOTH := Ids ∅]> devs). split; [done |].
      rewrite lookup_insert_ne; [done |]. intros <-. congruence.
    + intros (devs' & Hd0 & Hk0). rewrite Hd' in Hd0. injection Hd0 as <-.
      destruct (decide (KEY_BLUETOOTH = kind)) as [<- | Hne].
      * rewrite lookup_insert_eq in Hk0. injection Hk0 as <-. by right.
      * rewrite lookup_insert_ne in Hk0 by done. left. by exists devs.
Qed.

Lemma hasKey_differs (reg reg' : Registry) driver key :
  hasKey reg driver key ≠ hasKey reg' driver key → reg ≠ reg'.
Proof. intros Hne ->. done. Qed.

(** C8 (as stated, refuted). After the import the dict of "superBrl" has no
    value under [KEY_BLUETOOTH]; one [next] on its Bluetooth query puts one
    there, and so does a scan pass that finds a Bluetooth port: the registry
    is no longer the one the registrations built. *)
Lemma bluetooth_read_changes_registry :
  hasKey (registry importedWorld) "superBrl" KEY_BLUETOOTH = false
  ∧ hasKey (registry (next (getPossibleBluetoothDevicesForDriver envOneHid "superBrl")
                           importedWorld).2) "superBrl" KEY_BLUETOOTH = true
  ∧ registry (next (getPossibleBluetoothDevicesForDriver envOneHid "superBrl")
                   importedWorld).2 ≠ registry importedWorld
  ∧ registry (_bgScan envBluetooth (newDetector envBluetooth)
                      (startWorld envBluetooth)).2
    ≠ registry (startWorld envBluetooth).
Proof.
  assert (H0 : hasKey (registry importedWorld) "superBrl" KEY_BLUETOOTH = false)
    by (by vm_compute).
  assert (H1 : hasKey (registry (next (getPossibleBluetoothDevicesForDriver envOneHid
                                         "superBrl") importedWorld).2)
                      "superBrl" KEY_BLUETOOTH = true) by (by vm_compute).
  assert (H2 : hasKey (registry (_bgScan envBluetooth (newDetector envBluetooth)
                                        (startWorld envBluetooth)).2)
                      "superBrl" KEY_BLUETOOTH = true) by (by vm_compute).
  assert (H3 : hasKey (registry (startWorld envBluetooth)) "superBrl" KEY_BLUETOOTH
               = false) by (by vm_compute).
  split_and!; [exact H0 | exact H1 | |].
  - apply (hasKey_differs _ _ "superBrl" KEY_BLUETOOTH). rewrite H1, H0.
    discriminate.
  - apply (hasKey_differs _ _ "superBrl" KEY_BLUETOOTH). rewrite H2, H3.
    discriminate.
Qed.

(** C8 (amended). No scan or query operation adds, removes or renames a
    driver, changes an id set or changes a match function. USB matching,
    however far it is iterated, leaves the registry as it is. Bluetooth
    matching, the per-driver Bluetooth query, [arePossibleDevicesForDriver]
    and the background scan may do one thing to it: give the dict of a
    driver that has no value under [KEY_BLUETOOTH] the empty set there
    ([touched]). *)
Theorem registry_only_touched_by_scans env w :
  (∀ n, registry (advance n (getDriversForConnectedUsbDevices env) w).2 = registry w)
  ∧ (∀ n driver,
       registry (advance n (getConnectedUsbDevicesForDriver env driver) w).2 = registry w)
  ∧ (∀ n, touched (registry w)
            (registry (advance n (getDriversForPossibleBluetoothDevices env) w).2))
  ∧ (∀ n driver,
       touched (registry w)
         (registry (advance n (getPossibleBluetoothDevicesForDriver env driver) w).2))
  ∧ (∀ driver, touched (registry w) (registry (arePossibleDevicesForDriver env driver w).2))
  ∧ (∀ self, touched (registry w) (registry (_bgScan env self w).2))
  ∧ (∀ reg', touched (registry w) reg' →
       dom reg' = dom (registry w)
       ∧ ∀ driver,
           btPredicate reg' driver = btPredicate (registry w) driver
           ∧ ∀ kind ids,
               ((∃ devs : Devs, registry w !! driver = Some devs
                                ∧ devs !! kind = Some (Ids ids)) →
                ∃ devs' : Devs, reg' !! driver = Some devs'
                                ∧ devs' !! kind = Some (Ids ids))
               ∧ ((∃ devs' : Devs, reg' !! driver = Some devs'
                                   ∧ devs' !! kind = Some (Ids ids)) →
                  (∃ devs : Devs, registry w !! driver = Some devs
                                  ∧ devs !! kind = Some (Ids ids))
                  ∨ kind = KEY_BLUETOOTH ∧ ids = ∅)).
Proof.
  split_and!.
  - intros n.
    apply (advance_steps sameRegistry n), steps_getDriversForConnectedUsbDevices.
  - intros n driver.
    apply (advance_steps sameRegistry n), steps_getConnectedUsbDevicesForDriver.
  - intros n.
    apply (advance_steps touchedRegistry n), steps_getDriversForPossibleBluetoothDevices.
  - intros n driver.
    apply (advance_steps touchedRegistry n), steps_getPossibleBluetoothDevicesForDriver.
  - intros driver. unfold arePossibleDevicesForDriver, call.
    pose proof (next_steps touchedRegistry
                  (chain (getConnectedUsbDevicesForDriver env driver)
                         (getPossibleBluetoothDevicesForDriver env driver)) w) as H.
    destruct H as [H _].
    { apply steps_chain.
      - eapply steps_mono; [| apply steps_getConnectedUsbDevicesForDriver].
        apply sameRegistry_touched.
      - apply steps_getPossibleBluetoothDevicesForDriver. }
    destruct (next _ w) as [[[a | | e] g] w']; exact H.
  - intros self. apply bgScan_touched.
  - intros reg' Ht. split; [by apply touched_dom |]. intros driver.
    split; [by apply btPredicate_touched |]. intros kind ids. by apply touched_ids.
Qed.

Lemma registry_only_touched_witness :
  dom (registry (advance 1 (getPossibleBluetoothDevicesForDriver envOneHid "superBrl")
                         importedWorld).2)
  = dom (registry importedWorld).
Proof.
  pose proof (registry_only_touched_by_scans envOneHid importedWorld)
    as (_ & _ & _ & Hquery & _ & _ & Hread).
  exact (proj1 (Hread _ (Hquery 1 "superBrl"))).
Defined.

(** ** The poll timer *)

(** A pass that arms the timer has tried a candidate. *)
Lemma BtShape_armed_attempts ev old btComs r new evs :
  (∀ c, old = Some c → btComs = c) →
  BtShape ev old btComs r new true evs → attempts evs ≠ [].
Proof.
  intros Hc H. inversion H as [ | | | | | tried loopEvs cache Hdone Hcache Hne ].
  subst. rewrite !attempts_app.
  destruct (enumEvents_read old) as (_ & _ & _ & -> & _). cbn [app].
  assert (Htried : attempts loopEvs ≠ []).
  { destruct Hdone as [| pre d m rest Hsplit].
    - rewrite attempts_failed. destruct old as [c |]; [by rewrite (Hc c) |]. done.
    - rewrite attempts_app, attempts_failed. cbn. by destruct pre. }
  cbn. destruct (attempts loopEvs); [done |]. done.
Qed.

#[local] Instance noAttemptStep_refl : Reflexive noAttemptStep.
Proof. intros w. exists []. by rewrite app_nil_r. Qed.

#[local] Instance noAttemptStep_trans : Transitive noAttemptStep.
Proof.
  intros w1 w2 w3 (evs1 & L1 & A1) (evs2 & L2 & A2). exists (evs1 ++ evs2).
  rewrite L2, L1, <- app_assoc, attempts_app, A1, A2. done.
Qed.

Lemma steps_noAttempt_getDriversForConnectedUsbDevices env :
  steps noAttemptStep (getDriversForConnectedUsbDevices env).
Proof.
  unfold getDriversForConnectedUsbDevices, withUsbDevs. cbn.
  split; [intros w; by exists [EvListUsbDevices] |]. intros w0.
  split; [intros w; by exists [EvListHidDevices] |]. intros w1.
  split; [intros w; by exists [EvListComPorts UsbMatching] |]. intros w2.
  eapply steps_mono; [| apply steps_usb_pairs_body, pure_usbDevs].
  intros w w' <-. reflexivity.
Qed.

(** A loop over a generator that yields nothing makes no attempt. *)
Lemma usbLoop_no_candidates env ev g w :
  steps noAttemptStep g → (drain g w).1.1 = [] →
  noAttemptStep w (usbLoop env ev g w).2.
Proof.
  revert w. induction g as [| e | [d m] k IH | act k IH]; intros w Hs Hnone;
    cbn [usbLoop].
  - reflexivity.
  - reflexivity.
  - cbn [drain] in Hnone. by destruct (drain k w) as [[ys fin] w'].
  - destruct Hs as [Hact Hk]. etrans; [apply Hact |]. by apply IH.
Qed.

Lemma usbPart_no_candidates env self w :
  usbFound env self w = [] → noAttemptStep w (afterUsbPart env self w).
Proof.
  unfold usbFound, afterUsbPart, usbPass. destruct (_detectUsb self); [| reflexivity].
  destruct (isSet_spec env (_stopEvent self) w) as [_ Hl].
  destruct (isSet env (_stopEvent self) w) as [stop w1]. cbn [fst snd] in *.
  intros Hnone.
  assert (H1 : noAttemptStep w w1) by (by exists [EvIsSet (_stopEvent self) stop]).
  destruct stop; [exact H1 |].
  etrans; [exact H1 |].
  by apply usbLoop_no_candidates; [apply steps_noAttempt_getDriversForConnectedUsbDevices |].
Qed.

(** C2 (as stated, refuted). Two passes in which the timer is not armed "if
    and only if no attempt succeeded and the cache is non-empty". In the
    first, a retry pass run by the timer, the only cached candidate is tried
    in vain and the stop event is then found set: no success, a cache that
    is not empty, and no timer. In the second, the first pass after
    start-up, the Bluetooth candidate is activated, and the timer is armed
    all the same. *)
Lemma poll_timer_not_iff :
  (let first := _bgScan envCancelLate (newDetector envCancelLate)
                        (startWorld envCancelLate) in
   match pollTimerElapsed envCancelLate first.1.2 first.2 with
   | Some res =>
       existsb successEvent (newEvents first.2 res.2) = false
       ∧ cacheNonEmpty res.1.2 = true
       ∧ existsb armEvent (newEvents first.2 res.2) = false
       ∧ pollTimer res.2 = None
   | None => False
   end)
  ∧ (let res := _bgScan envBluetoothAccepts (newDetector envBluetoothAccepts)
                        (startWorld envBluetoothAccepts) in
     existsb successEvent (newEvents (startWorld envBluetoothAccepts) res.2) = true
     ∧ existsb armEvent (newEvents (startWorld envBluetoothAccepts) res.2) = true
     ∧ pollTimer res.2 = Some POLL_INTERVAL).
Proof. split; by vm_compute. Qed.

(** C2 (amended). What a scan pass does to the poll timer. A pass in which
    the stop event was found set does not arm it; neither does a pass whose
    USB part had a successful activation, nor a pass that made no activation
    attempt, as is every pass for which no candidate is found on either
    channel. A pass
    that returns normally, sees no cancellation and has no successful
    activation arms the timer if and only if Bluetooth scanning was
    requested and the cache it leaves is not empty. When the timer is armed,
    it is armed for [POLL_INTERVAL] and the next pass is Bluetooth only;
    otherwise the timer is as before the pass. *)
Theorem poll_timer_armed env self w :
  let res := _bgScan env self w in
  let evs := newEvents w res.2 in
  (existsb cancelEvent evs = true → existsb armEvent evs = false)
  ∧ (existsb successEvent (newEvents w (afterUsbPart env self w)) = true →
       existsb armEvent evs = false)
  ∧ (attempts evs = [] → existsb armEvent evs = false)
  ∧ (usbFound env self w = [] →
       candidates env (_stopEvent self) self (afterUsbPart env self w) = [] →
       attempts evs = [])
  ∧ (res.1.1 = Ok tt → existsb cancelEvent evs = false →
       existsb successEvent evs = false →
       (existsb armEvent evs = true
        ↔ _detectBluetooth self = true ∧ ∃ x c, _btComs res.1.2 = Some (x :: c)))
  ∧ (existsb armEvent evs = true →
       pollTimer res.2 = Some POLL_INTERVAL
       ∧ _detectUsb res.1.2 = false ∧ _detectBluetooth res.1.2 = true)
  ∧ (existsb armEvent evs = false → pollTimer res.2 = pollTimer w).
Proof.
  intros res evs. subst evs res.
  pose proof (pass_cases env self w) as H. cbn zeta in H.
  destruct H as (evsU & HlU & HshapeU & Hf & Hcases).
  destruct (UsbShape_read _ _ _ HshapeU) as (HaU & HbU & HcalmU & HsU & HcU).
  rewrite (newEvents_app _ _ _ HlU).
  destruct Hcases as [(Hend & Hres & Hevs) | (Hexit & Hbt & armed & evsB & Hevs & HshapeB & _ & Hafter)].
  - rewrite Hevs, Hres. clear Hevs Hres. cbn [fst snd]. split_and!; try done.
    + intros Hnone _. destruct (usbPart_no_candidates env self w Hnone) as (evs & Hl & Hat).
      rewrite HlU in Hl. by apply app_inv_head in Hl as ->.
    + intros Hr Hc Hs. split; [by rewrite HaU |].
      intros [Hbt _]. exfalso.
      destruct (usbExit env self w) as [| e |] eqn:Hexit; [| done |].
      * inversion HshapeU as [pre H | pre d m H | |]; subst.
        -- rewrite existsb_snoc in Hc. cbn in Hc. by rewrite orb_true_r in Hc.
        -- rewrite existsb_snoc in Hs. cbn in Hs. by rewrite orb_true_r in Hs.
      * destruct Hend as [? | ?]; congruence.
    + by rewrite HaU.
    + intros _. apply Hf.
  - rewrite Hevs.
    destruct (BtShape_read _ _ _ _ _ _ _ HshapeB)
      as (Harm & _ & Hcancel & Hnonempty & _ & Hok & _ & _).
    rewrite !existsb_app, attempts_app, HaU, Harm. cbn [orb].
    split_and!.
    + intros [Hc | Hc]%orb_true_iff.
      * apply HcU in Hc. congruence.
      * by destruct (Hcancel Hc).
    + intros Hs. destruct (HsU Hs) as (? & _). congruence.
    + intros [_ Hnil]%app_eq_nil. destruct armed; [| done].
      exfalso. eapply BtShape_armed_attempts; [| exact HshapeB | exact Hnil].
      intros c Hc. unfold candidates. by rewrite Hc.
    + intros Hnone Hcand.
      destruct (usbPart_no_candidates env self w Hnone) as (evs & Hl & Hat).
      rewrite HlU in Hl. apply app_inv_head in Hl as ->. rewrite Hat. cbn [app].
      destruct (BtShape_read _ _ _ _ _ _ _ HshapeB) as (_ & _ & _ & _ & Hp & _).
      rewrite Hcand in Hp. by apply prefix_nil_inv in Hp.
    + intros Hr [_ Hc]%orb_false_iff [_ Hs]%orb_false_iff.
      destruct (Hok Hr Hc) as (Hnew & _ & Harmed). split.
      * intros ->. split; [done |]. by apply Hnonempty.
      * intros (_ & x & c & Hx). rewrite Hnew in Hx. injection Hx as Hx.
        rewrite Harmed, Hx. done.
    + intros ->. unfold afterPass in Hafter. destruct Hafter as [-> ->]. done.
    + intros ->. unfold afterPass in Hafter. by destruct Hafter as [_ ->].
Qed.

Lemma poll_timer_armed_witness :
  existsb armEvent
    (newEvents (startWorld envBluetooth)
       (_bgScan envBluetooth (newDetector envBluetooth) (startWorld envBluetooth)).2)
  = true
  ∧ existsb armEvent
      (newEvents (startWorld envOneHid)
         (_bgScan envOneHid (newDetector envOneHid) (startWorld envOneHid)).2)
    = false.
Proof.
  pose proof (poll_timer_armed envBluetooth (newDetector envBluetooth)
                (startWorld envBluetooth)) as H1.
  pose proof (poll_timer_armed envOneHid (newDetector envOneHid)
                (startWorld envOneHid)) as H2.
  cbn zeta in H1, H2.
  destruct H1 as (_ & _ & _ & _ & Hiff & _). destruct H2 as (_ & Husb & _).
  split.
  - apply Hiff; [by vm_compute | by vm_compute | by vm_compute |].
    split; [by vm_compute |]. vm_compute. eexists _, _. reflexivity.
  - apply Husb. by vm_compute.
Defined.

(** ** The Bluetooth cache *)

(** C3 (as stated, refuted). First pass after start-up, no cache yet.
    Bluetooth matching finds two candidates; the first is tried in vain,
    then the stop event is found set. The candidate that was found and tried
    is not in [self._btComs]: the cache is still "not yet computed". *)
Lemma cancelled_pass_keeps_no_candidates :
  let self := newDetector envTwoBluetoothCancel in
  let w := startWorld envTwoBluetoothCancel in
  let res := _bgScan envTwoBluetoothCancel self w in
  _btComs self = None
  ∧ length (candidates envTwoBluetoothCancel (_stopEvent self) self
                       (afterUsbPart envTwoBluetoothCancel self w)) = 2
  ∧ length (attempts (newEvents w res.2)) = 1
  ∧ existsb cancelEvent (newEvents w res.2) = true
  ∧ _btComs res.1.2 = None.
Proof. by vm_compute. Qed.


(** * Further properties *)

(** ** Registration *)

Lemma entryOf_insert (reg : Registry) d (devs : Devs) d' k :
  entryOf (<[d := devs]> reg) d' k
  = if decide (d = d') then devs !! k else entryOf reg d' k.
Proof.
  unfold entryOf. case_decide as H.
  - subst. by rewrite lookup_insert_eq.
  - by rewrite lookup_insert_ne.
Qed.

(** X1.  A successful [addUsbDevices] merges: under the driver and kind it
    was given, the registry then holds the union of the ids that were
    there (none, for a new driver or kind) and the new ids; every other
    entry of the registry is as before, and no external call is made. *)
Theorem addUsbDevices_merges driver kind ids w w' :
  addUsbDevices driver kind ids w = (Ok tt, w') →
  entryOf (registry w') driver kind
  = Some (Ids (idsOf (registry w) driver kind ∪ ids))
  ∧ (∀ d k, (d, k) ≠ (driver, kind) →
       entryOf (registry w') d k = entryOf (registry w) d k)
  ∧ (is_Some (registry w' !! driver))
  ∧ log w' = log w.
Proof.
  unfold addUsbDevices, _getDriver, defaultdict_get, idsOf, entryOf.
  destruct (registry w !! driver) as [devs |] eqn:Hd.
  - destruct (devs !! kind) as [[s | g] |] eqn:Hk; cbn; intros [= <-]; cbn;
      rewrite ?lookup_insert_eq; (split_and!; [done | | by eexists | done]);
      intros d k Hne; destruct (decide (driver = d)) as [<- | Hd'];
      rewrite ?lookup_insert_eq, ?lookup_insert_ne by done; try done;
      rewrite Hd; rewrite ?lookup_insert_ne by congruence; done.
  - rewrite lookup_empty. cbn. intros [= <-]; cbn.
    rewrite ?lookup_insert_eq. split_and!; [done | | by eexists | done].
    intros d k Hne. destruct (decide (driver = d)) as [<- | Hd'].
    + rewrite !lookup_insert_eq, Hd, !lookup_insert_ne by congruence. done.
    + by rewrite !lookup_insert_ne.
Qed.

Lemma addUsbDevices_merges_witness :
  entryOf (registry (addUsbDevices "superBrl" KEY_SERIAL (usbIds ["VID_1234&PID_5678"])
                                   importedWorld).2) "superBrl" KEY_SERIAL
  = Some (Ids (idsOf (registry importedWorld) "superBrl" KEY_SERIAL
               ∪ usbIds ["VID_1234&PID_5678"])).
Proof.
  destruct (addUsbDevices "superBrl" KEY_SERIAL (usbIds ["VID_1234&PID_5678"])
                          importedWorld) as [r w'] eqn:E.
  assert (Hr : r = Ok tt).
  { change r with (fst (r, w')). rewrite <- E. by vm_compute. }
  subst r. exact (proj1 (addUsbDevices_merges _ _ _ _ _ E)).
Defined.

Lemma set_registry_twice r r' w : set_registry r (set_registry r' w) = set_registry r w.
Proof. done. Qed.

Lemma set_registry_same w : set_registry (registry w) w = w.
Proof. by destruct w. Qed.

(** [addUsbDevices] in closed form. *)
Lemma addUsbDevices_eq driver kind ids w :
  addUsbDevices driver kind ids w
  = match entryOf (registry w) driver kind with
    | Some (MatchFunc _) => (Raise AttributeError, w)
    | _ =>
        (Ok tt,
         set_registry
           (<[driver := <[kind := Ids (idsOf (registry w) driver kind ∪ ids)]>
                          (default ∅ (registry w !! driver))]> (registry w)) w)
    end.
Proof.
  unfold addUsbDevices, _getDriver, defaultdict_get, idsOf, entryOf.
  destruct (registry w !! driver) as [devs |] eqn:Hd.
  - destruct (devs !! kind) as [[s | g] |] eqn:Hk; cbn [default registry set_registry].
    + by rewrite set_registry_twice, insert_insert_eq.
    + by rewrite insert_id, set_registry_same.
    + by rewrite set_registry_twice, !insert_insert_eq.
  - rewrite lookup_empty. cbn [default registry set_registry].
    by rewrite !set_registry_twice, !insert_insert_eq.
Qed.

Lemma entryOf_insert_same (reg : Registry) d k e (devs : Devs) :
  entryOf (<[d := <[k := e]> devs]> reg) d k = Some e.
Proof. unfold entryOf. by rewrite !lookup_insert_eq. Qed.

Lemma idsOf_insert_same (reg : Registry) d k s (devs : Devs) :
  idsOf (<[d := <[k := Ids s]> devs]> reg) d k = s.
Proof. unfold idsOf. by rewrite entryOf_insert_same. Qed.

(** X2.  Registrations for the same driver and kind compose by union:
    registering [a] and then [b] leaves the same world as registering
    [a ∪ b] at once.  In particular registering the same ids again changes
    nothing. *)
Theorem addUsbDevices_twice driver kind a b w w1 :
  addUsbDevices driver kind a w = (Ok tt, w1) →
  addUsbDevices driver kind b w1 = addUsbDevices driver kind (a ∪ b) w
  ∧ addUsbDevices driver kind a w1 = (Ok tt, w1).
Proof.
  intros H. rewrite addUsbDevices_eq in H. rewrite (addUsbDevices_eq _ _ _ w).
  assert (Hw1 : w1 = set_registry
            (<[driver := <[kind := Ids (idsOf (registry w) driver kind ∪ a)]>
                           (default ∅ (registry w !! driver))]> (registry w)) w
          ∧ ∀ g, entryOf (registry w) driver kind ≠ Some (MatchFunc g)).
  { destruct (entryOf (registry w) driver kind) as [[s | g] |]; [| done |];
      injection H as <-; done. }
  clear H. destruct Hw1 as [-> Hno].
  assert (Hok : match entryOf (registry w) driver kind with
                | Some (MatchFunc _) => False
                | _ => True
                end).
  { destruct (entryOf (registry w) driver kind) as [[s | g] |]; [done | | done].
    by destruct (Hno g). }
  set (old := idsOf (registry w) driver kind).
  set (devs := default ∅ (registry w !! driver)).
  rewrite !addUsbDevices_eq. cbn [registry set_registry].
  rewrite !entryOf_insert_same, !idsOf_insert_same, !lookup_insert_eq.
  change (default ∅ (Some (<[kind:=Ids (old ∪ a)]> devs)))
    with (<[kind:=Ids (old ∪ a)]> devs).
  rewrite !set_registry_twice, !insert_insert_eq.
  assert (E1 : old ∪ a ∪ b = old ∪ (a ∪ b)) by (by rewrite (assoc_L (∪))).
  assert (E2 : old ∪ a ∪ a = old ∪ a)
    by (by rewrite <- (assoc_L (∪)), (idemp_L (∪) a)).
  rewrite E1, E2.
  by destruct (entryOf (registry w) driver kind) as [[s | g] |].
Qed.

Lemma addUsbDevices_twice_witness :
  addUsbDevices "handyTech" KEY_HID (usbIds ["VID_1FE4&PID_0003"])
    (addUsbDevices "handyTech" KEY_HID (usbIds ["VID_1FE4&PID_0054"]) emptyWorld).2
  = addUsbDevices "handyTech" KEY_HID
      (usbIds ["VID_1FE4&PID_0054"] ∪ usbIds ["VID_1FE4&PID_0003"]) emptyWorld.
Proof.
  exact (proj1 (addUsbDevices_twice "handyTech" KEY_HID (usbIds ["VID_1FE4&PID_0054"])
                  (usbIds ["VID_1FE4&PID_0003"]) emptyWorld _ eq_refl)).
Defined.

(** X3.  [addUsbDevices] raises [AttributeError] exactly when a match
    function is stored under the driver and kind it is given, and then
    leaves the world as it is; so it does for [KEY_BLUETOOTH] after
    [addBluetoothDevices] for the same driver. *)
Theorem addUsbDevices_on_match_function driver kind ids w :
  ((addUsbDevices driver kind ids w).1 = Raise AttributeError
   ↔ ∃ f, entryOf (registry w) driver kind = Some (MatchFunc f))
  ∧ ((addUsbDevices driver kind ids w).1 ≠ Ok tt →
       addUsbDevices driver kind ids w = (Raise AttributeError, w))
  ∧ (∀ f w0, w = (addBluetoothDevices driver f w0).2 → kind = KEY_BLUETOOTH →
       addUsbDevices driver kind ids w = (Raise AttributeError, w)).
Proof.
  rewrite addUsbDevices_eq. split_and!.
  - destruct (entryOf (registry w) driver kind) as [[s | g] |]; cbn; split;
      try done; try (by intros [f [=]]). by exists g.
  - by destruct (entryOf (registry w) driver kind) as [[s | g] |].
  - intros f w0 -> ->. unfold addBluetoothDevices, _getDriver.
    destruct (registry w0 !! driver) as [devs |]; cbn [snd registry set_registry];
      by rewrite entryOf_insert_same.
Qed.

Lemma addUsbDevices_on_match_function_witness :
  addUsbDevices "baum" KEY_BLUETOOTH (usbIds ["VID_0904&PID_3001"]) importedWorld
  = (Raise AttributeError, importedWorld).
Proof.
  pose proof (addUsbDevices_on_match_function "baum" KEY_BLUETOOTH
                (usbIds ["VID_0904&PID_3001"]) importedWorld) as (_ & H & _).
  apply H. by vm_compute.
Defined.

Lemma addBluetoothDevices_eq driver f w :
  addBluetoothDevices driver f w
  = (Ok tt,
     set_registry (<[driver := <[KEY_BLUETOOTH := MatchFunc f]>
                                 (default ∅ (registry w !! driver))]> (registry w)) w).
Proof.
  unfold addBluetoothDevices, _getDriver.
  destruct (registry w !! driver) as [devs |]; cbn [default registry set_registry];
    [done |]. by rewrite set_registry_twice, insert_insert_eq.
Qed.

(** X4.  [addBluetoothDevices] never raises.  Afterwards the match function
    of the driver is the one given, whatever was stored under
    [KEY_BLUETOOTH] before (a registration that follows replaces the one
    before it); every other entry of the registry is as before. *)
Theorem addBluetoothDevices_replaces driver f w :
  (addBluetoothDevices driver f w).1 = Ok tt
  ∧ btPredicate (registry (addBluetoothDevices driver f w).2) driver = Some f
  ∧ (∀ d k, (d, k) ≠ (driver, KEY_BLUETOOTH) →
       entryOf (registry (addBluetoothDevices driver f w).2) d k
       = entryOf (registry w) d k)
  ∧ (∀ g, addBluetoothDevices driver f (addBluetoothDevices driver g w).2
          = addBluetoothDevices driver f w)
  ∧ log (addBluetoothDevices driver f w).2 = log w.
Proof.
  rewrite !addBluetoothDevices_eq. cbn [fst snd registry set_registry].
  split_and!; [done | | | | done].
  - unfold btPredicate. by rewrite !lookup_insert_eq.
  - intros d k Hne. rewrite entryOf_insert. case_decide as Hd; [| done].
    subst d. unfold entryOf. rewrite lookup_insert_ne by congruence.
    by destruct (registry w !! driver).
  - intros g. rewrite !addBluetoothDevices_eq. cbn [snd registry set_registry].
    rewrite lookup_insert_eq.
    change (default ∅ (Some ?x)) with x.
    by rewrite set_registry_twice, !insert_insert_eq.
Qed.

(** ** The registry invariant *)

Lemma touched_wf reg reg' : wfRegistry reg → touched reg reg' → wfRegistry reg'.
Proof.
  intros Hwf Ht d devs' key f Hd Hk.
  destruct (Ht d) as [Heq | (devs & Hold & Hnone & Hnew)].
  - rewrite Heq in Hd. by apply (Hwf d devs' key f).
  - rewrite Hnew in Hd. injection Hd as <-.
    destruct (decide (key = KEY_BLUETOOTH)) as [-> | Hne]; [done |].
    rewrite lookup_insert_ne in Hk by done. by apply (Hwf d devs key f).
Qed.

(** X5.  A match function is only ever stored under [KEY_BLUETOOTH]: this
    holds for the empty registry, and every registration call, whatever
    its arguments and whether it raises or not, every scan pass and every
    query of [arePossibleDevicesForDriver] keeps it. *)
Theorem wfRegistry_invariant env :
  wfRegistry (registry emptyWorld)
  ∧ (∀ stmts w, wfRegistry (registry w) → wfRegistry (registry (runAll stmts w).2))
  ∧ (∀ self w, wfRegistry (registry w) → wfRegistry (registry (_bgScan env self w).2))
  ∧ (∀ driver w, wfRegistry (registry w) →
       wfRegistry (registry (arePossibleDevicesForDriver env driver w).2)).
Proof.
  split_and!.
  - apply wfRegistry_empty.
  - intros stmts w. apply runAll_wf.
  - intros self w Hwf. eapply touched_wf; [done | apply bgScan_touched].
  - intros driver w Hwf. eapply touched_wf; [done |].
    unfold arePossibleDevicesForDriver, call.
    pose proof (next_steps touchedRegistry
                  (chain (getConnectedUsbDevicesForDriver env driver)
                         (getPossibleBluetoothDevicesForDriver env driver)) w) as [Hn _].
    { apply steps_chain.
      - eapply steps_mono; [apply sameRegistry_touched |].
        apply steps_getConnectedUsbDevicesForDriver.
      - apply steps_getPossibleBluetoothDevicesForDriver. }
    destruct (next _ w) as [[r g] w3]. by destruct r.
Qed.

Lemma wfRegistry_invariant_witness :
  wfRegistry (registry (_bgScan envBluetooth (newDetector envBluetooth)
                                (runAll detectionData emptyWorld).2).2).
Proof.
  pose proof (wfRegistry_invariant envBluetooth) as (H0 & Hrun & Hscan & _).
  apply Hscan, Hrun, H0.
Defined.

(** ** USB matching: what is yielded, and how it ends *)

Lemma typeHits_notin m its : DeviceMatch.type m ∉ its.*1 → typeHits m its = 0.
Proof.
  induction its as [| [k e] its IH]; [done |]. cbn. intros Hnot.
  rewrite IH by (intros ?; apply Hnot; by right).
  unfold hit. cbn. destruct (String.eqb_spec (DeviceMatch.type m) k) as [<- | ?]; [| done].
  exfalso. apply Hnot. by left.
Qed.

Lemma typeHits_le1 m its : NoDup its.*1 → (typeHits m its ≤ 1)%nat.
Proof.
  induction its as [| [k e] its IH]; cbn; [lia |].
  intros [Hk Hnd]%NoDup_cons. specialize (IH Hnd).
  unfold hit. cbn. destruct (String.eqb_spec (DeviceMatch.type m) k) as [<- | ?]; cbn.
  - rewrite typeHits_notin by done. destruct e; [case_bool_decide |]; lia.
  - lia.
Qed.

Lemma typeHits_usbMatchb (reg : Registry) driver (devs : Devs) m :
  reg !! driver = Some devs →
  typeHits m (map_to_list devs) = if usbMatchb reg driver m then 1 else 0.
Proof.
  intros Hd. pose proof (typeHits_le1 m (map_to_list devs) (NoDup_fst_map_to_list devs)).
  pose proof (typeHits_devs m devs) as Hpos.
  unfold usbMatchb, entryOf. rewrite Hd.
  destruct (devs !! DeviceMatch.type m) as [[s | f] |] eqn:Hk.
  - case_bool_decide as Hin.
    + assert (0 < typeHits m (map_to_list devs)) by (apply Hpos; eauto). lia.
    + destruct (typeHits m (map_to_list devs)) as [| n]; [done |].
      exfalso. destruct Hpos as [Hpos _].
      destruct Hpos as (s' & [= <-] & ?); [lia | done].
  - destruct (typeHits m (map_to_list devs)) as [| n]; [done |].
    exfalso. destruct Hpos as [Hpos _]. destruct Hpos as (s' & [=] & ?). lia.
  - destruct (typeHits m (map_to_list devs)) as [| n]; [done |].
    exfalso. destruct Hpos as [Hpos _]. destruct Hpos as (s' & [=] & ?). lia.
Qed.

Lemma usbMatchb_unregistered (reg : Registry) driver m :
  reg !! driver = None → usbMatchb reg driver m = false.
Proof. intros H. unfold usbMatchb, entryOf. by rewrite H. Qed.

Lemma flat_map_replicate_filter {A} (b : A → bool) (l : list A) :
  flat_map (fun x => replicate (if b x then 1 else 0) x) l = List.filter b l.
Proof.
  induction l as [| x l IH]; [done |]. cbn. rewrite IH. by destruct (b x).
Qed.

Lemma usbPairs_filter (reg : Registry) m :
  usbPairs m (map_to_list reg)
  = (fun d => (d, m)) <$> List.filter (fun d => usbMatchb reg d m) (driverNames reg).
Proof.
  unfold usbPairs, driverNames.
  assert (Hall : ∀ d devs, (d, devs) ∈ map_to_list reg → reg !! d = Some devs).
  { intros d devs. apply elem_of_map_to_list. }
  induction (map_to_list reg) as [| [d devs] l IH]; [done |].
  cbn. rewrite IH by (intros; apply Hall; by right).
  rewrite (typeHits_usbMatchb reg d devs m) by (apply Hall; by left).
  by destruct (usbMatchb reg d m).
Qed.

Lemma usbMatchb_spec reg driver m : usbMatchb reg driver m = true ↔ usbMatches reg driver m.
Proof.
  unfold usbMatchb, usbMatches, entryOf. split.
  - destruct (reg !! driver) as [devs |]; [| done].
    destruct (devs !! DeviceMatch.type m) as [[s | f] |] eqn:Hk; try done.
    intros Hin%bool_decide_eq_true. by exists devs, s.
  - intros (devs & s & -> & -> & Hin). by apply bool_decide_eq_true.
Qed.

(** The records yielded for one driver, and the pairs yielded for all
    drivers, when the generators are run to their end. *)
Lemma usb_yields env w :
  wfRegistry (registry w) →
  (drain (getDriversForConnectedUsbDevices env) w).1.1
  = flat_map (fun m => (fun d => (d, m))
                         <$> List.filter (fun d => usbMatchb (registry w) d m)
                                         (driverNames (registry w)))
             (items (enumerated env w))
  ∧ ∀ driver, is_Some (registry w !! driver) →
      (drain (getConnectedUsbDevicesForDriver env driver) w).1.1
      = List.filter (usbMatchb (registry w) driver) (items (enumerated env w)).
Proof.
  intros Hwf. split.
  - rewrite drain_getDriversForConnectedUsbDevices by done. cbn [fst].
    induction (items (enumerated env w)) as [| m l IH]; [done |].
    cbn [flat_map]. by rewrite IH, usbPairs_filter.
  - intros driver [devs Hd].
    rewrite (drain_getConnectedUsbDevicesForDriver env driver devs) by done. cbn [fst].
    rewrite <- flat_map_replicate_filter.
    induction (items (enumerated env w)) as [| m l IH]; [done |].
    cbn [flat_map]. by rewrite IH, (typeHits_usbMatchb (registry w) driver devs).
Qed.

Lemma filter_pairs_of_driver {A} (b : string → bool) (names : list string) driver (m : A) :
  NoDup names →
  snd <$> List.filter (fun x => String.eqb x.1 driver)
                      ((fun d => (d, m)) <$> List.filter b names)
  = if b driver && bool_decide (driver ∈ names) then [m] else [].
Proof.
  induction names as [| d names IH]; [by rewrite andb_false_r |].
  intros [Hd Hnd]%NoDup_cons. specialize (IH Hnd). cbn [List.filter].
  destruct (String.eqb_spec d driver) as [-> | Hne].
  - rewrite (bool_decide_eq_true_2 (driver ∈ driver :: names)) by (by left).
    rewrite andb_true_r.
    rewrite (bool_decide_eq_false_2 (driver ∈ names)), andb_false_r in IH by done.
    destruct (b driver); [| done].
    cbn. rewrite String.eqb_refl. cbn. by rewrite IH.
  - assert (bool_decide (driver ∈ d :: names) = bool_decide (driver ∈ names)) as ->.
    { apply bool_decide_ext. rewrite elem_of_cons.
      split; [intros [Heq | ?]; [by subst | done] | by right]. }
    destruct (b d); [| done]. cbn.
    destruct (String.eqb_spec d driver) as [? | _]; [done |]. done.
Qed.

Lemma elem_of_driverNames (reg : Registry) d : d ∈ driverNames reg ↔ is_Some (reg !! d).
Proof.
  unfold driverNames. rewrite list_elem_of_fmap. split.
  - intros ([d' devs] & -> & Hin%elem_of_map_to_list). by exists devs.
  - intros [devs Hd]. exists (d, devs). split; [done |]. by apply elem_of_map_to_list.
Qed.

(** X6.  Run to their end over a registry built by registration calls, the
    USB matching functions yield the reported records in the order of the
    enumeration (custom devices, HID devices, serial ports): the one for a
    driver yields each record once when the ids of the driver under the
    type of the record contain its id, and not at all otherwise; the one
    for all drivers yields for each record one pair for every such driver
    before it goes on to the next record.  The pairs of a driver are
    therefore the records yielded for that driver alone. *)
Theorem usb_matching_yields env w :
  wfRegistry (registry w) →
  let pairs := (drain (getDriversForConnectedUsbDevices env) w).1.1 in
  pairs = flat_map (fun m => (fun d => (d, m))
                               <$> List.filter (fun d => usbMatchb (registry w) d m)
                                               (driverNames (registry w)))
                   (items (enumerated env w))
  ∧ ∀ driver, is_Some (registry w !! driver) →
      (drain (getConnectedUsbDevicesForDriver env driver) w).1.1
      = List.filter (usbMatchb (registry w) driver) (items (enumerated env w))
      ∧ snd <$> List.filter (fun x => String.eqb x.1 driver) pairs
        = (drain (getConnectedUsbDevicesForDriver env driver) w).1.1.
Proof.
  intros Hwf pairs. destruct (usb_yields env w Hwf) as [Hp Hs]. split; [done |].
  intros driver Hd. split; [by apply Hs |].
  rewrite (Hs driver Hd). unfold pairs. rewrite Hp. clear Hp Hs pairs.
  induction (items (enumerated env w)) as [| m l IH]; [done |].
  cbn [flat_map List.filter]. rewrite List.filter_app, fmap_app, IH.
  rewrite (filter_pairs_of_driver (fun d => usbMatchb (registry w) d m))
    by apply NoDup_fst_map_to_list.
  rewrite (bool_decide_eq_true_2 (driver ∈ driverNames (registry w)))
    by (by apply elem_of_driverNames).
  rewrite andb_true_r. by destruct (usbMatchb (registry w) driver m).
Qed.

Lemma usb_matching_yields_witness :
  (drain (getConnectedUsbDevicesForDriver envOneHid "baum") importedWorld).1.1
  = List.filter (usbMatchb (registry importedWorld) "baum")
                (items (enumerated envOneHid importedWorld)).
Proof.
  pose proof (usb_matching_yields envOneHid importedWorld importedWorld_wf) as [_ H].
  exact (proj1 (H "baum" baum_registered)).
Defined.

Lemma ending_genexp_Some {A} guard (elt : Port → result A) ports e :
  ending (genexp guard elt ports) = Some e →
  ∃ p, p ∈ ports ∧ guard p = true ∧ elt p = Raise e.
Proof.
  induction ports as [| p ports IH]; [done |]. cbn.
  destruct (guard p) eqn:Hg.
  - destruct (elt p) as [a | e'] eqn:He; cbn.
    + intros (q & ? & ? & ?)%IH. exists q. split; [by right | done].
    + intros [= ->]. exists p. split; [by left | done].
  - intros (q & ? & ? & ?)%IH. exists q. split; [by right | done].
Qed.

Lemma ending_genexp_None {A} guard (elt : Port → result A) ports p :
  ending (genexp guard elt ports) = None →
  p ∈ ports → guard p = true → ∃ a, elt p = Ok a.
Proof.
  induction ports as [| q ports IH]; [by intros _ ?%elem_of_nil |]. cbn.
  intros Hend [<- | Hin]%elem_of_cons Hg.
  - rewrite Hg in Hend. destruct (elt p) as [a | e]; [by exists a | done].
  - destruct (guard q); [destruct (elt q); [| done] |]; by apply IH.
Qed.

Lemma mkDeviceMatch_Raise kind idKey portKey (p : Port) e :
  mkDeviceMatch kind idKey portKey p = Raise e ↔
  p !! idKey = None ∧ e = KeyError idKey
  ∨ is_Some (p !! idKey) ∧ p !! portKey = None ∧ e = KeyError portKey.
Proof.
  unfold mkDeviceMatch, subscript.
  destruct (p !! idKey) as [i |]; [destruct (p !! portKey) as [q |] |]; split;
    try done; try (intros [= <-]; eauto); try (intros [[? ?] | (? & ? & ?)]; by subst).
Qed.

Lemma contains_spec key (p : Port) : contains key p = true ↔ is_Some (p !! key).
Proof. unfold contains. apply bool_decide_eq_true. Qed.

Lemma ending_enumerated env w :
  ending (enumerated env w)
  = match ending (genexp (fun _ => true) (mkDeviceMatch KEY_CUSTOM "usbID" "devicePath")
                         (listUsbDevices env (clock w))) with
    | Some e => Some e
    | None =>
        match ending (genexp (contains "usbID") (mkDeviceMatch KEY_HID "usbID" "devicePath")
                             (listHidDevices env (S (clock w)))) with
        | Some e => Some e
        | None => ending (genexp (contains "usbID") (mkDeviceMatch KEY_SERIAL "usbID" "port")
                                 (listComPorts env (S (S (clock w)))))
        end
    end.
Proof.
  unfold enumerated, usbDevs.
  rewrite !ending_chain by apply pure_genexp. done.
Qed.

Lemma ending_enumerated_faulty env w :
  is_Some (ending (enumerated env w)) ↔ faultyUsbPort env w.
Proof.
  rewrite ending_enumerated. unfold faultyUsbPort, customOk. split.
  - destruct (ending (genexp _ _ (listUsbDevices _ _))) as [e |] eqn:E1.
    { intros _. left. apply ending_genexp_Some in E1 as (p & Hin & _ & Hr).
      exists p. split; [done |].
      apply mkDeviceMatch_Raise in Hr as [[Hn _] | (_ & Hn & _)];
        intros [[? ?] [? ?]]; congruence. }
    destruct (ending (genexp _ _ (listHidDevices _ _))) as [e |] eqn:E2.
    { intros _. right; left. apply ending_genexp_Some in E2 as (p & Hin & Hg & Hr).
      exists p. apply contains_spec in Hg.
      apply mkDeviceMatch_Raise in Hr as [[Hn _] | (_ & Hn & _)].
      - rewrite Hn in Hg. by destruct Hg.
      - done. }
    intros [e E3]. right; right.
    apply ending_genexp_Some in E3 as (p & Hin & Hg & Hr).
    exists p. apply contains_spec in Hg.
    apply mkDeviceMatch_Raise in Hr as [[Hn _] | (_ & Hn & _)].
    + rewrite Hn in Hg. by destruct Hg.
    + done.
  - intros Hf.
    destruct (ending (genexp _ _ (listUsbDevices _ _))) as [e |] eqn:E1; [by eexists |].
    destruct (ending (genexp _ _ (listHidDevices _ _))) as [e |] eqn:E2; [by eexists |].
    destruct (ending (genexp _ _ (listComPorts _ _))) as [e |] eqn:E3; [by eexists |].
    exfalso. destruct Hf as [(p & Hin & Hbad) | [(p & Hin & Hid & Hn) | (p & Hin & Hid & Hn)]].
    + destruct (ending_genexp_None _ _ _ p E1 Hin eq_refl) as [m Hm].
      apply mkDeviceMatch_Ok in Hm as (_ & _ & ? & ?). apply Hbad. split; by eexists.
    + destruct (ending_genexp_None _ _ _ p E2 Hin) as [m Hm]; [by apply contains_spec |].
      apply mkDeviceMatch_Ok in Hm as (_ & _ & ? & ?). congruence.
    + destruct (ending_genexp_None _ _ _ p E3 Hin) as [m Hm]; [by apply contains_spec |].
      apply mkDeviceMatch_Ok in Hm as (_ & _ & ? & ?). congruence.
Qed.

Lemma ending_enumerated_keys env w e :
  ending (enumerated env w) = Some e →
  e = KeyError "usbID" ∨ e = KeyError "devicePath" ∨ e = KeyError "port".
Proof.
  rewrite ending_enumerated.
  destruct (ending (genexp _ _ (listUsbDevices _ _))) as [e1 |] eqn:E1.
  { intros [= ->]. apply ending_genexp_Some in E1 as (p & _ & _ & Hr).
    apply mkDeviceMatch_Raise in Hr as [[_ ->] | (_ & _ & ->)]; eauto. }
  destruct (ending (genexp _ _ (listHidDevices _ _))) as [e2 |] eqn:E2.
  { intros [= ->]. apply ending_genexp_Some in E2 as (p & _ & _ & Hr).
    apply mkDeviceMatch_Raise in Hr as [[_ ->] | (_ & _ & ->)]; eauto. }
  intros E3. apply ending_genexp_Some in E3 as (p & _ & _ & Hr).
  apply mkDeviceMatch_Raise in Hr as [[_ ->] | (_ & _ & ->)]; eauto.
Qed.

(** X7.  Over a registry built by registration calls, a USB matching
    function run to its end raises exactly when the hardware reports a
    port from which no record can be built (a custom device without
    [usbID] or [devicePath]; a HID device or serial port with a [usbID] but
    without [devicePath], respectively [port]).  The exception is then the
    [KeyError] of one of these three keys, never a [TypeError], and it is
    the same for the function for one registered driver and the one
    for all drivers. *)
Theorem usb_matching_raises_for_faulty_ports env w :
  wfRegistry (registry w) →
  let fin := (drain (getDriversForConnectedUsbDevices env) w).1.2 in
  (is_Some fin ↔ faultyUsbPort env w)
  ∧ (∀ e, fin = Some e →
       e = KeyError "usbID" ∨ e = KeyError "devicePath" ∨ e = KeyError "port")
  ∧ (∀ driver, is_Some (registry w !! driver) →
       (drain (getConnectedUsbDevicesForDriver env driver) w).1.2 = fin).
Proof.
  intros Hwf fin. unfold fin.
  rewrite drain_getDriversForConnectedUsbDevices by done. cbn [fst snd].
  split_and!.
  - apply ending_enumerated_faulty.
  - apply ending_enumerated_keys.
  - intros driver [devs Hd].
    by rewrite (drain_getConnectedUsbDevicesForDriver env driver devs).
Qed.

Lemma usb_matching_raises_for_faulty_ports_witness :
  faultyUsbPort envCustomNoId importedWorld.
Proof.
  pose proof (usb_matching_raises_for_faulty_ports envCustomNoId importedWorld
                importedWorld_wf) as [H _].
  apply H. exists (KeyError "usbID"). by vm_compute.
Defined.

(** ** [arePossibleDevicesForDriver] *)

Lemma next_chain {A} (g1 g2 : gen A) w :
  next (chain g1 g2) w
  = match next g1 w with
    | (Yielded a, k, w') => (Yielded a, chain k g2, w')
    | (StopIteration, _, w') => next g2 w'
    | (Raised e, _, w') => (Raised e, GStop, w')
    end.
Proof.
  revert w. induction g1 as [| e | a k IH | act k IH]; intros w; cbn; done.
Qed.

Lemma next_drain {A} (g : gen A) w :
  (next g w).1.1
  = match (drain g w).1 with
    | (a :: _, _) => Yielded a
    | ([], None) => StopIteration
    | ([], Some e) => Raised e
    end.
Proof.
  revert w. induction g as [| e | a k IH | act k IH]; intros w; cbn; try done.
  by destruct (drain k w) as [[ys fin] w'].
Qed.

Lemma next_pure {A} (g : gen A) w :
  pure g → firstOutcome (next g w).1.1 = pureOutcome g ∧ (next g w).2 = w.
Proof. destruct g; cbn; try done. Qed.

Lemma touchBluetooth_predicate reg_w driver f :
  btPredicate (registry reg_w) driver = Some f → touchBluetooth driver reg_w = reg_w.
Proof.
  intros (devs & Hd & Hk)%btPredicate_spec. unfold touchBluetooth, defaultdict_get.
  rewrite Hd, Hk. cbn. rewrite insert_id by done. apply set_registry_same.
Qed.

Lemma registry_afterUsbEnum w : registry (afterUsbEnum w) = registry w.
Proof. done. Qed.

(** What the first [next] on the Bluetooth generator of a registered driver
    gives. *)
Lemma next_bluetooth_registered env driver w :
  is_Some (registry w !! driver) →
  (firstOutcome (next (getPossibleBluetoothDevicesForDriver env driver) w).1.1,
   (next (getPossibleBluetoothDevicesForDriver env driver) w).2)
  = match btPredicate (registry w) driver with
    | None => (Ok false, touchBluetooth driver w)
    | Some f => (pureOutcome (btFilter f (btRecords env w)),
                 emit (EvListComPorts BluetoothMatching) w)
    end.
Proof.
  intros [devs Hd].
  destruct (btPredicate (registry w) driver) as [f |] eqn:Hp.
  - pose proof (touchBluetooth_predicate w driver f Hp) as Ht.
    apply btPredicate_spec in Hp as (devs' & Hd' & Hk).
    unfold getPossibleBluetoothDevicesForDriver. cbn [next]. rewrite Ht, Hd'.
    unfold defaultdict_get. rewrite Hk. cbn [fst next].
    fold (btRecords env w).
    destruct (next_pure (btFilter f (btRecords env w))
                (emit (EvListComPorts BluetoothMatching) w)) as [-> ->]; [| done].
    apply pure_btFilter, pure_genexp.
  - unfold getPossibleBluetoothDevicesForDriver. cbn [next].
    unfold btPredicate in Hp. rewrite Hd in Hp. rewrite Hd.
    unfold defaultdict_get in *.
    by destruct (devs !! KEY_BLUETOOTH) as [[s | f] |] eqn:Hk.
Qed.

Lemma arePossibleDevicesForDriver_next env driver w :
  arePossibleDevicesForDriver env driver w
  = (firstOutcome (next (chain (getConnectedUsbDevicesForDriver env driver)
                               (getPossibleBluetoothDevicesForDriver env driver)) w).1.1,
     (next (chain (getConnectedUsbDevicesForDriver env driver)
                  (getPossibleBluetoothDevicesForDriver env driver)) w).2).
Proof.
  unfold arePossibleDevicesForDriver, call.
  destruct (next _ w) as [[r k] w3]. by destruct r.
Qed.

(** The result of [arePossibleDevicesForDriver] for a registered driver, by
    what the two generators would give. *)
Lemma arePossibleDevicesForDriver_eq env driver w :
  wfRegistry (registry w) → is_Some (registry w !! driver) →
  arePossibleDevicesForDriver env driver w
  = match List.filter (usbMatchb (registry w) driver) (items (enumerated env w)),
          ending (enumerated env w) with
    | _ :: _, _ => (Ok true, afterUsbEnum w)
    | [], Some e => (Raise e, afterUsbEnum w)
    | [], None =>
        match btPredicate (registry w) driver with
        | None => (Ok false, touchBluetooth driver (afterUsbEnum w))
        | Some f => (pureOutcome (btFilter f (btRecords env (afterUsbEnum w))),
                     emit (EvListComPorts BluetoothMatching) (afterUsbEnum w))
        end
    end.
Proof.
  intros Hwf Hd. rewrite arePossibleDevicesForDriver_next, next_chain.
  pose proof (next_drain (getConnectedUsbDevicesForDriver env driver) w) as Hr.
  pose proof (next_getConnectedUsbDevicesForDriver_world env driver w Hd) as Hw.
  destruct (usb_yields env w Hwf) as [_ Hs]. specialize (Hs driver Hd).
  destruct Hd as [devs Hd].
  rewrite (drain_getConnectedUsbDevicesForDriver env driver devs) in Hr, Hs by done.
  cbn [fst snd] in Hr, Hs. rewrite Hs in Hr.
  destruct (next (getConnectedUsbDevicesForDriver env driver) w) as [[r k] w1].
  cbn [fst snd] in Hr, Hw. subst r w1.
  destruct (List.filter _ _) as [| m ms]; [| done].
  destruct (ending (enumerated env w)) as [e |]; [done |].
  pose proof (next_bluetooth_registered env driver (afterUsbEnum w)) as Hb.
  rewrite registry_afterUsbEnum in Hb. specialize (Hb (ex_intro _ devs Hd)).
  destruct (next (getPossibleBluetoothDevicesForDriver env driver) (afterUsbEnum w))
    as [[r k'] w2].
  cbn [fst snd] in Hb |- *. rewrite Hb. by destruct (btPredicate (registry w) driver).
Qed.

Lemma filter_nil_iff {A} (b : A → bool) (l : list A) :
  List.filter b l = [] ↔ ∀ x, x ∈ l → b x = false.
Proof.
  induction l as [| y l IH]; cbn.
  - split; [by intros _ x ?%elem_of_nil | done].
  - destruct (b y) eqn:Hy.
    + split; [done |]. intros H. specialize (H y). rewrite Hy in H.
      by discriminate H; left.
    + rewrite IH. split.
      * intros H x [-> | ?]%elem_of_cons; [done | by apply H].
      * intros H x ?. apply H. by right.
Qed.

Lemma pureOutcome_btFilter f (devices : gen DeviceMatch.t) b :
  pure devices → pureOutcome (btFilter f devices) = Ok b →
  (b = true ↔ ∃ m, m ∈ items devices ∧ f m = Ok true).
Proof.
  intros Hp. unfold pureOutcome.
  destruct (items (btFilter f devices)) as [| m ms] eqn:Hits.
  - destruct (ending (btFilter f devices)) eqn:Hend; [done |]. intros [= <-].
    split; [done |]. intros (m & Hin & Hm).
    pose proof (items_btFilter_complete f devices m Hp Hend Hin Hm) as Hbad.
    rewrite Hits in Hbad. by apply elem_of_nil in Hbad.
  - intros [= <-]. split; [| done]. intros _. exists m.
    apply items_btFilter; [done |]. rewrite Hits. by left.
Qed.

(** X8.  When [arePossibleDevicesForDriver] returns for a registered
    driver, its answer is true exactly when a reported USB record matches
    the ids of the driver, or the driver has a match function that accepts
    the record of a serial port with a Bluetooth name. *)
Theorem arePossibleDevicesForDriver_answer env driver w b :
  wfRegistry (registry w) → is_Some (registry w !! driver) →
  (arePossibleDevicesForDriver env driver w).1 = Ok b →
  (b = true ↔
   (∃ m, m ∈ items (enumerated env w) ∧ usbMatches (registry w) driver m)
   ∨ (∃ f m, btPredicate (registry w) driver = Some f
             ∧ m ∈ items (btRecords env (afterUsbEnum w)) ∧ f m = Ok true)).
Proof.
  intros Hwf Hd. rewrite arePossibleDevicesForDriver_eq by done.
  destruct (List.filter _ _) as [| m ms] eqn:Hf.
  - assert (Hno : ¬ ∃ m, m ∈ items (enumerated env w) ∧ usbMatches (registry w) driver m).
    { intros (m & Hin & Hm%usbMatchb_spec).
      pose proof (proj1 (filter_nil_iff _ _) Hf m Hin). congruence. }
    destruct (ending (enumerated env w)); [done |].
    destruct (btPredicate (registry w) driver) as [f |] eqn:Hp; cbn [fst].
    + intros Hout. apply pureOutcome_btFilter in Hout; [| apply pure_genexp].
      rewrite Hout. split.
      * intros (m & ? & ?). right. by exists f, m.
      * intros [? | (f' & m & [= <-] & ? & ?)]; [done |]. by exists m.
    + intros [= <-]. split; [done |]. by intros [? | (f' & m & [=] & _)].
  - cbn [fst]. intros [= <-]. split; [| done]. intros _. left. exists m.
    assert (Hin : m ∈ List.filter (usbMatchb (registry w) driver) (items (enumerated env w)))
      by (rewrite Hf; by left).
    apply list_elem_of_In, List.filter_In in Hin as [Hin Hm].
    split; [by apply list_elem_of_In | by apply usbMatchb_spec].
Qed.

Lemma arePossibleDevicesForDriver_answer_witness :
  ∃ m, m ∈ items (enumerated envOneHid importedWorld)
       ∧ usbMatches (registry importedWorld) "baum" m.
Proof.
  assert (Hres : (arePossibleDevicesForDriver envOneHid "baum" importedWorld).1 = Ok true)
    by (by vm_compute).
  pose proof (arePossibleDevicesForDriver_answer envOneHid "baum" importedWorld true
                importedWorld_wf baum_registered Hres) as [H _].
  destruct (H eq_refl) as [Hu | (f & m & Hp & Hin & Hm)]; [exact Hu |].
  exfalso. vm_compute in Hin. by apply elem_of_nil in Hin.
Defined.

(** X9.  [arePossibleDevicesForDriver] looks no further than it must.  For
    a registered driver it answers true as soon as a USB record matches,
    also when a port reported after it is faulty, and then the serial
    ports are not listed again for Bluetooth; when no USB record matches
    and a port is faulty, the [KeyError] goes to the caller.  The serial
    ports are listed for Bluetooth exactly when the USB part has ended
    without match or exception and the driver has a match function. *)
Theorem arePossibleDevicesForDriver_short_circuit env driver w :
  wfRegistry (registry w) → is_Some (registry w !! driver) →
  let res := arePossibleDevicesForDriver env driver w in
  let usb := List.filter (usbMatchb (registry w) driver) (items (enumerated env w)) in
  (usb ≠ [] → res = (Ok true, afterUsbEnum w))
  ∧ (∀ e, usb = [] → ending (enumerated env w) = Some e → res = (Raise e, afterUsbEnum w))
  ∧ (existsb btEnumEvent (newEvents w res.2) = true
     ↔ usb = [] ∧ ending (enumerated env w) = None
       ∧ is_Some (btPredicate (registry w) driver))
  ∧ (btPredicate (registry w) driver = None ∨ usb ≠ [] ∨ ending (enumerated env w) ≠ None →
     newEvents w res.2 = [EvListUsbDevices; EvListHidDevices; EvListComPorts UsbMatching]).
Proof.
  intros Hwf Hd res usb. unfold res. rewrite arePossibleDevicesForDriver_eq by done.
  fold usb.
  assert (Hlog : newEvents w (afterUsbEnum w)
                 = [EvListUsbDevices; EvListHidDevices; EvListComPorts UsbMatching]).
  { apply newEvents_app. cbn. by rewrite <- !app_assoc. }
  assert (Hlog' : newEvents w (touchBluetooth driver (afterUsbEnum w))
                  = [EvListUsbDevices; EvListHidDevices; EvListComPorts UsbMatching]).
  { apply newEvents_app.
    destruct (touchBluetooth_touchedWorld driver (afterUsbEnum w)) as [Hs _].
    apply sameButRegistry_fields in Hs as (-> & _). cbn. by rewrite <- !app_assoc. }
  assert (Hlog'' : newEvents w (emit (EvListComPorts BluetoothMatching) (afterUsbEnum w))
                   = [EvListUsbDevices; EvListHidDevices; EvListComPorts UsbMatching;
                      EvListComPorts BluetoothMatching]).
  { apply newEvents_app. cbn. by rewrite <- !app_assoc. }
  destruct usb as [| m ms].
  - destruct (ending (enumerated env w)) as [e |].
    + cbn [snd]. rewrite Hlog. split_and!.
      * done.
      * by intros e' _ [= <-].
      * split; [done | by intros (_ & ? & _)].
      * done.
    + destruct (btPredicate (registry w) driver) as [f |]; cbn [snd].
      * rewrite Hlog''. split_and!.
        -- done.
        -- done.
        -- split; [by eauto | done].
        -- by intros [? | [? | ?]].
      * rewrite Hlog'. split_and!.
        -- done.
        -- done.
        -- split; [done | by intros (_ & _ & [? ?])].
        -- done.
  - cbn [snd]. rewrite Hlog. split_and!.
    + done.
    + done.
    + split; [done | by intros (? & _)].
    + done.
Qed.

Lemma arePossibleDevicesForDriver_short_circuit_witness :
  arePossibleDevicesForDriver envOneHid "baum" importedWorld
  = (Ok true, afterUsbEnum importedWorld).
Proof.
  pose proof (arePossibleDevicesForDriver_short_circuit envOneHid "baum" importedWorld
                importedWorld_wf baum_registered) as (H & _).
  apply H. by vm_compute.
Defined.

(** ** Bluetooth matching: what is yielded, and how it ends *)

Lemma btFilter_total f (devices : gen DeviceMatch.t) :
  pure devices → (∀ m, m ∈ items devices → ∃ b, f m = Ok b) →
  items (btFilter f devices) = List.filter (accepts f) (items devices)
  ∧ ending (btFilter f devices) = ending devices.
Proof.
  unfold btFilter, accepts. intros Hp.
  induction devices as [| e | m0 k IH | act k IH]; cbn [for_gen items ending] in *;
    try done.
  intros Hall. destruct (IH Hp) as [IHi IHe].
  { intros m ?. apply Hall. by right. }
  destruct (Hall m0) as [b Hb]; [by left |]. cbn [List.filter]. rewrite Hb.
  destruct b; cbn [items ending]; by rewrite ?IHi, ?IHe.
Qed.

Lemma btFilter_raises f (devices : gen DeviceMatch.t) pre m rest e :
  pure devices → items devices = pre ++ m :: rest →
  (∀ m', m' ∈ pre → ∃ b, f m' = Ok b) → f m = Raise e →
  items (btFilter f devices) = List.filter (accepts f) pre
  ∧ ending (btFilter f devices) = Some e.
Proof.
  unfold btFilter, accepts. intros Hp. revert pre.
  induction devices as [| e0 | m0 k IH | act k IH]; intros pre;
    cbn [for_gen items ending] in *; try by destruct pre.
  destruct pre as [| m1 pre]; cbn [app].
  - intros [= -> Hk] _ Hm. by rewrite Hm.
  - intros [= -> Hk] Hall Hm. destruct (IH Hp pre Hk) as [IHi IHe]; [| done |].
    { intros m' ?. apply Hall. by right. }
    destruct (Hall m1) as [b Hb]; [by left |]. cbn [List.filter]. rewrite Hb.
    destruct b; cbn [items ending]; by rewrite ?IHi, ?IHe.
Qed.

Lemma drain_bluetooth_single env d f w :
  btPredicate (registry w) d = Some f →
  drain (getPossibleBluetoothDevicesForDriver env d) w
  = (items (btFilter f (btRecords env w)), ending (btFilter f (btRecords env w)),
     emit (EvListComPorts BluetoothMatching) w).
Proof.
  intros Hp. pose proof (touchBluetooth_predicate w d f Hp) as Ht.
  apply btPredicate_spec in Hp as (devs & Hd & Hk).
  unfold getPossibleBluetoothDevicesForDriver. cbn [drain]. rewrite Ht, Hd.
  unfold defaultdict_get. rewrite Hk. cbn [fst drain]. fold (btRecords env w).
  apply drain_pure, pure_btFilter, pure_genexp.
Qed.

(** X10.  Run to its end for a driver with a match function, 
    [getPossibleBluetoothDevicesForDriver] lists the serial ports once and
    leaves the registry as it is.  When the match function returns for
    every record, the records it accepts are yielded, each once and in the
    order of the ports, and the generator ends as the building of the
    records does.  When the match function raises for a record, the
    accepted ones among the records before it have been yielded and the
    exception ends the generator. *)
Theorem bluetooth_single_yields env d f w :
  btPredicate (registry w) d = Some f →
  let res := drain (getPossibleBluetoothDevicesForDriver env d) w in
  let recs := items (btRecords env w) in
  res.2 = emit (EvListComPorts BluetoothMatching) w
  ∧ ((∀ m, m ∈ recs → ∃ b, f m = Ok b) →
       res.1 = (List.filter (accepts f) recs, ending (btRecords env w)))
  ∧ (∀ pre m rest e,
       recs = pre ++ m :: rest → (∀ m', m' ∈ pre → ∃ b, f m' = Ok b) → f m = Raise e →
       res.1 = (List.filter (accepts f) pre, Some e)).
Proof.
  intros Hp res recs. unfold res. rewrite (drain_bluetooth_single env d f w Hp).
  cbn [fst snd]. split_and!.
  - done.
  - intros Hall. destruct (btFilter_total f (btRecords env w)) as [-> ->];
      [apply pure_genexp | done | done].
  - intros pre m rest e Hrecs Hall Hm.
    destruct (btFilter_raises f (btRecords env w) pre m rest e) as [-> ->];
      [apply pure_genexp | done | done | done | done].
Qed.

Lemma brailliantB_predicate :
  btPredicate (registry importedWorld) "brailliantB" = Some brailliantBMatch.
Proof. by vm_compute. Qed.

Lemma bluetooth_single_yields_witness :
  (drain (getPossibleBluetoothDevicesForDriver envBluetooth "brailliantB") importedWorld).1
  = (List.filter (accepts brailliantBMatch) (items (btRecords envBluetooth importedWorld)),
     ending (btRecords envBluetooth importedWorld)).
Proof.
  pose proof (bluetooth_single_yields envBluetooth "brailliantB" brailliantBMatch
                importedWorld brailliantB_predicate) as (_ & H & _).
  apply H. intros m Hin. apply list_elem_of_In in Hin. vm_compute in Hin.
  destruct Hin as [<- | []]. by exists true.
Defined.

Lemma ending_btRecords env w e :
  ending (btRecords env w) = Some e →
  e = KeyError "port" ∧ faultyBluetoothPort env (clock w).
Proof.
  intros (p & Hin & Hg & Hr)%ending_genexp_Some.
  apply contains_spec in Hg.
  apply mkDeviceMatch_Raise in Hr as [[Hn _] | (_ & Hn & ->)].
  - rewrite Hn in Hg. by destruct Hg.
  - split; [done |]. by exists p.
Qed.

Lemma ending_btRecords_faulty env w :
  faultyBluetoothPort env (clock w) → ending (btRecords env w) = Some (KeyError "port").
Proof.
  intros (p & Hin & Hname & Hport).
  destruct (ending (btRecords env w)) as [e |] eqn:E.
  - by apply ending_btRecords in E as [-> _].
  - destruct (ending_genexp_None _ _ _ p E Hin) as [m Hm]; [by apply contains_spec |].
    apply mkDeviceMatch_Ok in Hm as (_ & _ & _ & ?). congruence.
Qed.

(** X11.  [getDriversForPossibleBluetoothDevices] builds all records before
    it yields the first pair: when one of the serial ports has a Bluetooth
    name but no [port], it raises [KeyError] for [port] without having
    yielded anything or read any driver.  The generator for one driver
    builds the records one at a time: with a match function that returns
    for every record, it has by then yielded the accepted records of the
    ports before the faulty one. *)
Theorem bluetooth_pairs_built_eagerly env w :
  faultyBluetoothPort env (clock w) →
  drain (getDriversForPossibleBluetoothDevices env) w
  = ([], Some (KeyError "port"), emit (EvListComPorts BluetoothMatching) w)
  ∧ ∀ d f, btPredicate (registry w) d = Some f →
      (∀ m, m ∈ items (btRecords env w) → ∃ b, f m = Ok b) →
      drain (getPossibleBluetoothDevicesForDriver env d) w
      = (List.filter (accepts f) (items (btRecords env w)), Some (KeyError "port"),
         emit (EvListComPorts BluetoothMatching) w).
Proof.
  intros Hend%ending_btRecords_faulty. split.
  - unfold getDriversForPossibleBluetoothDevices. cbn [drain].
    rewrite btDevsList_genexp. fold (btRecords env w). by rewrite Hend.
  - intros d f Hp Hall. rewrite (drain_bluetooth_single env d f w Hp).
    destruct (btFilter_total f (btRecords env w)) as [-> ->];
      [apply pure_genexp | done |]. by rewrite Hend.
Qed.

Lemma bluetooth_pairs_built_eagerly_witness :
  drain (getDriversForPossibleBluetoothDevices envFaultyBluetooth) importedWorld
  = ([], Some (KeyError "port"), emit (EvListComPorts BluetoothMatching) importedWorld)
  ∧ (drain (getPossibleBluetoothDevicesForDriver envFaultyBluetooth "brailliantB")
           importedWorld).1
    = ([btBrailliantMatch], Some (KeyError "port")).
Proof.
  assert (Hf : faultyBluetoothPort envFaultyBluetooth (clock importedWorld)).
  { exists comNoPort. split_and!; [right; left | by eexists | done]. }
  pose proof (bluetooth_pairs_built_eagerly envFaultyBluetooth importedWorld Hf)
    as [Hp Hs].
  split; [exact Hp |].
  rewrite (Hs "brailliantB" brailliantBMatch brailliantB_predicate); [done |].
  intros m Hin. apply list_elem_of_In in Hin. vm_compute in Hin.
  destruct Hin as [<- | []]. by exists true.
Defined.

Lemma btInner_ending m drivers :
  (∀ e, (btInner m drivers).1.2 = Some e →
     ∃ d (devs : Devs) f, (d, devs) ∈ drivers
                          ∧ devs !! KEY_BLUETOOTH = Some (MatchFunc f) ∧ f m = Raise e)
  ∧ ((∀ d (devs : Devs) f, (d, devs) ∈ drivers →
        devs !! KEY_BLUETOOTH = Some (MatchFunc f) → ∃ b, f m = Ok b) →
     (btInner m drivers).1.2 = None).
Proof.
  induction drivers as [| [d0 devs0] drivers [IH1 IH2]]; cbn [btInner]; [done |].
  destruct (fst (defaultdict_get devs0 KEY_BLUETOOTH)) as [s | g] eqn:Hg.
  - destruct (btInner m drivers) as [[ys fin] vis]. cbn [fst snd] in *. split.
    + intros e (d & devs & f & ? & ? & ?)%IH1. exists d, devs, f. split; [by right | done].
    + intros Hall. apply IH2. intros d devs f ?. apply (Hall d). by right.
  - apply defaultdict_get_matchfunc in Hg.
    destruct (g m) as [b | e0] eqn:Hgm.
    + destruct (btInner m drivers) as [[ys fin] vis]. cbn [fst snd] in *. split.
      * intros e (d & devs & f & ? & ? & ?)%IH1. exists d, devs, f.
        split; [by right | done].
      * intros Hall. apply IH2. intros d devs f ?. apply (Hall d). by right.
    + cbn [fst snd]. split.
      * intros e [= <-]. exists d0, devs0, g. split; [by left | done].
      * intros Hall. destruct (Hall d0 devs0 g) as [b Hb]; [by left | done |].
        congruence.
Qed.

Lemma drain_bt_outer_ending ms w :
  let r := drain (for_list ms
                    (fun (m : DeviceMatch.t) k =>
                       GStep (fun w => w) (fun w =>
                         btDriversLoop m (map_to_list (registry w)) k))
                    GStop) w in
  (∀ e, r.1.2 = Some e →
     ∃ d f m, m ∈ ms ∧ btPredicate (registry w) d = Some f ∧ f m = Raise e)
  ∧ ((∀ d f m, m ∈ ms → btPredicate (registry w) d = Some f → ∃ b, f m = Ok b) →
     r.1.2 = None).
Proof.
  unfold for_list. revert w. induction ms as [| m0 ms IH]; intros w.
  - cbn. done.
  - cbn [foldr drain]. rewrite drain_btDriversLoop.
    destruct (btInner_ending m0 (map_to_list (registry w))) as [Hi1 Hi2].
    destruct (btInner m0 (map_to_list (registry w))) as [[ys fin] vis].
    cbn [fst snd] in Hi1, Hi2.
    pose proof (touchDrivers_touchedWorld vis w) as Hw1.
    assert (Hpred : ∀ d, btPredicate (registry (touchDrivers vis w)) d
                         = btPredicate (registry w) d).
    { intros d. apply btPredicate_touched, Hw1. }
    destruct fin as [e0 |].
    + cbn [fst snd]. split.
      * intros e [= <-]. destruct (Hi1 e0 eq_refl) as (d & devs & f & Hin & Hk & Hf).
        exists d, f, m0. split_and!; [by left | | done].
        apply btPredicate_spec. exists devs. by apply elem_of_map_to_list in Hin.
      * intros Hall. apply Hi2. intros d devs f Hin Hk. apply (Hall d f m0); [by left |].
        apply btPredicate_spec. exists devs. by apply elem_of_map_to_list in Hin.
    + specialize (IH (touchDrivers vis w)). cbn zeta in IH.
      destruct (drain _ (touchDrivers vis w)) as [[zs fin'] w'].
      cbn [prepend fst snd] in *. destruct IH as [IH1 IH2]. split.
      * intros e (d & f & m & Hin & Hp & Hf)%IH1. exists d, f, m.
        split_and!; [by right | by rewrite <- Hpred | done].
      * intros Hall. apply IH2. intros d f m Hin Hp. apply (Hall d f m); [by right |].
        by rewrite <- Hpred.
Qed.

(** X12.  [getDriversForPossibleBluetoothDevices] run to its end raises only
    what the building of the records raises, the [KeyError] for [port] of
    a serial port with a Bluetooth name but without [port], or what the
    match function of a registered driver raises on one of the records.
    It raises nothing when no port is faulty in this way and every
    registered match function returns for every record. *)
Theorem bluetooth_pairs_raises env w :
  let fin := (drain (getDriversForPossibleBluetoothDevices env) w).1.2 in
  (∀ e, fin = Some e →
     e = KeyError "port" ∧ faultyBluetoothPort env (clock w)
     ∨ ∃ d f m, btPredicate (registry w) d = Some f
                ∧ m ∈ items (btRecords env w) ∧ f m = Raise e)
  ∧ (¬ faultyBluetoothPort env (clock w) →
     (∀ d f m, btPredicate (registry w) d = Some f → m ∈ items (btRecords env w) →
               ∃ b, f m = Ok b) →
     fin = None).
Proof.
  intros fin. unfold fin, getDriversForPossibleBluetoothDevices. cbn [drain].
  rewrite btDevsList_genexp. fold (btRecords env w).
  destruct (ending (btRecords env w)) as [e0 |] eqn:Hend.
  - apply ending_btRecords in Hend as [-> Hf]. cbn [fst snd]. split.
    + intros e [= <-]. by left.
    + by intros Hno _.
  - destruct (drain_bt_outer_ending (items (btRecords env w))
                (emit (EvListComPorts BluetoothMatching) w)) as [H1 H2]. split.
    + intros e (d & f & m & Hin & Hp & Hf)%H1. right. by exists d, f, m.
    + intros _ Hall. apply H2. intros d f m Hin Hp. by apply (Hall d f m).
Qed.

(** ** Runs of registration statements *)

Lemma addUsbDevices_idsOf d k ids w w' d' k' :
  addUsbDevices d k ids w = (Ok tt, w') →
  idsOf (registry w') d' k'
  = idsOf (registry w) d' k' ∪ (if decide (d = d' ∧ k = k') then ids else ∅).
Proof.
  rewrite addUsbDevices_eq.
  destruct (entryOf (registry w) d k) as [[s | g] |] eqn:He; intros [= <-];
    cbn [registry set_registry]; unfold idsOf at 1; rewrite entryOf_insert;
    (destruct (decide (d = d')) as [<- | Hd];
     [destruct (decide (k = k')) as [<- | Hk] |]);
    rewrite ?lookup_insert_eq, ?lookup_insert_ne by done.
  all: try (rewrite decide_True by done; done).
  all: try (rewrite decide_False by (intros [? ?]; done); rewrite (right_id_L ∅ (∪))).
  all: try done.
  all: unfold idsOf, entryOf; by destruct (registry w !! d).
Qed.

Lemma addUsbDevices_btPredicate d k ids w w' d' :
  addUsbDevices d k ids w = (Ok tt, w') →
  btPredicate (registry w') d' = btPredicate (registry w) d'.
Proof.
  rewrite addUsbDevices_eq.
  destruct (entryOf (registry w) d k) as [[s | g] |] eqn:He; intros [= <-];
    cbn [registry set_registry]; unfold btPredicate;
    (destruct (decide (d = d')) as [<- | Hd];
     [| by rewrite lookup_insert_ne by done]);
    rewrite lookup_insert_eq; unfold entryOf in He;
    (destruct (decide (k = KEY_BLUETOOTH)) as [-> | Hk];
     [rewrite lookup_insert_eq | rewrite lookup_insert_ne by done]);
    destruct (registry w !! d) as [devs |]; cbn [default] in *;
    rewrite ?He; done.
Qed.

Lemma addBluetoothDevices_idsOf d f w d' k' :
  k' ≠ KEY_BLUETOOTH →
  idsOf (registry (addBluetoothDevices d f w).2) d' k' = idsOf (registry w) d' k'.
Proof.
  intros Hk. rewrite addBluetoothDevices_eq. cbn [snd registry set_registry].
  unfold idsOf. rewrite entryOf_insert.
  destruct (decide (d = d')) as [<- | Hd]; [| done].
  rewrite lookup_insert_ne by done. unfold entryOf.
  by destruct (registry w !! d).
Qed.

Lemma addBluetoothDevices_btPredicate d f w d' :
  btPredicate (registry (addBluetoothDevices d f w).2) d'
  = if decide (d = d') then Some f else btPredicate (registry w) d'.
Proof.
  rewrite addBluetoothDevices_eq. cbn [snd registry set_registry]. unfold btPredicate.
  destruct (decide (d = d')) as [<- | Hd].
  - by rewrite !lookup_insert_eq.
  - by rewrite lookup_insert_ne.
Qed.

Lemma runAll_idsOf stmts w w' d k :
  runAll stmts w = (Ok tt, w') → k ≠ KEY_BLUETOOTH →
  idsOf (registry w') d k = idsOf (registry w) d k ∪ usbUnion d k stmts.
Proof.
  intros Hrun Hk. revert w Hrun.
  induction stmts as [| [d0 k0 ids | d0 f] stmts IH]; intros w; cbn [runAll register usbUnion].
  - intros [= <-]. by rewrite (right_id_L ∅ (∪)).
  - destruct (addUsbDevices d0 k0 ids w) as [[[] | e] w1] eqn:Hadd; [| done].
    intros Hrun. rewrite (IH w1 Hrun), (addUsbDevices_idsOf _ _ _ _ _ d k Hadd).
    by rewrite (assoc_L (∪)).
  - destruct (addBluetoothDevices d0 f w) as [r w1] eqn:Hadd.
    assert (r = Ok tt) as -> by (rewrite addBluetoothDevices_eq in Hadd; congruence).
    intros Hrun. rewrite (IH w1 Hrun).
    replace w1 with (addBluetoothDevices d0 f w).2 by (by rewrite Hadd).
    by rewrite addBluetoothDevices_idsOf.
Qed.

Lemma runAll_btPredicate stmts w w' d :
  runAll stmts w = (Ok tt, w') →
  btPredicate (registry w') d
  = match lastBluetooth d stmts with
    | Some f => Some f
    | None => btPredicate (registry w) d
    end.
Proof.
  revert w.
  induction stmts as [| [d0 k0 ids | d0 f] stmts IH]; intros w;
    cbn [runAll register lastBluetooth].
  - by intros [= <-].
  - destruct (addUsbDevices d0 k0 ids w) as [[[] | e] w1] eqn:Hadd; [| done].
    intros Hrun. rewrite (IH w1 Hrun).
    by rewrite (addUsbDevices_btPredicate _ _ _ _ _ d Hadd).
  - destruct (addBluetoothDevices d0 f w) as [r w1] eqn:Hadd.
    assert (r = Ok tt) as -> by (rewrite addBluetoothDevices_eq in Hadd; congruence).
    intros Hrun. rewrite (IH w1 Hrun).
    destruct (lastBluetooth d stmts); [done |].
    replace w1 with (addBluetoothDevices d0 f w).2 by (by rewrite Hadd).
    rewrite addBluetoothDevices_btPredicate. by destruct (decide (d0 = d)).
Qed.

(** X13.  After a run of registration statements that raised nothing, the
    ids of a driver under a device type are the ids it had before
    together with the ids of all [addUsbDevices] statements for that
    driver and type, and the match function of a driver is that of the
    last [addBluetoothDevices] statement for it, or the one it had before
    when there is none. *)
Theorem registrations_accumulate stmts w w' :
  runAll stmts w = (Ok tt, w') →
  (∀ d k, k ≠ KEY_BLUETOOTH →
     idsOf (registry w') d k = idsOf (registry w) d k ∪ usbUnion d k stmts)
  ∧ (∀ d, btPredicate (registry w') d
          = match lastBluetooth d stmts with
            | Some f => Some f
            | None => btPredicate (registry w) d
            end).
Proof.
  intros Hrun. split.
  - intros d k Hk. by apply runAll_idsOf.
  - intros d. by apply runAll_btPredicate.
Qed.

Lemma registrations_accumulate_witness :
  idsOf (registry importedWorld) "handyTech" KEY_HID
  = idsOf (registry emptyWorld) "handyTech" KEY_HID
    ∪ usbUnion "handyTech" KEY_HID detectionData.
Proof.
  pose proof (registrations_accumulate detectionData emptyWorld importedWorld
                import_succeeds) as [H _].
  by apply H.
Defined.

(** ** The match functions of the detection data *)

Lemma anyStartswith_str s prefixes : ∃ b, anyStartswith (VStr s) prefixes = Ok b.
Proof.
  induction prefixes as [| p ps [b IH]]; cbn; [by exists false |].
  destruct (String.prefix p s); [by exists true | by exists b].
Qed.

Lemma anyStartswith_int z p ps : anyStartswith (VInt z) (p :: ps) = Raise AttributeError.
Proof. done. Qed.

Lemma shipped_predicates d f :
  btPredicate (registry importedWorld) d = Some f →
  d = "baum" ∧ f = baumMatch ∨ d = "brailleNote" ∧ f = brailleNoteMatch
  ∨ d = "brailliantB" ∧ f = brailliantBMatch ∨ d = "handyTech" ∧ f = handyTechMatch.
Proof.
  rewrite (runAll_btPredicate detectionData emptyWorld importedWorld d import_succeeds).
  unfold detectionData. cbn [lastBluetooth].
  repeat case_decide; subst; try done; intros [= <-]; eauto 10.
Qed.

Lemma shipped_total d f m s :
  btPredicate (registry importedWorld) d = Some f →
  DeviceMatch.id m = VStr s → ∃ b, f m = Ok b.
Proof.
  intros Hp Hid.
  destruct (shipped_predicates d f Hp) as [[_ ->] | [[_ ->] | [[_ ->] | [_ ->]]]].
  - unfold baumMatch. rewrite Hid. apply anyStartswith_str.
  - unfold brailleNoteMatch. rewrite Hid. destruct (existsb _ _); cbn; by eexists.
  - unfold brailliantBMatch. rewrite Hid. cbn.
    destruct (String.prefix _ _); by eexists.
  - unfold handyTechMatch. rewrite Hid. apply anyStartswith_str.
Qed.

Lemma btRecords_id env w m :
  m ∈ items (btRecords env w) →
  ∃ p : Port, p ∈ listComPorts env (clock w)
              ∧ p !! "bluetoothName" = Some (DeviceMatch.id m)
              ∧ p !! "port" = Some (DeviceMatch.port m)
              ∧ DeviceMatch.deviceInfo m = p.
Proof.
  intros (p & Hin & _ & Hm)%elem_of_items_genexp.
  apply mkDeviceMatch_Ok in Hm as (_ & ? & ? & ?). by exists p.
Qed.

Lemma bluetooth_pairs_no_raise env w :
  ¬ faultyBluetoothPort env (clock w) →
  (∀ d f m, btPredicate (registry w) d = Some f → m ∈ items (btRecords env w) →
            ∃ b, f m = Ok b) →
  (drain (getDriversForPossibleBluetoothDevices env) w).1.2 = None.
Proof.
  intros Hno Hall. unfold getDriversForPossibleBluetoothDevices. cbn [drain].
  rewrite btDevsList_genexp. fold (btRecords env w).
  destruct (ending (btRecords env w)) as [e0 |] eqn:Hend.
  - by apply ending_btRecords in Hend as [_ Hf].
  - destruct (drain_bt_outer_ending (items (btRecords env w))
                (emit (EvListComPorts BluetoothMatching) w)) as [_ H2].
    apply H2. intros d f m Hin Hp. by apply (Hall d f m).
Qed.

(** X14.  The match functions of the detection data return for every
    record whose id is a string; on an id that is not a string they raise
    [AttributeError], except that the one of [brailleNote] accepts a record
    whose Bluetooth address is in its range without looking at the id.
    So Bluetooth matching over the shipped registry, also after reads
    have touched it, raises nothing when every serial port with a
    Bluetooth name has a string for it and has a [port]. *)
Theorem shipped_match_functions d f :
  btPredicate (registry importedWorld) d = Some f →
  (∀ m s, DeviceMatch.id m = VStr s → ∃ b, f m = Ok b)
  ∧ (∀ m z, DeviceMatch.id m = VInt z →
       f m = Raise AttributeError ∨ d = "brailleNote" ∧ f m = Ok true)
  ∧ (∀ env w,
       touched (registry importedWorld) (registry w) →
       (∀ (p : Port) v, p ∈ listComPorts env (clock w) → p !! "bluetoothName" = Some v →
                        (∃ s, v = VStr s) ∧ is_Some (p !! "port")) →
       (drain (getDriversForPossibleBluetoothDevices env) w).1.2 = None).
Proof.
  intros Hp. split_and!.
  - intros m s. by apply (shipped_total d).
  - intros m z Hid.
    destruct (shipped_predicates d f Hp) as [[_ ->] | [[-> ->] | [[_ ->] | [_ ->]]]].
    + left. unfold baumMatch. by rewrite Hid.
    + unfold brailleNoteMatch. rewrite Hid. destruct (existsb _ _); cbn; eauto.
    + left. unfold brailliantBMatch. by rewrite Hid.
    + left. unfold handyTechMatch. by rewrite Hid.
  - intros env w Ht Hports. apply bluetooth_pairs_no_raise.
    + intros (p & Hin & [v Hv] & Hport). destruct (Hports p v Hin Hv) as [_ [q Hq]].
      congruence.
    + intros d' f' m Hp' (p & Hin & Hname & _)%btRecords_id.
      rewrite (btPredicate_touched _ _ d' Ht) in Hp'.
      destruct (Hports p _ Hin Hname) as [[s Hs] _].
      by apply (shipped_total d' f' m s).
Qed.

Lemma shipped_match_functions_witness :
  ∃ b, baumMatch btBrailliantMatch = Ok b.
Proof.
  pose proof (shipped_match_functions "baum" baumMatch baum_predicate) as [H _].
  by apply (H btBrailliantMatch "Brailliant B80").
Defined.

(** ** Stopping, rescanning, terminating *)

Lemma isSet_set env ev w :
  ev ∈ stopSet w → isSet env ev w = (true, emit (EvIsSet ev true) w).
Proof. intros H. unfold isSet. by rewrite bool_decide_eq_true_2. Qed.

Lemma stopBgScan_sets env self w : _stopEvent self ∈ stopSet (_stopBgScan env self w).2.
Proof.
  unfold _stopBgScan. case_bool_decide; [destruct (cancelWaitableTimer _ _) |]; cbn;
    set_solver.
Qed.

(** X15.  A pass that finds its stop event set when it starts does
    nothing: it checks the event once (not at all when it has neither a
    USB nor a Bluetooth part) and returns, without listing devices, trying
    a display, arming the timer or touching the Detector.  The stop event
    of the Detector is set after [_stopBgScan] and after [terminate],
    whether they raise or not, so a pass of this Detector that is still
    pending then does nothing. *)
Theorem cancelled_pass_does_nothing env self w :
  (_stopEvent self ∈ stopSet w →
   _bgScan env self w
   = (Ok tt, self,
      if _detectUsb self || _detectBluetooth self
      then emit (EvIsSet (_stopEvent self) true) w else w))
  ∧ _stopEvent self ∈ stopSet (_stopBgScan env self w).2
  ∧ (terminate env self w).1.2 = self
  ∧ _stopEvent self ∈ stopSet (terminate env self w).2.
Proof.
  split_and!.
  - intros Hset. unfold _bgScan, usbPass, btPass.
    destruct (_detectUsb self); cbn [orb].
    + by rewrite isSet_set.
    + destruct (_detectBluetooth self); [| done]. by rewrite isSet_set.
  - apply stopBgScan_sets.
  - unfold terminate. by destruct (_stopBgScan env self _) as [[[] | e] w1].
  - unfold terminate.
    pose proof (stopBgScan_sets env self (emit EvUnregister w)) as H.
    by destruct (_stopBgScan env self _) as [[[] | e] w1].
Qed.

Lemma cancelled_pass_does_nothing_witness :
  _bgScan envBluetooth (newDetector envBluetooth)
          (terminate envBluetooth (newDetector envBluetooth) (startWorld envBluetooth)).2
  = (Ok tt, newDetector envBluetooth,
     emit (EvIsSet (_stopEvent (newDetector envBluetooth)) true)
          (terminate envBluetooth (newDetector envBluetooth) (startWorld envBluetooth)).2).
Proof.
  pose proof (cancelled_pass_does_nothing envBluetooth (newDetector envBluetooth)
                (terminate envBluetooth (newDetector envBluetooth)
                           (startWorld envBluetooth)).2) as [H _].
  pose proof (cancelled_pass_does_nothing envBluetooth (newDetector envBluetooth)
                (startWorld envBluetooth)) as (_ & _ & _ & Hset).
  exact (H Hset).
Defined.

Lemma stopBgScan_eq env self w :
  _stopBgScan env self w
  = let w1 := emit (EvEventSet (_stopEvent self))
                   (set_stopSet ({[_stopEvent self]} ∪ stopSet w) w) in
    if cancelFails env self w then (Raise WinError, emit (EvCancelWaitableTimer false) w1)
    else if bool_decide (_pollTimerHandle self ≠ 0%Z)
         then (Ok tt, set_pollTimer None (emit (EvCancelWaitableTimer true) w1))
         else (Ok tt, w1).
Proof.
  unfold _stopBgScan, cancelFails. cbn [clock emit set_stopSet].
  case_bool_decide; [| done]. by destruct (cancelWaitableTimer env (S (clock w))).
Qed.

(** X16.  [rescan] raises nothing but [WinError], and that exactly when the
    Detector has a timer handle and [CancelWaitableTimer] fails.  It has
    then set the stop event of the running scan but started no new one:
    the Detector, with its cache of Bluetooth candidates, is as before
    and neither a scan is queued nor the timer armed.  When [rescan]
    returns, the cache is dropped, a scan with USB and Bluetooth part is
    queued once, and a timer that was pending is not pending any more.
    The registry is never changed. *)
Theorem rescan_outcome env self w :
  let res := rescan env self w in
  let evs := newEvents w res.2 in
  (res.1.1 = Ok tt ∨ res.1.1 = Raise WinError)
  ∧ (res.1.1 = Raise WinError ↔ cancelFails env self w = true)
  ∧ (res.1.1 = Raise WinError →
       res.1.2 = self
       ∧ evs = [EvEventSet (_stopEvent self); EvCancelWaitableTimer false]
       ∧ pollTimer res.2 = pollTimer w)
  ∧ (res.1.1 = Ok tt →
       res.1.2 = mkDetector None (_pollTimerHandle self) true true (nextEvent w)
       ∧ List.filter (fun e => queueEvent e || armEvent e) evs = [EvQueueApc]
       ∧ pollTimer res.2
         = if bool_decide (_pollTimerHandle self ≠ 0%Z) then None else pollTimer w)
  ∧ registry res.2 = registry w
  ∧ _stopEvent self ∈ stopSet res.2.
Proof.
  intros res evs. unfold evs, res, rescan. rewrite stopBgScan_eq. cbn zeta.
  destruct (cancelFails env self w) eqn:Hc.
  - cbn [fst snd]. split_and!.
    + by right.
    + done.
    + intros _. split_and!; [done | | done].
      apply newEvents_app. cbn. by rewrite <- app_assoc.
    + done.
    + done.
    + cbn. set_solver.
  - unfold cancelFails in Hc. unfold _startBgScan.
    rewrite (bool_decide_eq_false_2 (0 ≠ 0)%Z) by (by intros []).
    case_bool_decide as Hh; cbn [fst snd].
    + split_and!.
      * by left.
      * done.
      * done.
      * intros _. split_and!; [done | | done].
        erewrite newEvents_app; [| cbn; by rewrite <- !app_assoc]. done.
      * done.
      * cbn. set_solver.
    + split_and!.
      * by left.
      * done.
      * done.
      * intros _. split_and!; [done | | done].
        erewrite newEvents_app; [| cbn; by rewrite <- !app_assoc]. done.
      * done.
      * cbn. set_solver.
Qed.

Lemma rescan_outcome_witness :
  (rescan envCancelFails (newDetector envCancelFails) (startWorld envCancelFails)).1.2
  = newDetector envCancelFails.
Proof.
  pose proof (rescan_outcome envCancelFails (newDetector envCancelFails)
                (startWorld envCancelFails)) as (_ & Hiff & Hfail & _).
  cbv zeta in Hiff, Hfail.
  assert (Hc : cancelFails envCancelFails (newDetector envCancelFails)
                           (startWorld envCancelFails) = true) by (by vm_compute).
  apply Hiff in Hc. exact (proj1 (Hfail Hc)).
Defined.

(** X17.  [terminate] unregisters [rescan] from the hardware notifications
    before anything else.  It raises nothing but [WinError], and that
    exactly when the Detector has a timer handle and [CancelWaitableTimer]
    fails; the timer handle is closed, as the last thing done, exactly when
    nothing is raised.  [terminate] never queues a scan or arms the timer,
    and leaves the Detector and the registry as they are. *)
Theorem terminate_outcome env self w :
  let res := terminate env self w in
  let evs := newEvents w res.2 in
  (∃ rest, evs = EvUnregister :: EvEventSet (_stopEvent self) :: rest)
  ∧ (res.1.1 = Ok tt ∨ res.1.1 = Raise WinError)
  ∧ (res.1.1 = Raise WinError ↔ cancelFails env self (emit EvUnregister w) = true)
  ∧ (res.1.1 = Raise WinError → existsb closeEvent evs = false)
  ∧ (res.1.1 = Ok tt → ∃ pre, evs = pre ++ [EvCloseHandle] ∧ existsb closeEvent pre = false)
  ∧ List.filter (fun e => queueEvent e || armEvent e) evs = []
  ∧ res.1.2 = self
  ∧ registry res.2 = registry w.
Proof.
  intros res evs. unfold evs, res, terminate. rewrite stopBgScan_eq. cbn zeta.
  destruct (cancelFails env self (emit EvUnregister w)) eqn:Hc.
  - cbn [fst snd].
    erewrite newEvents_app; [| cbn; by rewrite <- !app_assoc].
    split_and!; try done; [by eexists | by right].
  - case_bool_decide as Hh; cbn [fst snd];
      (erewrite newEvents_app; [| cbn; by rewrite <- !app_assoc]).
    + split_and!; try done; [by eexists | by left |].
      intros _. by exists [EvUnregister; EvEventSet (_stopEvent self);
                           EvCancelWaitableTimer true].
    + split_and!; try done; [by eexists | by left |].
      intros _. by exists [EvUnregister; EvEventSet (_stopEvent self)].
Qed.

Lemma terminate_outcome_witness :
  existsb closeEvent
    (newEvents (startWorld envCancelFails)
       (terminate envCancelFails (newDetector envCancelFails)
                  (startWorld envCancelFails)).2) = false.
Proof.
  pose proof (terminate_outcome envCancelFails (newDetector envCancelFails)
                (startWorld envCancelFails)) as (_ & _ & Hiff & Hfail & _).
  cbv zeta in Hiff, Hfail.
  assert (Hc : cancelFails envCancelFails (newDetector envCancelFails)
                           (emit EvUnregister (startWorld envCancelFails)) = true)
    by (by vm_compute).
  apply Hiff in Hc. exact (Hfail Hc).
Defined.

(** ** The order of activation attempts *)

Lemma drain_readsRegistry {A} (g : gen A) w w' :
  readsRegistry g → registry w = registry w' → (drain g w).1 = (drain g w').1.
Proof.
  revert w w'. induction g as [| e | a k IH | act k IH]; intros w w'; cbn; try done.
  - intros Hk Hreg. specialize (IH w w' Hk Hreg).
    destruct (drain k w) as [[ys fin] w1], (drain k w') as [[ys' fin'] w1'].
    cbn in *. congruence.
  - intros (Hact & Hsame & Hk) Hreg. rewrite !Hact, (Hsame w w' Hreg).
    by apply IH.
Qed.

Lemma readsRegistry_for_list {X B} (l : list X) (body : X → gen B → gen B) rest :
  readsRegistry rest → (∀ x k, readsRegistry k → readsRegistry (body x k)) →
  readsRegistry (for_list l body rest).
Proof. intros Hr Hb. induction l as [| x l IH]; cbn; [done | by apply Hb]. Qed.

Lemma readsRegistry_typesLoop {B} (y : B) m its rest :
  readsRegistry rest → readsRegistry (typesLoop y m its rest).
Proof.
  intros Hr. apply readsRegistry_for_list; [done |].
  intros [k ids] g Hg. destruct (String.eqb _ _); [| done].
  destruct ids; [by case_bool_decide | done].
Qed.

Lemma readsRegistry_usb_pairs_body (devices : gen DeviceMatch.t) :
  pure devices →
  readsRegistry (for_gen devices (fun m rest =>
                   GStep (fun w => w) (fun w =>
                     usbDriversLoop m (map_to_list (registry w)) rest))).
Proof.
  induction devices as [| e | m k IH | act k IH]; cbn; try done.
  intros Hp. split_and!; [done | by intros w w' -> |].
  intros w. apply readsRegistry_for_list; [by apply IH |].
  intros [d devs] g Hg. by apply readsRegistry_typesLoop.
Qed.

Lemma newEvents_refl w : newEvents w w = [].
Proof. unfold newEvents. by rewrite drop_all. Qed.

(** The loop over the USB candidates against what the generator would
    yield when run to its end at once. *)
Lemma usbLoop_drain env ev (g : gen (string * DeviceMatch.t)) w :
  readsRegistry g →
  registry (usbLoop env ev g w).2 = registry w
  ∧ ∃ evs,
      log (usbLoop env ev g w).2 = log w ++ evs
      ∧ attempts evs `prefix_of` (drain g w).1.1
      ∧ ((usbLoop env ev g w).1 ≠ LReturn →
           attempts evs = (drain g w).1.1
           ∧ existsb successEvent evs = false
           ∧ (usbLoop env ev g w).1
             = match (drain g w).1.2 with Some e => LRaise e | None => LFallThrough end).
Proof.
  revert w. induction g as [| e | [d m] k IH | act k IH]; intros w; cbn [usbLoop drain].
  - intros _. split; [done |]. exists []. by rewrite app_nil_r.
  - intros _. split; [done |]. exists []. by rewrite app_nil_r.
  - cbn [readsRegistry]. intros Hk.
    destruct (isSet_spec env ev w) as [(Hr1 & _) Hl1].
    destruct (isSet env ev w) as [stop w1]. cbn [fst snd] in *.
    destruct stop.
    { cbn [fst snd]. split; [done |]. exists [EvIsSet ev true].
      split_and!; [done | apply prefix_nil | done]. }
    destruct (activate_spec env d m w1) as [(Hr2 & _) Hl2].
    destruct (activate env d m w1) as [ok w2]. cbn [fst snd] in *.
    pose proof (drain_readsRegistry k w2 w Hk) as Hsame.
    rewrite Hr2, Hr1 in Hsame. specialize (Hsame eq_refl).
    destruct ok.
    { cbn [fst snd]. split; [congruence |].
      exists [EvIsSet ev false; EvSetDisplayByName d m true].
      split_and!; [by rewrite Hl2, Hl1, <- app_assoc | | done].
      destruct (drain k w) as [[ys fin] w']. cbn. apply prefix_cons, prefix_nil. }
    destruct (IH w2 Hk) as (Hr3 & evs & Hl3 & Hpre & Hend).
    split; [congruence |].
    exists ([EvIsSet ev false; EvSetDisplayByName d m false] ++ evs).
    rewrite Hsame in Hpre, Hend.
    destruct (drain k w) as [[ys fin] w']. cbn [fst snd prepend] in *.
    split_and!.
    + by rewrite Hl3, Hl2, Hl1, <- !app_assoc.
    + cbn. by apply prefix_cons.
    + intros Hne. destruct (Hend Hne) as (Ha & Hs & He).
      split_and!; [cbn; by rewrite Ha | done | done].
  - cbn [readsRegistry]. intros (Hact & Hsame & Hk). rewrite !Hact. by apply IH.
Qed.

Lemma usbLoop_enumerates env ev w :
  usbLoop env ev (getDriversForConnectedUsbDevices env) w
  = usbLoop env ev
      (for_gen (enumerated env w) (fun m rest =>
         GStep (fun w => w) (fun w =>
           usbDriversLoop m (map_to_list (registry w)) rest)))
      (afterUsbEnum w)
  ∧ drain (getDriversForConnectedUsbDevices env) w
    = drain
        (for_gen (enumerated env w) (fun m rest =>
           GStep (fun w => w) (fun w =>
             usbDriversLoop m (map_to_list (registry w)) rest)))
        (afterUsbEnum w).
Proof. done. Qed.

(** The USB part of a pass against what USB matching would yield. *)
Lemma usbPart_attempts env self w :
  ∃ evs,
    log (afterUsbPart env self w) = log w ++ evs
    ∧ attempts evs `prefix_of` usbFound env self w
    ∧ (usbExit env self w ≠ LReturn →
         attempts evs = usbFound env self w
         ∧ existsb successEvent evs = false
         ∧ (_detectUsb self = true →
              usbExit env self w
              = match (drain (getDriversForConnectedUsbDevices env)
                             (isSet env (_stopEvent self) w).2).1.2 with
                | Some e => LRaise e
                | None => LFallThrough
                end)).
Proof.
  unfold afterUsbPart, usbFound, usbExit.
  destruct (_detectUsb self); [| exists []; by rewrite app_nil_r].
  unfold usbPass.
  destruct (isSet_spec env (_stopEvent self) w) as [_ Hl1].
  destruct (isSet env (_stopEvent self) w) as [stop w1]. cbn [fst snd] in *.
  destruct stop.
  { cbn [fst snd]. exists [EvIsSet (_stopEvent self) true].
    split_and!; [done | apply prefix_nil | done]. }
  destruct (usbLoop_enumerates env (_stopEvent self) w1) as [-> ->].
  pose proof (readsRegistry_usb_pairs_body (enumerated env w1) (pure_usbDevs _ _ _)) as Hb.
  destruct (usbLoop_drain env (_stopEvent self) _ (afterUsbEnum w1) Hb)
    as (_ & evs & Hl & Hpre & Hend).
  exists ([EvIsSet (_stopEvent self) false; EvListUsbDevices; EvListHidDevices;
           EvListComPorts UsbMatching] ++ evs).
  split_and!.
  - rewrite Hl. cbn. rewrite Hl1. by rewrite <- !app_assoc.
  - done.
  - intros Hne. destruct (Hend Hne) as (? & ? & ?). done.
Qed.

(** X18.  The activation attempts of a pass come in the order of the
    candidates: first candidates of USB matching, in the order in which it
    yields them, then candidates of the Bluetooth part (the cache, or what
    Bluetooth matching yields), in their order, without gaps or
    repetitions.  A Bluetooth candidate is tried only after every USB
    candidate has been tried in vain. *)
Theorem attempts_in_order env self w :
  let res := _bgScan env self w in
  ∃ tU tB,
    attempts (newEvents w res.2) = tU ++ tB
    ∧ tU `prefix_of` usbFound env self w
    ∧ tB `prefix_of` candidates env (_stopEvent self) self (afterUsbPart env self w)
    ∧ (tB ≠ [] →
         tU = usbFound env self w
         ∧ existsb successEvent (newEvents w (afterUsbPart env self w)) = false).
Proof.
  intros res. unfold res.
  destruct (pass_cases env self w) as (evsU & HlU & HshU & _ & Hcases).
  destruct (usbPart_attempts env self w) as (evs & Hl & Hpre & Hend).
  assert (evs = evsU) as -> by (rewrite HlU in Hl; by apply app_inv_head in Hl).
  destruct Hcases as [(_ & _ & Hevs) | (Hexit & _ & armed & evsB & Hevs & HshB & _)].
  - exists (attempts evsU), []. rewrite Hevs, app_nil_r.
    split_and!; [done | done | apply prefix_nil | done].
  - exists (attempts evsU), (attempts evsB). rewrite Hevs, attempts_app.
    apply BtShape_read in HshB as (_ & _ & _ & _ & HpreB & _).
    destruct Hend as (Ha & Hs & _); [by rewrite Hexit |].
    split_and!; [done | done | done |]. intros _.
    by rewrite (newEvents_app _ _ _ HlU).
Qed.

Lemma attempts_in_order_witness :
  ∃ tU tB,
    attempts (newEvents (startWorld envBluetooth)
                (_bgScan envBluetooth (newDetector envBluetooth)
                         (startWorld envBluetooth)).2) = tU ++ tB
    ∧ tU `prefix_of` usbFound envBluetooth (newDetector envBluetooth)
                              (startWorld envBluetooth)
    ∧ tB `prefix_of` candidates envBluetooth (_stopEvent (newDetector envBluetooth))
                                (newDetector envBluetooth)
                                (afterUsbPart envBluetooth (newDetector envBluetooth)
                                              (startWorld envBluetooth)).
Proof.
  destruct (attempts_in_order envBluetooth (newDetector envBluetooth)
              (startWorld envBluetooth)) as (tU & tB & H1 & H2 & H3 & _).
  exists tU, tB. exact (conj H1 (conj H2 H3)).
Defined.

(** ** Polling *)

Lemma isSet_unset env ev w :
  nobodyCancels env → ev ∉ stopSet w → isSet env ev w = (false, emit (EvIsSet ev false) w).
Proof.
  intros Hn Hev. unfold isSet. rewrite bool_decide_eq_false_2 by done. by rewrite Hn.
Qed.

Lemma btLoop_all_fail env ev c cache w :
  nothingConnects env → nobodyCancels env → ev ∉ stopSet w →
  ∃ w', btLoop env ev false c cache w = (LFallThrough, cache, w')
        ∧ log w' = log w ++ failed ev c
        ∧ registry w' = registry w ∧ stopSet w' = stopSet w
        ∧ nextEvent w' = nextEvent w ∧ pollTimer w' = pollTimer w.
Proof.
  intros Hc Hn. revert w. induction c as [| [d m] c IH]; intros w Hev; cbn [btLoop].
  - exists w. by rewrite app_nil_r.
  - rewrite isSet_unset by done. unfold activate. rewrite Hc.
    destruct (IH (emit (EvSetDisplayByName d m false) (emit (EvIsSet ev false) w)))
      as (w' & -> & Hl & Hr & Hs & Hne & Hp); [done |].
    exists w'. split_and!; try done.
    rewrite Hl. cbn. by rewrite <- !app_assoc.
Qed.

(** A pass triggered by the timer, over a cache, when nothing connects and
    nobody cancels. *)
Lemma poll_pass env self w c :
  nothingConnects env → nobodyCancels env →
  _detectUsb self = false → _detectBluetooth self = true →
  _btComs self = Some c → c ≠ [] → _stopEvent self ∉ stopSet w →
  ∃ w', _bgScan env self w
        = (Ok tt, mkDetector (Some c) (_pollTimerHandle self) false true (nextEvent w), w')
        ∧ log w' = log w ++ [EvIsSet (_stopEvent self) false]
                         ++ failed (_stopEvent self) c
                         ++ [EvIsSet (_stopEvent self) false;
                             EvSetWaitableTimer POLL_INTERVAL]
        ∧ registry w' = registry w ∧ stopSet w' = stopSet w
        ∧ nextEvent w' = S (nextEvent w) ∧ pollTimer w' = Some POLL_INTERVAL.
Proof.
  intros Hc Hn Hu Hb Hcache Hne Hev.
  unfold _bgScan. rewrite Hu, Hb. unfold btPass.
  rewrite isSet_unset by done. rewrite Hcache. unfold btTail.
  destruct (btLoop_all_fail env (_stopEvent self) c c
              (emit (EvIsSet (_stopEvent self) false) w) Hc Hn)
    as (w1 & -> & Hl & Hr & Hs & Hnx & Hp); [done |].
  rewrite isSet_unset by (by rewrite ?Hs).
  destruct c as [| x c]; [done |].
  unfold _startBgScan. rewrite bool_decide_eq_true_2 by done.
  cbn [emit nextEvent] in *.
  eexists. split; [by rewrite Hcache, Hnx |].
  cbn [emit set_pollTimer set_nextEvent log registry stopSet nextEvent pollTimer].
  rewrite Hl, Hr, Hs. cbn [emit log registry stopSet].
  split_and!; try done. by rewrite <- !app_assoc.
Qed.

Lemma concat_replicate_S {A} n (c : list A) :
  concat (replicate (S n) c) = c ++ concat (replicate n c).
Proof. done. Qed.

(** [n] expirations of the timer, when nothing connects and nobody
    cancels. *)
Lemma polls_go_on env n self w c :
  nothingConnects env → nobodyCancels env →
  _detectUsb self = false → _detectBluetooth self = true →
  _btComs self = Some c → c ≠ [] →
  _stopEvent self ∉ stopSet w → eventsFresh w → is_Some (pollTimer w) →
  ∃ self' w' evs,
    polls env n self w = Some (self', w')
    ∧ log w' = log w ++ evs
    ∧ attempts evs = concat (replicate n c)
    ∧ existsb btEnumEvent evs = false
    ∧ existsb cancelEvent evs = false
    ∧ _btComs self' = Some c
    ∧ is_Some (pollTimer w')
    ∧ registry w' = registry w.
Proof.
  intros Hc Hn. revert self w.
  induction n as [| n IH]; intros self w Hu Hb Hcache Hne Hev Hfresh Htimer.
  - exists self, w, []. rewrite app_nil_r. by split_and!.
  - cbn [polls]. unfold pollTimerElapsed.
    destruct Htimer as [t ->].
    destruct (poll_pass env self (set_pollTimer None w) c Hc Hn Hu Hb Hcache Hne Hev)
      as (w1 & -> & Hl & Hr & Hs & Hnx & Hp).
    cbn [set_pollTimer log registry stopSet nextEvent] in *.
    assert (Hev1 : nextEvent w ∉ stopSet w1).
    { rewrite Hs. intros Hin. apply Hfresh in Hin. lia. }
    assert (Hfresh1 : eventsFresh w1).
    { intros e. rewrite Hs, Hnx. intros Hin%Hfresh. lia. }
    assert (Htimer1 : is_Some (pollTimer w1)) by (by rewrite Hp).
    destruct (IH (mkDetector (Some c) (_pollTimerHandle self) false true (nextEvent w)) w1
                eq_refl eq_refl eq_refl Hne Hev1 Hfresh1 Htimer1)
      as (self' & w' & evs & Hpolls & Hl' & Hatt & Hbt & Hcan & Hcache' & Htimer' & Hr').
    exists self', w', ([EvIsSet (_stopEvent self) false]
                       ++ failed (_stopEvent self) c
                       ++ [EvIsSet (_stopEvent self) false;
                           EvSetWaitableTimer POLL_INTERVAL] ++ evs).
    split_and!; try done.
    + rewrite Hl', Hl. by rewrite <- !app_assoc.
    + rewrite concat_replicate_S, !attempts_app, attempts_failed, Hatt. done.
    + rewrite !existsb_app, Hbt, existsb_failed by done. done.
    + rewrite !existsb_app, Hcan, existsb_failed by done. done.
    + congruence.
Qed.

(** X20.  While nothing connects and nobody cancels, polling goes on: for a
    Detector that waits for the timer with a cache of Bluetooth candidates
    that is not empty, each of [n] expirations of the timer triggers a
    pass that tries every candidate of the cache, in order, and arms the
    timer again.  The serial ports are not listed again, and cache and
    registry stay as they are. *)
Theorem polling_goes_on env n self w c :
  nothingConnects env → nobodyCancels env →
  _detectUsb self = false → _detectBluetooth self = true →
  _btComs self = Some c → c ≠ [] →
  _stopEvent self ∉ stopSet w → eventsFresh w → is_Some (pollTimer w) →
  ∃ self' w',
    polls env n self w = Some (self', w')
    ∧ attempts (newEvents w w') = concat (replicate n c)
    ∧ existsb btEnumEvent (newEvents w w') = false
    ∧ _btComs self' = Some c
    ∧ is_Some (pollTimer w')
    ∧ registry w' = registry w.
Proof.
  intros Hc Hn Hu Hb Hcache Hne Hev Hfresh Htimer.
  destruct (polls_go_on env n self w c) as (self' & w' & evs & H); try done.
  destruct H as (Hpolls & Hl & Hatt & Hbt & _ & Hcache' & Htimer' & Hr).
  exists self', w'. by rewrite (newEvents_app _ _ _ Hl).
Qed.

Lemma firstPass_bluetooth :
  _detectUsb (firstPass envBluetooth).1.2 = false
  ∧ _detectBluetooth (firstPass envBluetooth).1.2 = true
  ∧ _btComs (firstPass envBluetooth).1.2 = Some [("brailliantB", btBrailliantMatch)]
  ∧ stopSet (firstPass envBluetooth).2 = ∅
  ∧ pollTimer (firstPass envBluetooth).2 = Some POLL_INTERVAL.
Proof. split_and!; by vm_compute. Qed.

Lemma envBluetooth_quiet : nothingConnects envBluetooth ∧ nobodyCancels envBluetooth.
Proof. split; [intros t d m; reflexivity | intros t; reflexivity]. Qed.

Lemma polling_goes_on_witness :
  ∃ self' w',
    polls envBluetooth 2 (firstPass envBluetooth).1.2 (firstPass envBluetooth).2
    = Some (self', w')
    ∧ attempts (newEvents (firstPass envBluetooth).2 w')
      = concat (replicate 2 [("brailliantB", btBrailliantMatch)]).
Proof.
  destruct firstPass_bluetooth as (Hu & Hb & Hc & Hs & Hp).
  assert (Hev : _stopEvent (firstPass envBluetooth).1.2 ∉ stopSet (firstPass envBluetooth).2).
  { rewrite Hs. apply not_elem_of_empty. }
  assert (Hfresh : eventsFresh (firstPass envBluetooth).2).
  { intros e He. rewrite Hs in He. exfalso. by apply elem_of_empty in He. }
  assert (Htimer : is_Some (pollTimer (firstPass envBluetooth).2)) by (by rewrite Hp).
  destruct envBluetooth_quiet as [Hnc Hno].
  assert (Hne : [("brailliantB", btBrailliantMatch)] ≠ []) by discriminate.
  destruct (polling_goes_on envBluetooth 2 (firstPass envBluetooth).1.2
              (firstPass envBluetooth).2 [("brailliantB", btBrailliantMatch)]
              Hnc Hno Hu Hb Hc Hne Hev Hfresh Htimer)
    as (self' & w' & Hpolls & Hatt & _).
  exists self', w'. exact (conj Hpolls Hatt).
Defined.

(** ** Stop events *)

#[local] Instance sameStops_refl : Reflexive sameStops.
Proof. by intros w. Qed.

#[local] Instance sameStops_trans : Transitive sameStops.
Proof. unfold sameStops. intros w1 w2 w3 [? ?] [? ?]. split; congruence. Qed.

Lemma ownStop_refl ev w : ownStop ev w w.
Proof. unfold ownStop. split; [apply union_subseteq_r | lia]. Qed.

Lemma ownStop_trans ev w1 w2 w3 : ownStop ev w1 w2 → ownStop ev w2 w3 → ownStop ev w1 w3.
Proof.
  unfold ownStop. intros [Hs1 Hn1] [Hs2 Hn2]. split; [| lia].
  intros e He. apply Hs2 in He. apply elem_of_union in He as [He | He].
  - apply elem_of_union. by left.
  - by apply Hs1.
Qed.

Lemma sameStops_own ev w w' : sameStops w w' → ownStop ev w w'.
Proof. unfold sameStops, ownStop. intros [-> ->]. split; [apply union_subseteq_r | lia]. Qed.

Lemma steps_stops_usb env : steps sameStops (getDriversForConnectedUsbDevices env).
Proof.
  unfold getDriversForConnectedUsbDevices, withUsbDevs. cbn.
  split; [done |]. intros w0. split; [done |]. intros w1. split; [done |]. intros w2.
  eapply steps_mono; [| apply steps_usb_pairs_body, pure_usbDevs]. by intros w w' <-.
Qed.

Lemma touchBluetooth_sameStops d w : sameStops w (touchBluetooth d w).
Proof.
  destruct (touchBluetooth_touchedWorld d w) as [Hs _].
  apply sameButRegistry_fields in Hs as (_ & _ & ? & _ & ?). by split.
Qed.

Lemma steps_stops_bluetooth env :
  steps sameStops (getDriversForPossibleBluetoothDevices env).
Proof.
  unfold getDriversForPossibleBluetoothDevices. cbn.
  split; [done |]. intros w0.
  destruct (btDevsList _) as [btDevs | e]; [| done].
  apply steps_for_list; [done |]. intros m k Hk.
  split; [done |]. intros w. unfold btDriversLoop.
  apply steps_for_list; [done |]. intros [d devs] k' Hk'.
  split; [apply touchBluetooth_sameStops |]. intros _.
  destruct (fst _) as [s | f]; [done |]. by destruct (f m) as [[] | e].
Qed.

Lemma isSet_own env ev w : ownStop ev w (isSet env ev w).2.
Proof.
  unfold isSet, ownStop. case_bool_decide; [cbn; split; [apply union_subseteq_r | lia] |].
  destruct (foreignSet env (clock w)); cbn; (split; [| lia]);
    [reflexivity | apply union_subseteq_r].
Qed.

Lemma activate_own env ev d m w : ownStop ev w (activate env d m w).2.
Proof. unfold ownStop, activate. cbn. split; [apply union_subseteq_r | lia]. Qed.

Lemma usbLoop_own env ev g w :
  steps sameStops g → ownStop ev w (usbLoop env ev g w).2.
Proof.
  revert w. induction g as [| e | [d m] k IH | act k IH]; intros w; cbn [usbLoop steps].
  - intros _. apply ownStop_refl.
  - intros _. apply ownStop_refl.
  - intros Hk. pose proof (isSet_own env ev w) as H1.
    destruct (isSet env ev w) as [[] w1]; [done |]. cbn [snd] in H1.
    pose proof (activate_own env ev d m w1) as H2.
    destruct (activate env d m w1) as [[] w2]; cbn [snd] in *.
    + by eapply ownStop_trans.
    + eapply ownStop_trans; [done |]. eapply ownStop_trans; [done |]. by apply IH.
  - intros [Hact Hk]. eapply ownStop_trans; [apply sameStops_own, Hact |]. by apply IH.
Qed.

Lemma btLoop_own env ev fresh btComs cache w :
  ownStop ev w (btLoop env ev fresh btComs cache w).2.
Proof.
  revert cache w. induction btComs as [| [d m] rest IH]; intros cache w; cbn [btLoop].
  - apply ownStop_refl.
  - pose proof (isSet_own env ev w) as H1.
    destruct (isSet env ev w) as [[] w1]; [done |]. cbn [snd] in H1.
    pose proof (activate_own env ev d m w1) as H2.
    destruct (activate env d m w1) as [[] w2]; cbn [snd] in *.
    + by eapply ownStop_trans.
    + eapply ownStop_trans; [done |]. eapply ownStop_trans; [done |]. apply IH.
Qed.

Lemma startBgScan_events usb bluetooth callAfter self w :
  eventsFresh w →
  let res := _startBgScan usb bluetooth callAfter self w in
  eventsOk (res.1) (res.2) ∧ (_stopEvent (res.1) ∉ stopSet (res.2))
  ∧ stopSet (res.2) = stopSet w ∧ nextEvent (res.2) = S (nextEvent w)
  ∧ _stopEvent (res.1) = nextEvent w.
Proof.
  intros Hf. unfold _startBgScan, eventsOk, eventsFresh.
  case_bool_decide; cbn; (split_and!; [lia | | | done | done | done]);
    try (intros e He; apply Hf in He; lia); intros He; apply Hf in He; lia.
Qed.

Lemma eventsOk_own self w w' :
  eventsOk self w → ownStop (_stopEvent self) w w' → eventsOk self w'.
Proof.
  unfold eventsOk, ownStop, eventsFresh. intros [Hlt Hf] [Hsub Hle]. split; [lia |].
  intros e He. apply Hsub in He. apply elem_of_union in He as [->%elem_of_singleton | He].
  - lia.
  - apply Hf in He. lia.
Qed.

Lemma btTail_events env fresh btComs cache self w0 w :
  eventsOk self w0 → ownStop (_stopEvent self) w0 w →
  let res := btTail env (_stopEvent self) fresh btComs cache self w in
  eventsOk res.1.2 res.2 ∧ ownStop (_stopEvent self) w0 res.2.
Proof.
  intros Hok Hown. unfold btTail.
  pose proof (btLoop_own env (_stopEvent self) fresh btComs cache w) as H1.
  destruct (btLoop env (_stopEvent self) fresh btComs cache w) as [[exit c] w1].
  cbn [snd] in H1.
  assert (Hown1 : ownStop (_stopEvent self) w0 w1) by (by eapply ownStop_trans).
  destruct exit; cbn [fst snd]; try (split; [by eapply eventsOk_own | done]).
  pose proof (isSet_own env (_stopEvent self) w1) as H2.
  destruct (isSet env (_stopEvent self) w1) as [stop w2]. cbn [snd] in H2.
  assert (Hown2 : ownStop (_stopEvent self) w0 w2) by (by eapply ownStop_trans).
  assert (Hok2 : eventsOk self w2) by (by eapply eventsOk_own).
  destruct stop; cbn [fst snd]; [done |].
  set (self1 := if fresh then set_btComs (Some c) self else self).
  assert (Hev1 : _stopEvent self1 = _stopEvent self) by (unfold self1; by destruct fresh).
  destruct c as [| x c]; cbn [fst snd].
  - split; [| done]. destruct Hok2 as [? ?]. split; [by rewrite Hev1 | done].
  - destruct (startBgScan_events false true POLL_INTERVAL self1 w2 (proj2 Hok2))
      as (Hok3 & _ & Hs & Hn & _).
    destruct (_startBgScan false true POLL_INTERVAL self1 w2) as [self2 w3].
    cbn [fst snd] in *. split; [done |].
    destruct Hown2 as [? ?]. split; [by rewrite Hs | lia].
Qed.

Lemma drain_bluetooth_sameStops env w :
  sameStops w (drain (getDriversForPossibleBluetoothDevices env) w).2.
Proof. apply (drain_steps sameStops), steps_stops_bluetooth. Qed.

Lemma btPass_events env self w0 w :
  eventsOk self w0 → ownStop (_stopEvent self) w0 w →
  let res := btPass env (_stopEvent self) self w in
  eventsOk res.1.2 res.2 ∧ ownStop (_stopEvent self) w0 res.2.
Proof.
  intros Hok Hown. unfold btPass.
  pose proof (isSet_own env (_stopEvent self) w) as H1.
  destruct (isSet env (_stopEvent self) w) as [stop w1]. cbn [snd] in H1.
  assert (Hown1 : ownStop (_stopEvent self) w0 w1) by (by eapply ownStop_trans).
  destruct stop; cbn [fst snd]; [split; [by eapply eventsOk_own | done] |].
  destruct (_btComs self) as [c |].
  - by apply btTail_events.
  - pose proof (drain_bluetooth_sameStops env w1) as H2.
    destruct (drain _ w1) as [[bc fin] w2]. cbn [snd] in H2.
    assert (Hown2 : ownStop (_stopEvent self) w0 w2).
    { eapply ownStop_trans; [done |]. by apply sameStops_own. }
    destruct fin as [e |]; cbn [fst snd]; [split; [by eapply eventsOk_own | done] |].
    by apply btTail_events.
Qed.

Lemma bgScan_events env self w :
  eventsOk self w →
  eventsOk (_bgScan env self w).1.2 (_bgScan env self w).2
  ∧ ownStop (_stopEvent self) w (_bgScan env self w).2.
Proof.
  intros Hok. unfold _bgScan.
  assert (HU : ownStop (_stopEvent self) w
                 (if _detectUsb self then usbPass env (_stopEvent self) w
                  else (LFallThrough, w)).2).
  { destruct (_detectUsb self); [| apply ownStop_refl]. unfold usbPass.
    pose proof (isSet_own env (_stopEvent self) w) as H1.
    destruct (isSet env (_stopEvent self) w) as [[] w1]; [done |]. cbn [snd] in *.
    eapply ownStop_trans; [done |]. apply usbLoop_own, steps_stops_usb. }
  destruct (if _detectUsb self then _ else _) as [exit w1]. cbn [snd] in HU.
  destruct exit; cbn [fst snd]; try (split; [by eapply eventsOk_own | done]).
  destruct (_detectBluetooth self); [| split; [by eapply eventsOk_own | done]].
  by apply btPass_events.
Qed.

Lemma stopBgScan_events env self w :
  eventsOk self w → eventsOk self (_stopBgScan env self w).2.
Proof.
  intros Hok. eapply eventsOk_own; [done |]. rewrite stopBgScan_eq. cbn zeta.
  unfold ownStop.
  destruct (cancelFails env self w); [| case_bool_decide]; cbn; (split; [done | lia]).
Qed.

(** X21.  Stop events are not confused.  When the stop event of the
    Detector and every stop event that is set are events that have been
    created, this is so again after [_bgScan], [rescan] and [terminate],
    and it is so after [__init__].  A pass sets no stop event but, when
    another thread cancels it, its own.  A scan that has just been
    started, by [__init__], by a [rescan] that returns or by a pass
    that arms the timer, has a stop event that is not set. *)
Theorem stop_events_invariant env self w :
  (eventsFresh w →
   eventsOk (__init__ env w).1 (__init__ env w).2
   ∧ _stopEvent (__init__ env w).1 ∉ stopSet (__init__ env w).2)
  ∧ (eventsOk self w →
     eventsOk (_bgScan env self w).1.2 (_bgScan env self w).2
     ∧ stopSet (_bgScan env self w).2 ⊆ {[_stopEvent self]} ∪ stopSet w
     ∧ (existsb armEvent (newEvents w (_bgScan env self w).2) = true →
          _stopEvent (_bgScan env self w).1.2 ∉ stopSet (_bgScan env self w).2)
     ∧ eventsOk (rescan env self w).1.2 (rescan env self w).2
     ∧ ((rescan env self w).1.1 = Ok tt →
          _stopEvent (rescan env self w).1.2 ∉ stopSet (rescan env self w).2)
     ∧ eventsOk (terminate env self w).1.2 (terminate env self w).2).
Proof.
  split.
  { intros Hf. unfold __init__. split; by apply startBgScan_events. }
  intros Hok. destruct (bgScan_events env self w Hok) as [HokB HownB].
  split_and!.
  - done.
  - apply HownB.
  - intros Harmed.
    destruct (pass_cases env self w) as (evsU & HlU & HshU & _ & Hcases).
    cbn zeta in Hcases.
    destruct Hcases as [(_ & _ & Hevs) | (_ & _ & armed & evsB & Hevs & HshB & _ & Hafter)].
    + rewrite Hevs in Harmed. apply UsbShape_read in HshU as (Hna & _). congruence.
    + rewrite Hevs, existsb_app in Harmed.
      apply UsbShape_read in HshU as (Hna & _). rewrite Hna in Harmed. cbn in Harmed.
      apply BtShape_read in HshB as (Harm & _). rewrite Harmed in Harm. subst armed.
      unfold afterPass in Hafter. destruct Hafter as [-> _]. cbn [_stopEvent].
      destruct Hok as [Hlt Hf]. destruct HownB as [Hsub _].
      intros Hin. apply Hsub in Hin.
      apply elem_of_union in Hin as [Hin%elem_of_singleton | Hin%Hf]; lia.
  - unfold rescan. pose proof (stopBgScan_events env self w Hok) as Hok1.
    destruct (_stopBgScan env self w) as [[[] | e] w1]; cbn [fst snd] in *; [| done].
    destruct (startBgScan_events true true 0 (set_btComs None self) w1 (proj2 Hok1))
      as (Hok2 & _).
    by destruct (_startBgScan true true 0 (set_btComs None self) w1).
  - unfold rescan. pose proof (stopBgScan_events env self w Hok) as Hok1.
    destruct (_stopBgScan env self w) as [[[] | e] w1]; cbn [fst snd] in *; [| done].
    destruct (startBgScan_events true true 0 (set_btComs None self) w1 (proj2 Hok1))
      as (_ & Hnew & _).
    by destruct (_startBgScan true true 0 (set_btComs None self) w1).
  - unfold terminate.
    assert (Hok0 : eventsOk self (emit EvUnregister w)) by done.
    pose proof (stopBgScan_events env self _ Hok0) as Hok1.
    by destruct (_stopBgScan env self (emit EvUnregister w)) as [[[] | e] w1].
Qed.

Lemma importedWorld_fresh : eventsFresh importedWorld.
Proof. intros e He. exfalso. by apply elem_of_empty in He. Qed.

Lemma stop_events_invariant_witness :
  eventsOk (_bgScan envBluetooth (__init__ envBluetooth importedWorld).1
                    (__init__ envBluetooth importedWorld).2).1.2
           (_bgScan envBluetooth (__init__ envBluetooth importedWorld).1
                    (__init__ envBluetooth importedWorld).2).2.
Proof.
  pose proof (stop_events_invariant envBluetooth (__init__ envBluetooth importedWorld).1
                importedWorld) as [Hinit _].
  pose proof (stop_events_invariant envBluetooth (__init__ envBluetooth importedWorld).1
                (__init__ envBluetooth importedWorld).2) as [_ Hpass].
  exact (proj1 (Hpass (proj1 (Hinit importedWorld_fresh)))).
Defined.

(** ** What Bluetooth matching does to the registry *)

Lemma afterRead_idemp devs : afterRead (afterRead devs) = afterRead devs.
Proof.
  unfold afterRead, defaultdict_get.
  destruct (devs !! KEY_BLUETOOTH) as [e |] eqn:Hk; cbn; [by rewrite Hk |].
  by rewrite lookup_insert_eq.
Qed.

Lemma touchBluetooth_lookup d w d' :
  registry (touchBluetooth d w) !! d'
  = if decide (d = d') then afterRead <$> registry w !! d' else registry w !! d'.
Proof.
  unfold touchBluetooth. destruct (decide (d = d')) as [<- | Hne].
  - destruct (registry w !! d) as [devs |] eqn:Hd; cbn; [| by rewrite Hd].
    by rewrite lookup_insert_eq.
  - destruct (registry w !! d) as [devs |]; cbn; [| done].
    by rewrite lookup_insert_ne.
Qed.

Lemma touchDrivers_lookup vis w d :
  registry (touchDrivers vis w) !! d
  = if decide (d ∈ vis) then afterRead <$> registry w !! d else registry w !! d.
Proof.
  unfold touchDrivers. revert w. induction vis as [| d0 vis IH]; intros w; cbn [foldl].
  - rewrite decide_False; [done | apply not_elem_of_nil].
  - rewrite IH, touchBluetooth_lookup.
    destruct (decide (d0 = d)) as [-> | Hne].
    + rewrite (decide_True (P := d ∈ d :: vis)) by (by left).
      destruct (decide (d ∈ vis)); [| done].
      destruct (registry w !! d) as [devs |]; cbn; [| done]. by rewrite afterRead_idemp.
    + destruct (decide (d ∈ vis)) as [Hin | Hnin].
      * by rewrite decide_True by (by right).
      * rewrite decide_False; [done |].
        intros [? | ?]%elem_of_cons; [by subst | done].
Qed.

Lemma btInner_visits m drivers :
  (btInner m drivers).1.2 = None → (btInner m drivers).2 = drivers.*1.
Proof.
  induction drivers as [| [d devs] drivers IH]; cbn [btInner]; [done |].
  destruct (fst (defaultdict_get devs KEY_BLUETOOTH)) as [s | f].
  - destruct (btInner m drivers) as [[ys fin] vis]. cbn in *. intros H. by rewrite IH.
  - destruct (f m) as [b | e]; [| done].
    destruct (btInner m drivers) as [[ys fin] vis]. cbn in *. intros H. by rewrite IH.
Qed.

Lemma fmap_afterRead_idemp (reg : Registry) d :
  afterRead <$> (afterRead <$> reg !! d) = afterRead <$> reg !! d.
Proof. destruct (reg !! d); cbn; [| done]. by rewrite afterRead_idemp. Qed.

Lemma drain_bt_outer_registry ms w :
  let r := drain (for_list ms
                    (fun (m : DeviceMatch.t) k =>
                       GStep (fun w => w) (fun w =>
                         btDriversLoop m (map_to_list (registry w)) k))
                    GStop) w in
  r.1.2 = None →
  ∀ d, registry r.2 !! d
       = match ms with [] => registry w !! d | _ :: _ => afterRead <$> registry w !! d end.
Proof.
  unfold for_list. revert w. induction ms as [| m0 ms IH]; intros w; [done |].
  cbn [foldr drain]. rewrite drain_btDriversLoop.
  pose proof (btInner_visits m0 (map_to_list (registry w))) as Hvis.
  destruct (btInner m0 (map_to_list (registry w))) as [[ys fin] vis].
  cbn [fst snd] in Hvis. destruct fin as [e |]; [done |].
  specialize (Hvis eq_refl). subst vis.
  assert (Hall : ∀ d, registry (touchDrivers (map_to_list (registry w)).*1 w) !! d
                      = afterRead <$> registry w !! d).
  { intros d. rewrite touchDrivers_lookup.
    destruct (decide (d ∈ (map_to_list (registry w)).*1)) as [Hin | Hnin]; [done |].
    destruct (registry w !! d) as [devs |] eqn:Hd; [| done].
    exfalso. apply Hnin. apply elem_of_driverNames. by exists devs. }
  specialize (IH (touchDrivers (map_to_list (registry w)).*1 w)). cbn zeta in IH.
  destruct (drain _ (touchDrivers _ w)) as [[zs fin'] w']. cbn [prepend fst snd] in *.
  intros Hfin d. rewrite (IH Hfin d). destruct ms; [apply Hall |].
  by rewrite Hall, fmap_afterRead_idemp.
Qed.

(** X22.  What Bluetooth matching does to the registry.  Run to its end
    without an exception over at least one record,
    [getDriversForPossibleBluetoothDevices] has read the dict of every
    driver: each driver that had nothing under [KEY_BLUETOOTH] has the
    empty set there, and nothing else has changed.  When no serial port
    has a Bluetooth name, or the building of the records raises, the
    registry is left as it is.  [getPossibleBluetoothDevicesForDriver] for
    a registered driver without match function yields nothing, ends
    without an exception and without listing the serial ports, and has
    read the dict of that driver only. *)
Theorem bluetooth_reads env w :
  let r := drain (getDriversForPossibleBluetoothDevices env) w in
  (r.1.2 = None → items (btRecords env w) ≠ [] → registry r.2 = afterRead <$> registry w)
  ∧ (items (btRecords env w) = [] ∨ is_Some (ending (btRecords env w)) →
       registry r.2 = registry w)
  ∧ (∀ d devs, registry w !! d = Some devs → btPredicate (registry w) d = None →
       drain (getPossibleBluetoothDevicesForDriver env d) w
       = ([], None, set_registry (<[d := afterRead devs]> (registry w)) w)).
Proof.
  intros r. unfold r, getDriversForPossibleBluetoothDevices. cbn [drain].
  rewrite btDevsList_genexp. fold (btRecords env w).
  split_and!.
  - destruct (ending (btRecords env w)) as [e |]; [done |].
    intros Hfin Hne. apply map_eq. intros d.
    pose proof (drain_bt_outer_registry (items (btRecords env w))
                  (emit (EvListComPorts BluetoothMatching) w) Hfin d) as H.
    rewrite H, lookup_fmap. by destruct (items (btRecords env w)).
  - intros [Hnil | [e He]].
    + destruct (ending (btRecords env w)) as [e |]; [done |]. by rewrite Hnil.
    + by rewrite He.
  - intros d devs Hd Hp. unfold getPossibleBluetoothDevicesForDriver. cbn [drain].
    rewrite Hd. unfold btPredicate in Hp. rewrite Hd in Hp.
    unfold touchBluetooth, afterRead, defaultdict_get. rewrite Hd.
    by destruct (devs !! KEY_BLUETOOTH) as [[s | f] |].
Qed.

Lemma bluetooth_reads_witness :
  registry (drain (getDriversForPossibleBluetoothDevices envBluetooth) importedWorld).2
  = afterRead <$> registry importedWorld.
Proof.
  pose proof (bluetooth_reads envBluetooth importedWorld) as [H _].
  cbv zeta in H. apply H.
  - by vm_compute.
  - intros Hnil. apply (f_equal length) in Hnil. by vm_compute in Hnil.
Defined.

(** ** The order of the USB records *)

Lemma genexp_total {A} guard (elt : Port → result A) ports :
  ending (genexp guard elt ports) = None →
  Forall2 (fun p a => elt p = Ok a) (List.filter guard ports)
          (items (genexp guard elt ports)).
Proof.
  induction ports as [| p ports IH]; cbn [genexp List.filter]; [by constructor |].
  destruct (guard p); [| done].
  destruct (elt p) as [a |] eqn:He; [| done]. cbn [items ending].
  intros Hend. constructor; [done | by apply IH].
Qed.

Lemma filter_true {A} (l : list A) : List.filter (fun _ => true) l = l.
Proof. induction l as [| x l IH]; [done |]. cbn. by rewrite IH. Qed.

(** X23.  When no reported port is faulty, the records on which USB
    matching works are, in this order: one for each custom device, one for
    each HID device with a [usbID], one for each serial port with a
    [usbID]; within each group they come in the order in which
    [hwPortUtils] lists the ports, and each is built from its port with the
    type of its group. *)
Theorem usb_records_in_order env w :
  ¬ faultyUsbPort env w →
  ∃ cs hs ss,
    items (enumerated env w) = cs ++ hs ++ ss
    ∧ Forall2 (fun p m => mkDeviceMatch KEY_CUSTOM "usbID" "devicePath" p = Ok m)
              (listUsbDevices env (clock w)) cs
    ∧ Forall2 (fun p m => mkDeviceMatch KEY_HID "usbID" "devicePath" p = Ok m)
              (List.filter (contains "usbID") (listHidDevices env (S (clock w)))) hs
    ∧ Forall2 (fun p m => mkDeviceMatch KEY_SERIAL "usbID" "port" p = Ok m)
              (List.filter (contains "usbID") (listComPorts env (S (S (clock w))))) ss.
Proof.
  intros Hno.
  assert (Hend : ending (enumerated env w) = None).
  { destruct (ending (enumerated env w)) as [e |] eqn:E; [| done].
    exfalso. apply Hno, ending_enumerated_faulty. by exists e. }
  rewrite ending_enumerated in Hend.
  destruct (ending (genexp _ _ (listUsbDevices _ _))) as [e |] eqn:E1; [done |].
  destruct (ending (genexp _ _ (listHidDevices _ _))) as [e |] eqn:E2; [done |].
  eexists _, _, _. split_and!.
  - unfold enumerated, usbDevs.
    rewrite items_chain, E1 by apply pure_genexp.
    rewrite items_chain, E2 by apply pure_genexp. done.
  - rewrite <- (filter_true (listUsbDevices env (clock w))) at 1. by apply genexp_total.
  - by apply genexp_total.
  - by apply genexp_total.
Qed.

Lemma usb_records_in_order_witness :
  ∃ cs hs ss, items (enumerated envOneHid importedWorld) = cs ++ hs ++ ss
              ∧ Forall2 (fun p m => mkDeviceMatch KEY_HID "usbID" "devicePath" p = Ok m)
                        (List.filter (contains "usbID")
                                     (listHidDevices envOneHid (S (clock importedWorld)))) hs.
Proof.
  assert (Hno : ¬ faultyUsbPort envOneHid importedWorld).
  { intros [(p & Hin & _) | [(p & Hin & _ & Hn) | (p & Hin & _)]].
    - by apply elem_of_nil in Hin.
    - apply list_elem_of_singleton in Hin as ->. by vm_compute in Hn.
    - by apply elem_of_nil in Hin. }
  destruct (usb_records_in_order envOneHid importedWorld Hno)
    as (cs & hs & ss & H1 & _ & H2 & _).
  exists cs, hs, ss. exact (conj H1 H2).
Defined.

Lemma addBluetoothDevices_replaces_witness :
  entryOf (registry (addBluetoothDevices "baum" handyTechMatch importedWorld).2)
          "baum" KEY_HID
  = entryOf (registry importedWorld) "baum" KEY_HID.
Proof.
  pose proof (addBluetoothDevices_replaces "baum" handyTechMatch importedWorld)
    as (_ & _ & H & _).
  apply H. discriminate.
Defined.

(** ** A pass in which nothing connects *)

Lemma usbLoop_all_fail env ev (g : gen (string * DeviceMatch.t)) w :
  nothingConnects env → nobodyCancels env → readsRegistry g → ev ∉ stopSet w →
  ∃ w', usbLoop env ev g w
        = (match (drain g w).1.2 with Some e => LRaise e | None => LFallThrough end, w')
        ∧ log w' = log w ++ failed ev (drain g w).1.1
        ∧ registry w' = registry w ∧ stopSet w' = stopSet w
        ∧ nextEvent w' = nextEvent w ∧ pollTimer w' = pollTimer w.
Proof.
  intros Hc Hn. revert w.
  induction g as [| e | [d m] k IH | act k IH]; intros w; cbn [usbLoop drain readsRegistry].
  - intros _ _. exists w. by rewrite app_nil_r.
  - intros _ _. exists w. by rewrite app_nil_r.
  - intros Hk Hev. rewrite isSet_unset by done. unfold activate. rewrite Hc.
    set (w2 := emit (EvSetDisplayByName d m false) (emit (EvIsSet ev false) w)).
    destruct (IH w2 Hk) as (w' & -> & Hl & Hr & Hs & Hnx & Hp); [done |].
    pose proof (drain_readsRegistry k w2 w Hk eq_refl) as Hsame. rewrite Hsame in *.
    destruct (drain k w) as [[ys fin] w'']. cbn [prepend fst snd] in *.
    exists w'. split_and!; try done.
    rewrite Hl. cbn. by rewrite <- !app_assoc.
  - intros (Hact & Hsame & Hk) Hev. rewrite !Hact. by apply IH.
Qed.

Lemma btLoop_fresh_all_fail env ev c cache w :
  nothingConnects env → nobodyCancels env → ev ∉ stopSet w →
  ∃ w', btLoop env ev true c cache w = (LFallThrough, cache ++ c, w')
        ∧ log w' = log w ++ failed ev c
        ∧ registry w' = registry w ∧ stopSet w' = stopSet w
        ∧ nextEvent w' = nextEvent w ∧ pollTimer w' = pollTimer w.
Proof.
  intros Hc Hn. revert cache w. induction c as [| [d m] c IH]; intros cache w Hev;
    cbn [btLoop].
  - exists w. by rewrite !app_nil_r.
  - rewrite isSet_unset by done. unfold activate. rewrite Hc.
    destruct (IH (cache ++ [(d, m)])
                 (emit (EvSetDisplayByName d m false) (emit (EvIsSet ev false) w)))
      as (w' & -> & Hl & Hr & Hs & Hne & Hp); [done |].
    exists w'. split_and!; try done.
    + by rewrite <- app_assoc.
    + rewrite Hl. cbn. by rewrite <- !app_assoc.
Qed.

(** X24.  A pass with USB and Bluetooth part and without cache, as
    [__init__] and [rescan] start it, when its stop event is not set,
    nothing connects and nobody cancels: if it raises nothing, it has
    tried every candidate of USB matching and then every candidate of
    Bluetooth matching, each once and in order; the Bluetooth candidates
    are the new cache, and the timer has been armed exactly when there
    is at least one of them. *)
Theorem full_pass_without_success env self w :
  nothingConnects env → nobodyCancels env →
  _detectUsb self = true → _detectBluetooth self = true → _btComs self = None →
  _stopEvent self ∉ stopSet w →
  (_bgScan env self w).1.1 = Ok tt →
  let res := _bgScan env self w in
  let bt := candidates env (_stopEvent self) self (afterUsbPart env self w) in
  attempts (newEvents w res.2) = usbFound env self w ++ bt
  ∧ _btComs res.1.2 = Some bt
  ∧ (existsb armEvent (newEvents w res.2) = true ↔ bt ≠ [])
  ∧ existsb cancelEvent (newEvents w res.2) = false
  ∧ pollTimer res.2 = (if bool_decide (bt = []) then pollTimer w else Some POLL_INTERVAL).
Proof.
  intros Hc Hn Hu Hb Hcache Hev. cbv zeta.
  unfold candidates, usbFound, afterUsbPart. rewrite Hu, Hcache.
  unfold _bgScan. rewrite Hu, Hb. unfold usbPass.
  rewrite !isSet_unset by done. cbn [fst snd].
  set (ev := _stopEvent self) in *.
  set (w1 := emit (EvIsSet ev false) w).
  destruct (usbLoop_enumerates env ev w1) as [-> ->].
  pose proof (readsRegistry_usb_pairs_body (enumerated env w1) (pure_usbDevs _ _ _)) as Hrr.
  destruct (usbLoop_all_fail env ev _ (afterUsbEnum w1) Hc Hn Hrr)
    as (w2 & -> & Hl2 & Hr2 & Hs2 & Hnx2 & Hp2); [done |].
  destruct (drain _ (afterUsbEnum w1)) as [[usb finU] wd]. cbn [fst snd] in *.
  destruct finU as [e |]; [done |].
  assert (Hev2 : ev ∉ stopSet w2) by (rewrite Hs2; exact Hev).
  unfold btPass. rewrite isSet_unset by done. cbn [snd]. rewrite Hcache.
  set (w3 := emit (EvIsSet ev false) w2).
  pose proof (drain_bt_world env w3) as Hbt. cbn zeta in Hbt.
  pose proof (drain_bluetooth_sameStops env w3) as [Hs4 _].
  destruct (drain (getDriversForPossibleBluetoothDevices env) w3) as [[bt finB] w4].
  cbn [fst snd] in *. destruct Hbt as (Hl4 & Hp4 & Hnx4 & _).
  destruct finB as [e |]; [done |].
  unfold btTail.
  assert (Hev4 : ev ∉ stopSet w4) by (rewrite Hs4; exact Hev2).
  destruct (btLoop_fresh_all_fail env ev bt [] w4 Hc Hn Hev4)
    as (w5 & -> & Hl5 & Hr5 & Hs5 & Hnx5 & Hp5).
  assert (Hev5 : ev ∉ stopSet w5) by (by rewrite Hs5).
  rewrite isSet_unset by done.
  cbn [app].
  assert (Hlog : ∃ evs, log w5 = log w ++ evs
                        ∧ attempts evs = usb ++ bt
                        ∧ existsb armEvent evs = false
                        ∧ existsb cancelEvent evs = false).
  { exists ([EvIsSet ev false; EvListUsbDevices; EvListHidDevices;
             EvListComPorts UsbMatching] ++ failed ev usb
            ++ [EvIsSet ev false; EvListComPorts BluetoothMatching] ++ failed ev bt).
    split_and!.
    - rewrite Hl5, Hl4. cbn. rewrite Hl2. cbn. by rewrite <- !app_assoc.
    - rewrite !attempts_app, !attempts_failed. done.
    - rewrite !existsb_app, !existsb_failed by done. done.
    - rewrite !existsb_app, !existsb_failed by done. done. }
  destruct Hlog as (evs & Hlog & Hatt & Harm & Hcan).
  intros _. destruct bt as [| x bt]; cbn [fst snd].
  - erewrite newEvents_app; [| cbn; rewrite Hlog, <- app_assoc; done].
    rewrite attempts_app, !existsb_app, Hatt, Harm, Hcan. cbn.
    rewrite app_nil_r. split_and!; try done.
    rewrite Hp5, Hp4. cbn. by rewrite Hp2.
  - unfold _startBgScan. rewrite bool_decide_eq_true_2 by done. cbn [fst snd].
    erewrite newEvents_app; [| cbn; rewrite Hlog, <- !app_assoc; done].
    rewrite attempts_app, !existsb_app, Hatt, Harm, Hcan. cbn.
    rewrite app_nil_r. split_and!; try done.
Qed.

Lemma startWorld_bluetooth :
  _detectUsb (newDetector envBluetooth) = true
  ∧ _detectBluetooth (newDetector envBluetooth) = true
  ∧ _btComs (newDetector envBluetooth) = None
  ∧ stopSet (startWorld envBluetooth) = ∅
  ∧ (_bgScan envBluetooth (newDetector envBluetooth) (startWorld envBluetooth)).1.1 = Ok tt.
Proof. split_and!; by vm_compute. Qed.

Lemma full_pass_without_success_witness :
  _btComs (_bgScan envBluetooth (newDetector envBluetooth) (startWorld envBluetooth)).1.2
  = Some (candidates envBluetooth (_stopEvent (newDetector envBluetooth))
                     (newDetector envBluetooth)
                     (afterUsbPart envBluetooth (newDetector envBluetooth)
                                   (startWorld envBluetooth))).
Proof.
  destruct envBluetooth_quiet as [Hnc Hno].
  destruct startWorld_bluetooth as (Hu & Hb & Hc & Hs & Hok).
  assert (Hev : _stopEvent (newDetector envBluetooth) ∉ stopSet (startWorld envBluetooth)).
  { rewrite Hs. apply not_elem_of_empty. }
  pose proof (full_pass_without_success envBluetooth (newDetector envBluetooth)
                (startWorld envBluetooth) Hnc Hno Hu Hb Hc Hev Hok) as H.
  cbv zeta in H. exact (proj1 (proj2 H)).
Defined.

(** ** Cancellation and success in the Bluetooth part *)

Lemma UsbShape_cancelled ev exit evs :
  UsbShape ev exit evs → existsb cancelEvent evs = true →
  exit = LReturn
  ∧ ∃ pre, evs = pre ++ [EvIsSet ev true] ∧ existsb cancelEvent pre = false.
Proof.
  intros [pre Hcalm | pre d m Hcalm | e evs' Hcalm | evs' Hcalm] Hcan.
  - split; [done |]. exists pre. split; [done |]. by apply calm_none.
  - rewrite existsb_snoc in Hcan. destruct (calm_none pre Hcalm) as (Hc & _).
    rewrite Hc in Hcan. done.
  - destruct (calm_none evs' Hcalm) as (Hc & _). congruence.
  - destruct (calm_none evs' Hcalm) as (Hc & _). congruence.
Qed.

Lemma BtShape_cancelled ev old btComs r new armed evs :
  BtShape ev old btComs r new armed evs → existsb cancelEvent evs = true →
  r = Ok tt ∧ new = old ∧ armed = false
  ∧ ∃ pre, evs = pre ++ [EvIsSet ev true] ∧ existsb cancelEvent pre = false.
Proof.
  destruct (enumEvents_read old) as (Ec & _).
  intros [ | e Hold | tried rest -> Hrest | tried loopEvs Hdone
         | tried loopEvs Hdone Hempty | tried loopEvs cache Hdone Hcache Hne ] Hcan.
  - split_and!; try done. by exists [].
  - done.
  - split_and!; try done.
    exists ([EvIsSet ev false] ++ enumEvents old ++ failed ev tried).
    split; [by rewrite <- !app_assoc |].
    rewrite !existsb_app, Ec, existsb_failed by done. done.
  - destruct (LoopDone_read _ _ _ _ Hdone) as (_ & _ & Hc & _).
    split_and!; try done.
    exists ([EvIsSet ev false] ++ enumEvents old ++ loopEvs).
    split; [by rewrite <- !app_assoc |].
    rewrite !existsb_app, Ec, Hc. done.
  - destruct (LoopDone_read _ _ _ _ Hdone) as (_ & _ & Hc & _).
    rewrite !existsb_app, Ec, Hc in Hcan. done.
  - destruct (LoopDone_read _ _ _ _ Hdone) as (_ & _ & Hc & _).
    rewrite !existsb_app, Ec, Hc in Hcan. done.
Qed.

(** X25.  A pass stops at once when it finds its stop event set: the
    check that finds it set is the last thing the pass does, and the only
    check that finds it set.  The pass then returns without an exception,
    leaves the Detector as it was, with the cache it had, and does not arm
    the timer. *)
Theorem cancellation_ends_pass env self w :
  let res := _bgScan env self w in
  let evs := newEvents w res.2 in
  existsb cancelEvent evs = true →
  res.1 = (Ok tt, self)
  ∧ (∃ pre, evs = pre ++ [EvIsSet (_stopEvent self) true]
            ∧ existsb cancelEvent pre = false)
  ∧ existsb armEvent evs = false
  ∧ pollTimer res.2 = pollTimer w.
Proof.
  intros res evs. unfold evs, res.
  destruct (pass_cases env self w) as (evsU & HlU & HshU & Hframe & Hcases).
  cbn zeta in Hcases.
  destruct Hcases as [(_ & Hres & Hevs)
                     | (Hexit & Hbt & armed & evsB & Hevs & HshB & _ & Hafter)].
  - rewrite Hevs. intros Hcan. rewrite Hres. cbn [fst snd].
    pose proof (UsbShape_read _ _ _ HshU) as (Ha & _).
    destruct (UsbShape_cancelled _ _ _ HshU Hcan) as (-> & pre & -> & Hpre).
    split_and!; [done | by exists pre | done | apply Hframe].
  - rewrite Hevs. intros Hcan.
    pose proof (UsbShape_read _ _ _ HshU) as (HaU & _ & Hcalm & _).
    destruct (calm_none evsU) as (HcU & _); [apply Hcalm; by rewrite Hexit |].
    rewrite existsb_app, HcU in Hcan. cbn in Hcan.
    pose proof (BtShape_read _ _ _ _ _ _ _ HshB) as (HaB & _).
    destruct (BtShape_cancelled _ _ _ _ _ _ _ HshB Hcan) as (Hr & Hnew & -> & pre & -> & Hpre).
    unfold afterPass in Hafter. destruct Hafter as [Hself Hpoll].
    rewrite Hnew, set_btComs_same in Hself.
    split_and!.
    + destruct (_bgScan env self w) as [[r s] w']. cbn [fst snd] in *. by subst.
    + exists (evsU ++ pre). split; [by rewrite app_assoc |].
      by rewrite existsb_app, HcU, Hpre.
    + by rewrite existsb_app, HaU, HaB.
    + done.
Qed.

Lemma cancelled_first_pass :
  existsb cancelEvent
    (newEvents (startWorld envTwoBluetoothCancel)
       (_bgScan envTwoBluetoothCancel (newDetector envTwoBluetoothCancel)
                (startWorld envTwoBluetoothCancel)).2) = true.
Proof. by vm_compute. Qed.

Lemma cancellation_ends_pass_witness :
  (_bgScan envTwoBluetoothCancel (newDetector envTwoBluetoothCancel)
           (startWorld envTwoBluetoothCancel)).1
  = (Ok tt, newDetector envTwoBluetoothCancel).
Proof.
  pose proof (cancellation_ends_pass envTwoBluetoothCancel
                (newDetector envTwoBluetoothCancel)
                (startWorld envTwoBluetoothCancel)) as H.
  cbv zeta in H. exact (proj1 (H cancelled_first_pass)).
Defined.

Lemma success_attempts evs : existsb successEvent evs = true → attempts evs ≠ [].
Proof.
  induction evs as [| e evs IH]; [done |]. destruct e; cbn; try done.
Qed.

(** X26.  A display that connects over Bluetooth does not end the polling.
    When a pass returns in which no cancellation was seen and an
    activation attempt of the Bluetooth part succeeded, the pass has
    still stored or kept a cache that is not empty and armed the timer:
    the next pass is a Bluetooth pass over that cache. *)
Theorem bluetooth_success_keeps_polling env self w :
  let res := _bgScan env self w in
  let evs := newEvents w res.2 in
  res.1.1 = Ok tt →
  existsb cancelEvent evs = false →
  existsb successEvent (newEvents w (afterUsbPart env self w)) = false →
  existsb successEvent evs = true →
  existsb armEvent evs = true
  ∧ pollTimer res.2 = Some POLL_INTERVAL
  ∧ _detectUsb res.1.2 = false ∧ _detectBluetooth res.1.2 = true
  ∧ ∃ x c, _btComs res.1.2 = Some (x :: c).
Proof.
  intros res evs. unfold evs, res.
  destruct (pass_cases env self w) as (evsU & HlU & HshU & Hframe & Hcases).
  cbn zeta in Hcases. rewrite (newEvents_app _ _ _ HlU).
  destruct Hcases as [(_ & Hres & Hevs)
                     | (Hexit & Hbt & armed & evsB & Hevs & HshB & _ & Hafter)].
  - rewrite Hevs. congruence.
  - rewrite Hevs. intros Hok Hcan HsU Hs.
    rewrite existsb_app, HsU in Hs. cbn in Hs.
    rewrite existsb_app in Hcan. apply orb_false_iff in Hcan as [HcU HcB].
    pose proof (UsbShape_read _ _ _ HshU) as (HaU & _).
    pose proof (BtShape_read _ _ _ _ _ _ _ HshB)
      as (HaB & _ & _ & Harmed & Hpre & Hfin & _).
    destruct (Hfin Hok HcB) as (Hnew & _ & Harm).
    pose proof (success_attempts evsB Hs) as Hne.
    assert (armed = true) as ->.
    { rewrite Harm. apply negb_true_iff, bool_decide_eq_false_2.
      unfold candidates in Hpre.
      destruct (_btComs self) as [c |]; [| done].
      intros ->. by apply prefix_nil_inv in Hpre. }
    unfold afterPass in Hafter. destruct Hafter as [Hself Hpoll].
    rewrite existsb_app, HaU, HaB. split_and!; [done | done | | |].
    + by rewrite Hself.
    + by rewrite Hself.
    + by apply Harmed.
Qed.

Lemma accepted_first_pass :
  (_bgScan envBluetoothAccepts (newDetector envBluetoothAccepts)
           (startWorld envBluetoothAccepts)).1.1 = Ok tt
  ∧ existsb cancelEvent
      (newEvents (startWorld envBluetoothAccepts)
         (_bgScan envBluetoothAccepts (newDetector envBluetoothAccepts)
                  (startWorld envBluetoothAccepts)).2) = false
  ∧ existsb successEvent
      (newEvents (startWorld envBluetoothAccepts)
         (afterUsbPart envBluetoothAccepts (newDetector envBluetoothAccepts)
                       (startWorld envBluetoothAccepts))) = false
  ∧ existsb successEvent
      (newEvents (startWorld envBluetoothAccepts)
         (_bgScan envBluetoothAccepts (newDetector envBluetoothAccepts)
                  (startWorld envBluetoothAccepts)).2) = true.
Proof. split_and!; by vm_compute. Qed.

Lemma bluetooth_success_keeps_polling_witness :
  pollTimer (_bgScan envBluetoothAccepts (newDetector envBluetoothAccepts)
                     (startWorld envBluetoothAccepts)).2 = Some POLL_INTERVAL.
Proof.
  destruct accepted_first_pass as (H1 & H2 & H3 & H4).
  pose proof (bluetooth_success_keeps_polling envBluetoothAccepts
                (newDetector envBluetoothAccepts)
                (startWorld envBluetoothAccepts)) as H.
  cbv zeta in H. exact (proj1 (proj2 (H H1 H2 H3 H4))).
Defined.

(** ** What the queries leave alone *)

#[local] Instance queryStep_refl : Reflexive queryStep.
Proof. intros w. split_and!; try done. exists []. by rewrite app_nil_r. Qed.

#[local] Instance queryStep_trans : Transitive queryStep.
Proof.
  intros w1 w2 w3 (Hp1 & Hs1 & Hn1 & evs1 & Hl1 & Hf1) (Hp2 & Hs2 & Hn2 & evs2 & Hl2 & Hf2).
  split_and!; try congruence. exists (evs1 ++ evs2). split.
  - by rewrite Hl2, Hl1, <- app_assoc.
  - by rewrite forallb_app, Hf1, Hf2.
Qed.

Lemma queryStep_emit e w : listEvent e = true → queryStep w (emit e w).
Proof. intros He. split_and!; try done. exists [e]. split; [done |]. cbn. by rewrite He. Qed.

Lemma queryStep_touchBluetooth d w : queryStep w (touchBluetooth d w).
Proof.
  destruct (touchBluetooth_touchedWorld d w) as [Hs _].
  apply sameButRegistry_fields in Hs as (Hl & ? & ? & _ & ?).
  split_and!; try done. exists []. by rewrite app_nil_r.
Qed.

Lemma steps_query_withUsbDevs {B} env (body : gen DeviceMatch.t → gen B) :
  (∀ devices, pure devices → steps queryStep (body devices)) →
  steps queryStep (withUsbDevs env body).
Proof.
  intros Hbody. unfold withUsbDevs. cbn.
  split; [intros w; by apply queryStep_emit |]. intros w0.
  split; [intros w; by apply queryStep_emit |]. intros w1.
  split; [intros w; by apply queryStep_emit |]. intros w2.
  apply Hbody, pure_usbDevs.
Qed.

Lemma steps_query_usb_pairs env : steps queryStep (getDriversForConnectedUsbDevices env).
Proof.
  apply steps_query_withUsbDevs. intros devices Hp.
  eapply steps_mono; [| by apply steps_usb_pairs_body]. by intros w w' <-.
Qed.

Lemma steps_query_usb_single env driver :
  steps queryStep (getConnectedUsbDevicesForDriver env driver).
Proof.
  unfold getConnectedUsbDevicesForDriver. cbn. split; [done |]. intros w.
  destruct (registry w !! driver); [| done].
  apply steps_query_withUsbDevs. intros devices Hp.
  eapply steps_mono; [| by apply steps_usb_single_body]. by intros w1 w' <-.
Qed.

Lemma steps_query_bluetooth_pairs env :
  steps queryStep (getDriversForPossibleBluetoothDevices env).
Proof.
  unfold getDriversForPossibleBluetoothDevices. cbn.
  split; [intros w; by apply queryStep_emit |]. intros w0.
  destruct (btDevsList _) as [btDevs | e]; [| done].
  apply steps_for_list; [done |]. intros m k Hk.
  split; [done |]. intros w. unfold btDriversLoop.
  apply steps_for_list; [done |]. intros [d devs] k' Hk'.
  split; [apply queryStep_touchBluetooth |]. intros _.
  destruct (fst _) as [s | f]; [done |]. by destruct (f m) as [[] | e].
Qed.

Lemma steps_query_bluetooth_single env driver :
  steps queryStep (getPossibleBluetoothDevicesForDriver env driver).
Proof.
  unfold getPossibleBluetoothDevicesForDriver. cbn.
  split; [apply queryStep_touchBluetooth |]. intros w.
  destruct (registry w !! driver) as [devs |]; [| done].
  destruct (fst _) as [s | f]; [done |]. cbn.
  split; [intros w0; by apply queryStep_emit |]. intros w0.
  apply steps_pure, pure_btFilter, pure_genexp.
Qed.

(** X27.  The matching functions and [arePossibleDevicesForDriver] only
    look: however far the generators are advanced, the only external
    calls they have made are calls of the [list*] functions of
    [hwPortUtils]; they never try a display, never queue a scan, and leave
    the timer and the stop events as they are. *)
Theorem queries_only_list env w :
  (∀ n, queryStep w (advance n (getDriversForConnectedUsbDevices env) w).2)
  ∧ (∀ n, queryStep w (advance n (getDriversForPossibleBluetoothDevices env) w).2)
  ∧ (∀ n driver, queryStep w (advance n (getConnectedUsbDevicesForDriver env driver) w).2)
  ∧ (∀ n driver,
       queryStep w (advance n (getPossibleBluetoothDevicesForDriver env driver) w).2)
  ∧ (∀ driver, queryStep w (arePossibleDevicesForDriver env driver w).2).
Proof.
  split_and!.
  - intros n. apply (advance_steps queryStep), steps_query_usb_pairs.
  - intros n. apply (advance_steps queryStep), steps_query_bluetooth_pairs.
  - intros n driver. apply (advance_steps queryStep), steps_query_usb_single.
  - intros n driver. apply (advance_steps queryStep), steps_query_bluetooth_single.
  - intros driver. rewrite arePossibleDevicesForDriver_next. cbn [snd].
    apply (next_steps queryStep), steps_chain;
      [apply steps_query_usb_single | apply steps_query_bluetooth_single].
Qed.

Lemma queries_only_list_witness :
  queryStep importedWorld (arePossibleDevicesForDriver envBluetooth "baum" importedWorld).2.
Proof.
  pose proof (queries_only_list envBluetooth importedWorld) as (_ & _ & _ & _ & H).
  exact (H "baum").
Defined.

(** ** Exceptions of matching in a pass *)

Lemma bluetooth_pairs_raises_witness :
  (drain (getDriversForPossibleBluetoothDevices envBluetooth) importedWorld).1.2 = None.
Proof.
  pose proof (bluetooth_pairs_raises envBluetooth importedWorld) as [_ H].
  apply H.
  - intros (p & Hin & _ & Hport). apply list_elem_of_singleton in Hin as ->.
    discriminate Hport.
  - intros d f m Hp Hin. apply list_elem_of_In in Hin. vm_compute in Hin.
    destruct Hin as [<- | []]. apply (shipped_total d f _ "Brailliant B80" Hp).
    reflexivity.
Defined.

Lemma usbPart_stops env self w :
  nothingConnects env → nobodyCancels env → _stopEvent self ∉ stopSet w →
  stopSet (afterUsbPart env self w) = stopSet w.
Proof.
  intros Hc Hn Hev. unfold afterUsbPart. destruct (_detectUsb self); [| done].
  unfold usbPass. rewrite isSet_unset by done.
  set (w1 := emit (EvIsSet (_stopEvent self) false) w).
  destruct (usbLoop_enumerates env (_stopEvent self) w1) as [-> _].
  pose proof (readsRegistry_usb_pairs_body (enumerated env w1) (pure_usbDevs _ _ _)) as Hrr.
  destruct (usbLoop_all_fail env (_stopEvent self) _ (afterUsbEnum w1) Hc Hn Hrr)
    as (w2 & -> & _ & _ & Hs2 & _); [done |].
  cbn [snd]. by rewrite Hs2.
Qed.

(** X19.  Exceptions of matching are not caught by a pass.  When the
    handler refuses every display and nobody cancels, a pass whose stop
    event is not set ends with the exception with which USB matching
    ends, after it has tried every USB candidate yielded before, and
    without listing the serial ports for Bluetooth; and when the USB part
    has run to its end, a pass without cache ends with the exception with
    which Bluetooth matching ends, without having tried a Bluetooth
    candidate.  Either way the pass leaves the Detector as it was, with no
    cache stored, and does not arm the timer. *)
Theorem matching_exception_ends_pass env self w e :
  nothingConnects env → nobodyCancels env → _stopEvent self ∉ stopSet w →
  let res := _bgScan env self w in
  let evs := newEvents w res.2 in
  (_detectUsb self = true →
   (drain (getDriversForConnectedUsbDevices env)
          (isSet env (_stopEvent self) w).2).1.2 = Some e →
   res.1 = (Raise e, self)
   ∧ attempts evs = usbFound env self w
   ∧ existsb btEnumEvent evs = false
   ∧ existsb armEvent evs = false
   ∧ pollTimer res.2 = pollTimer w)
  ∧ (usbExit env self w = LFallThrough →
     _detectBluetooth self = true → _btComs self = None →
     (drain (getDriversForPossibleBluetoothDevices env)
            (isSet env (_stopEvent self) (afterUsbPart env self w)).2).1.2 = Some e →
     res.1 = (Raise e, self)
     ∧ attempts evs = usbFound env self w
     ∧ existsb armEvent evs = false
     ∧ pollTimer res.2 = pollTimer w).
Proof.
  intros Hc Hn Hev. cbv zeta. split.
  - intros Hu. unfold usbFound, _bgScan, usbPass. rewrite Hu.
    rewrite !isSet_unset by done. cbn [fst snd].
    set (ev := _stopEvent self) in *.
    set (w1 := emit (EvIsSet ev false) w).
    destruct (usbLoop_enumerates env ev w1) as [-> ->].
    pose proof (readsRegistry_usb_pairs_body (enumerated env w1) (pure_usbDevs _ _ _))
      as Hrr.
    destruct (usbLoop_all_fail env ev _ (afterUsbEnum w1) Hc Hn Hrr)
      as (w2 & -> & Hl2 & Hr2 & Hs2 & Hnx2 & Hp2); [done |].
    destruct (drain _ (afterUsbEnum w1)) as [[usb finU] wd]. cbn [fst snd] in *.
    intros ->. cbn [fst snd].
    erewrite newEvents_app; [| rewrite Hl2; cbn; rewrite <- !app_assoc; done].
    cbn [app attempts existsb btEnumEvent armEvent orb].
    rewrite attempts_failed, !existsb_failed by done.
    split_and!; [done | done | done | done | by rewrite Hp2].
  - intros Hexit Hb Hcache.
    pose proof (usbPart_stops env self w Hc Hn Hev) as HsU.
    destruct (usbPart_shape env self w) as ((_ & HpU & _) & evsU & HlU & HshU).
    destruct (usbPart_attempts env self w) as (evs' & Hl' & _ & HattU).
    assert (evs' = evsU) as -> by (rewrite HlU in Hl'; by apply app_inv_head in Hl').
    destruct (HattU ltac:(by rewrite Hexit)) as (Hatt & _).
    apply UsbShape_read in HshU as (HaU & _).
    rewrite bgScan_unfold, Hexit, Hb. unfold btPass.
    assert (HevU : _stopEvent self ∉ stopSet (afterUsbPart env self w)) by (by rewrite HsU).
    rewrite !isSet_unset by done. cbn [fst snd]. rewrite Hcache.
    set (w3 := emit (EvIsSet (_stopEvent self) false) (afterUsbPart env self w)).
    pose proof (drain_bt_world env w3) as Hbt. cbn zeta in Hbt.
    destruct (drain (getDriversForPossibleBluetoothDevices env) w3) as [[bt finB] w4].
    cbn [fst snd] in *. destruct Hbt as (Hl4 & Hp4 & _).
    intros ->. cbn [fst snd].
    erewrite newEvents_app; [| rewrite Hl4; cbn; rewrite HlU, <- !app_assoc; done].
    rewrite attempts_app, existsb_app, Hatt, HaU. cbn.
    rewrite app_nil_r. split_and!; try done. by rewrite Hp4.
Qed.

Lemma envRaising_quiet : nothingConnects envRaising ∧ nobodyCancels envRaising.
Proof. split; [intros t d m; reflexivity | intros t; reflexivity]. Qed.

Lemma envRaising_start :
  _detectUsb (newDetector envRaising) = true
  ∧ stopSet (startWorld envRaising) = ∅
  ∧ (drain (getDriversForConnectedUsbDevices envRaising)
           (isSet envRaising (_stopEvent (newDetector envRaising))
                  (startWorld envRaising)).2).1.2
    = Some (KeyError "usbID").
Proof. split_and!; by vm_compute. Qed.

Lemma matching_exception_ends_pass_witness :
  (_bgScan envRaising (newDetector envRaising) (startWorld envRaising)).1
  = (Raise (KeyError "usbID"), newDetector envRaising).
Proof.
  destruct envRaising_quiet as [Hnc Hno].
  destruct envRaising_start as (Hu & Hs & Hfin).
  assert (Hev : _stopEvent (newDetector envRaising) ∉ stopSet (startWorld envRaising)).
  { rewrite Hs. apply not_elem_of_empty. }
  pose proof (matching_exception_ends_pass envRaising (newDetector envRaising)
                (startWorld envRaising) (KeyError "usbID") Hnc Hno Hev) as H.
  cbv zeta in H. destruct H as [H _].
  exact (proj1 (H Hu Hfin)).
Defined.

(** * Matching and the cache in the presence of faulty ports

    The claims on USB matching, Bluetooth matching and the Bluetooth cache,
    settled with the help of the properties above. *)

(** ** USB matching and faulty ports *)

Lemma baum_hid_registered :
  registered (registry importedWorld) "baum" KEY_HID {[ VStr "VID_0904&PID_3001" ]}.
Proof.
  eapply registered_subseteq;
    [| eapply (runAll_registered detectionData _ _ "baum" KEY_HID);
       [apply import_succeeds | done | left; left] ].
  intros x ->%elem_of_singleton. unfold usbIds. rewrite elem_of_list_to_set.
  cbn. by left.
Qed.

Lemma customNoId_yields_nothing :
  (drain (getConnectedUsbDevicesForDriver envCustomNoId "baum") importedWorld).1.1 = []
  ∧ (drain (getDriversForConnectedUsbDevices envCustomNoId) importedWorld).1.1 = [].
Proof. split; by vm_compute. Qed.

(** C1 (as stated, refuted).  The hardware reports a custom device without
    [usbID] and, after it, a HID device whose id [baum] has registered for
    HID devices.  The record of the HID device is a record of a reported
    device of the kind and with an id of the registered set, but neither
    matching function yields it: both end with the [KeyError] of the custom
    device before they get to it. *)
Lemma reported_record_not_yielded :
  registered (registry importedWorld) "baum" KEY_HID {[ VStr "VID_0904&PID_3001" ]}
  ∧ reported envCustomNoId importedWorld hidBaumMatch
  ∧ DeviceMatch.type hidBaumMatch = KEY_HID
  ∧ DeviceMatch.id hidBaumMatch ∈ ({[ VStr "VID_0904&PID_3001" ]} : gset pyval)
  ∧ (hidBaumMatch
      ∉ (drain (getConnectedUsbDevicesForDriver envCustomNoId "baum") importedWorld).1.1)
  ∧ (("baum", hidBaumMatch)
      ∉ (drain (getDriversForConnectedUsbDevices envCustomNoId) importedWorld).1.1).
Proof.
  destruct customNoId_yields_nothing as [Hs Hp].
  split_and!.
  - exact baum_hid_registered.
  - split; [reflexivity |]. right; left.
    split_and!; [reflexivity | apply list_elem_of_singleton; reflexivity | reflexivity].
  - reflexivity.
  - apply elem_of_singleton. reflexivity.
  - rewrite Hs. apply not_elem_of_nil.
  - rewrite Hp. apply not_elem_of_nil.
Qed.

(** C1 (amended).  For a driver that has the id set [ids] registered under
    [kind], USB matching run to its end yields every device record of that
    kind whose id is in [ids] among the records it builds before it ends,
    from [getConnectedUsbDevicesForDriver] as the record and from
    [getDriversForConnectedUsbDevices] as a pair with the driver; and
    whatever either function yields for the driver is such a record whose
    id is in the set the driver has registered for the kind of the
    record.  The records built are records of devices the hardware
    reports; when no reported port is faulty (see [faultyUsbPort]) they are
    all of them, so that then every reported record of the kind with an id
    in [ids] is yielded. *)
Theorem usb_matching_sound_complete env w driver kind ids :
  wfRegistry (registry w) →
  registered (registry w) driver kind ids →
  (∀ m, m ∈ items (enumerated env w) →
        DeviceMatch.type m = kind → DeviceMatch.id m ∈ ids →
        m ∈ (drain (getConnectedUsbDevicesForDriver env driver) w).1.1
        ∧ (driver, m) ∈ (drain (getDriversForConnectedUsbDevices env) w).1.1)
  ∧ (∀ m, m ∈ (drain (getConnectedUsbDevicesForDriver env driver) w).1.1
          ∨ (driver, m) ∈ (drain (getDriversForConnectedUsbDevices env) w).1.1 →
          m ∈ items (enumerated env w)
          ∧ ∃ (devs : Devs) stored,
              registry w !! driver = Some devs
              ∧ devs !! DeviceMatch.type m = Some (Ids stored)
              ∧ DeviceMatch.id m ∈ stored)
  ∧ (∀ m, m ∈ items (enumerated env w) → reported env w m)
  ∧ (ending (enumerated env w) = None →
       ∀ m, reported env w m → m ∈ items (enumerated env w))
  ∧ (¬ faultyUsbPort env w →
       ∀ m, reported env w m → DeviceMatch.type m = kind → DeviceMatch.id m ∈ ids →
            m ∈ (drain (getConnectedUsbDevicesForDriver env driver) w).1.1
            ∧ (driver, m) ∈ (drain (getDriversForConnectedUsbDevices env) w).1.1).
Proof.
  intros Hwf (devs & stored & Hd & Hk & Hsub).
  rewrite (drain_getConnectedUsbDevicesForDriver env driver devs) by done.
  rewrite drain_getDriversForConnectedUsbDevices by done. cbn [fst].
  assert (Hyes : ∀ m, m ∈ items (enumerated env w) →
            DeviceMatch.type m = kind → DeviceMatch.id m ∈ ids →
            m ∈ flat_map (fun m => replicate (typeHits m (map_to_list devs)) m)
                         (items (enumerated env w))
            ∧ (driver, m) ∈ flat_map (fun m => usbPairs m (map_to_list (registry w)))
                                     (items (enumerated env w))).
  { intros m Hin <- Hid. split.
    + apply list_elem_of_In, in_flat_map. exists m. split; [by apply list_elem_of_In |].
      apply list_elem_of_In, elem_of_replicate_self. split; [done |].
      apply typeHits_devs. exists stored. split; [done |]. by apply Hsub.
    + apply list_elem_of_In, in_flat_map. exists m. split; [by apply list_elem_of_In |].
      apply list_elem_of_In, elem_of_usbPairs. split; [done |].
      exists devs, stored. split_and!; [done | done |]. by apply Hsub. }
  split_and!.
  - exact Hyes.
  - intros m [Hin | Hin].
    + apply list_elem_of_In, in_flat_map in Hin as (m' & Hm' & Hr).
      apply list_elem_of_In in Hm', Hr.
      apply elem_of_replicate_self in Hr as [-> Hpos]. split; [done |].
      apply typeHits_devs in Hpos as (s & ? & ?). by exists devs, s.
    + apply list_elem_of_In, in_flat_map in Hin as (m' & Hm' & Hr).
      apply list_elem_of_In in Hm', Hr.
      apply elem_of_usbPairs in Hr as [-> Hm]. split; [done |]. exact Hm.
  - apply enumerated_reported.
  - intros Hend m. by apply enumerated_complete.
  - intros Hno m Hrep Ht Hid. apply Hyes; [| done | done].
    apply enumerated_complete; [| done].
    destruct (ending (enumerated env w)) as [e |] eqn:E; [| done].
    exfalso. apply Hno, ending_enumerated_faulty. by exists e.
Qed.

Lemma envOneHid_not_faulty : ¬ faultyUsbPort envOneHid importedWorld.
Proof.
  intros [(p & Hin & _) | [(p & Hin & _ & Hn) | (p & Hin & _)]].
  - by apply elem_of_nil in Hin.
  - apply list_elem_of_singleton in Hin as ->. by vm_compute in Hn.
  - by apply elem_of_nil in Hin.
Qed.

Lemma hidBaum_reported : reported envOneHid importedWorld hidBaumMatch.
Proof.
  split; [reflexivity |]. right; left.
  split_and!; [reflexivity | apply list_elem_of_singleton; reflexivity | reflexivity].
Qed.

Lemma usb_matching_witness :
  hidBaumMatch ∈ (drain (getConnectedUsbDevicesForDriver envOneHid "baum") importedWorld).1.1
  ∧ ("baum", hidBaumMatch)
      ∈ (drain (getDriversForConnectedUsbDevices envOneHid) importedWorld).1.1.
Proof.
  pose proof (usb_matching_sound_complete envOneHid importedWorld "baum" KEY_HID
                {[ VStr "VID_0904&PID_3001" ]} importedWorld_wf baum_hid_registered)
    as (_ & _ & _ & _ & H).
  apply (H envOneHid_not_faulty hidBaumMatch hidBaum_reported).
  - reflexivity.
  - apply elem_of_singleton. reflexivity.
Defined.

(** ** Bluetooth matching and exceptions *)

Lemma faulty_bluetooth_yields :
  (drain (getDriversForPossibleBluetoothDevices envFaultyBluetooth) importedWorld).1.1 = []
  ∧ (drain (getPossibleBluetoothDevicesForDriver envFaultyFirst "brailliantB")
           importedWorld).1.1 = []
  ∧ brailliantBMatch btBrailliantMatch = Ok true.
Proof. split_and!; by vm_compute. Qed.

(** C5 (as stated, refuted).  The serial port of a paired Brailliant carries
    a Bluetooth name, the record built from it is accepted by the match
    function that [brailliantB] has registered, and yet the record is not
    yielded: not by [getDriversForPossibleBluetoothDevices] when another
    serial port with a Bluetooth name has no [port] (all records are built
    before the first pair is yielded, and the building raises), and not by
    [getPossibleBluetoothDevicesForDriver] when such a port comes before it
    (the generator ends with the [KeyError] before it gets to the
    Brailliant). *)
Lemma accepted_record_not_yielded :
  btPredicate (registry importedWorld) "brailliantB" = Some brailliantBMatch
  ∧ brailliantBMatch btBrailliantMatch = Ok true
  ∧ mkDeviceMatch KEY_SERIAL "bluetoothName" "port" comBrailliant = Ok btBrailliantMatch
  ∧ contains "bluetoothName" comBrailliant = true
  ∧ comBrailliant ∈ listComPorts envFaultyBluetooth (clock importedWorld)
  ∧ (("brailliantB", btBrailliantMatch)
       ∉ (drain (getDriversForPossibleBluetoothDevices envFaultyBluetooth)
                importedWorld).1.1)
  ∧ comBrailliant ∈ listComPorts envFaultyFirst (clock importedWorld)
  ∧ (btBrailliantMatch
       ∉ (drain (getPossibleBluetoothDevicesForDriver envFaultyFirst "brailliantB")
                importedWorld).1.1).
Proof.
  destruct faulty_bluetooth_yields as (Hp & Hs & Hacc).
  split_and!.
  - exact brailliantB_predicate.
  - exact Hacc.
  - reflexivity.
  - reflexivity.
  - left.
  - rewrite Hp. apply not_elem_of_nil.
  - right. left.
  - rewrite Hs. apply not_elem_of_nil.
Qed.

(** ** What the cache holds, and who resets it *)

(** C3 (amended).  During the first Bluetooth sub-pass (no cache yet) the
    candidates are collected in a list of the pass.  That list becomes
    [self._btComs] only at the end of the sub-pass, and only if the stop
    event is not found set there: a pass in which cancellation is observed
    leaves the cache "not yet computed".  A cache that is stored comes from a
    pass that returned normally without cancellation; it holds, in order,
    exactly the candidates for which activation was attempted in the
    Bluetooth sub-pass (the attempts of the pass are those on the
    candidates of USB matching, all of them, followed by those on the
    cache), a prefix of the candidates found that is all of them unless an
    activation succeeded.  A pass that returns normally, sees no
    cancellation, has no successful USB activation and was asked for
    Bluetooth does store a cache. *)
Theorem bluetooth_cache_stored_at_end env self w :
  _btComs self = None →
  let res := _bgScan env self w in
  let evs := newEvents w res.2 in
  let found := candidates env (_stopEvent self) self (afterUsbPart env self w) in
  (existsb cancelEvent evs = true → _btComs res.1.2 = None)
  ∧ (∀ cache, _btComs res.1.2 = Some cache →
       res.1.1 = Ok tt
       ∧ existsb cancelEvent evs = false
       ∧ cache `prefix_of` found
       ∧ cache `suffix_of` attempts evs
       ∧ (existsb successEvent evs = false → cache = found)
       ∧ attempts evs = attempts (newEvents w (afterUsbPart env self w)) ++ cache
       ∧ attempts (newEvents w (afterUsbPart env self w)) = usbFound env self w)
  ∧ (res.1.1 = Ok tt → existsb cancelEvent evs = false →
       existsb successEvent (newEvents w (afterUsbPart env self w)) = false →
       _detectBluetooth self = true →
       is_Some (_btComs res.1.2)).
Proof.
  intros Hold res evs found. subst evs res found.
  pose proof (pass_cases env self w) as H. cbn zeta in H.
  destruct H as (evsU & HlU & HshapeU & Hf & Hcases).
  destruct (usbPart_attempts env self w) as (evs' & Hl' & _ & HattU).
  assert (evs' = evsU) as -> by (rewrite HlU in Hl'; by apply app_inv_head in Hl').
  destruct (UsbShape_read _ _ _ HshapeU) as (HaU & HbU & HcalmU & HsU & HcU).
  rewrite (newEvents_app _ _ _ HlU).
  destruct Hcases as [(Hend & Hres & Hevs) | (Hexit & Hbt & armed & evsB & Hevs & HshapeB & _ & Hafter)].
  - rewrite Hevs, Hres. clear Hevs Hres. cbn [fst snd]. rewrite Hold.
    split_and!; [done | done |].
    intros Hr Hc Hs Hbt. exfalso.
    destruct (usbExit env self w) as [| e |] eqn:Hexit; [| done |].
    + inversion HshapeU as [pre H | pre d m H | |]; subst.
      * rewrite existsb_snoc in Hc. cbn in Hc. by rewrite orb_true_r in Hc.
      * rewrite existsb_snoc in Hs. cbn in Hs. by rewrite orb_true_r in Hs.
    + destruct Hend as [? | ?]; congruence.
  - rewrite Hevs. rewrite Hold in HshapeB.
    destruct (BtShape_read _ _ _ _ _ _ _ HshapeB)
      as (Harm & _ & Hcancel & _ & Hprefix & Hok & _ & Hstored).
    rewrite !existsb_app, attempts_app.
    assert (HcalmU' : forallb calm evsU = true) by (apply HcalmU; congruence).
    destruct (calm_none _ HcalmU') as (HcU0 & HsU0 & _ & _).
    rewrite HcU0, HsU0. cbn [orb].
    split_and!.
    + intros Hc. by destruct (Hcancel Hc).
    + intros cache Hcache. destruct (Hstored eq_refl cache Hcache) as [Hr Hc].
      destruct (Hok Hr Hc) as (Hnew & Hall & _).
      rewrite Hcache in Hnew. injection Hnew as ->.
      split_and!; [done | done | done | by exists (attempts evsU) | | done |].
      * intros Hs. by apply Hall.
      * apply HattU. by rewrite Hexit.
    + intros Hr Hc _ _. destruct (Hok Hr Hc) as (-> & _). by eexists.
Qed.

Lemma first_pass_uncancelled :
  existsb cancelEvent
    (newEvents (startWorld envBluetooth)
       (_bgScan envBluetooth (newDetector envBluetooth) (startWorld envBluetooth)).2)
  = false
  ∧ existsb successEvent
      (newEvents (startWorld envBluetooth)
         (afterUsbPart envBluetooth (newDetector envBluetooth)
                       (startWorld envBluetooth))) = false.
Proof. split; by vm_compute. Qed.

Lemma bluetooth_cache_stored_witness :
  is_Some (_btComs (_bgScan envBluetooth (newDetector envBluetooth)
                            (startWorld envBluetooth)).1.2).
Proof.
  destruct startWorld_bluetooth as (_ & Hb & Hold & _ & Hok).
  destruct first_pass_uncancelled as (Hc & Hs).
  pose proof (bluetooth_cache_stored_at_end envBluetooth (newDetector envBluetooth)
                (startWorld envBluetooth) Hold) as H.
  cbn zeta in H. destruct H as (_ & _ & H).
  exact (H Hok Hc Hs Hb).
Defined.







